(** * FairSplit: debt settlement, fairness score and task orchestration

    A shallow embedding of
    - [src/lib/utils.ts]                    ([roundTo], [calculateGini],
                                             [retry], [truncate], [unique],
                                             [sanitizeFilename]),
    - [src/agents/DebtOptimizerAgent.ts]    (net positions, greedy matching,
                                             output validation, cycle search,
                                             fairness score),
    - [src/agents/base/AgentOrchestrator.ts] (topological sort, task loop,
                                             the queue and the stored
                                             results; [retryWithBackoff]),
    - [src/guardrails/Guardrails.ts]        (the debts part of the business
                                             rule guardrail, the rate
                                             limiter).

    Numbers.  A JavaScript [number] is modelled by an exact rational [Q]:
    [+], [-], [*], [/], [Math.min], [Math.abs] and the comparisons are the
    exact ones, and [Math.round x] is [floor (x + 1/2)].  The rounding error
    of binary64 arithmetic is outside this model; it can move a value that
    lies next to a tie of [Math.round] to the other side, so the
    statements about [roundTo], the Gini coefficient and the fairness score
    bound the distance to the exact value by a whole unit of the last
    decimal kept instead of naming the rounded value.

    Plain objects.  The keys of a plain object are read in the order of
    [OrdinaryOwnPropertyKeys]: array indices in ascending order, then the
    other keys in the order of their creation ([JsMap.objectOrder]).

    Objects.  The [NetPosition] objects allocated by [calculateNetPositions]
    are shared between the arrays that [execute] and [optimizeDebts] build
    from them with [filter] and [sort]; they live in a heap addressed by
    their position in the array [calculateNetPositions] returns. *)

From Stdlib Require Import QArith Qround Qabs Lia Lqa ZArith Sorted.
From stdpp Require Import base list strings gmap.

Local Open Scope string_scope.
Local Open Scope list_scope.

(** ** Numbers: [src/lib/utils.ts] *)

Module Money.

Local Open Scope Q_scope.

(** [Math.pow(10, decimals)] *)
Definition pow10 (decimals : nat) : Q := inject_Z (10 ^ Z.of_nat decimals).

(** [Math.round]: nearest integer, ties towards plus infinity. *)
Definition Math_round (x : Q) : Z := Qfloor (x + (1 # 2)).

(** [roundTo(value, decimals)]
    [= Math.round(value * 10^decimals) / 10^decimals].
    [Qred] picks the reduced fraction, so that equal results are equal
    terms, as equal JavaScript numbers are. *)
Definition roundTo (value : Q) (decimals : nat) : Q :=
  Qred (inject_Z (Math_round (value * pow10 decimals)) / pow10 decimals).

Definition cent : Q := 1 # 100.

(** [x === 0], [x > y], [x >= y] on numbers. *)
Definition isZero (x : Q) : bool := Qeq_bool x 0.
Definition gtb (x y : Q) : bool := negb (Qle_bool x y).
Definition geb (x y : Q) : bool := Qle_bool y x.
Definition ltb (x y : Q) : bool := negb (Qle_bool y x).

(** [Math.min] *)
Definition Math_min (x y : Q) : Q := if Qle_bool x y then x else y.

(** [arr.reduce((sum, v) => sum + v, 0)] *)
Definition sumQ (l : list Q) : Q := fold_left Qplus l 0.

(** The sum of [f x] over the elements [x] of [l], as mathematics writes it. *)
Fixpoint sumOver {A} (f : A -> Q) (l : list A) : Q :=
  match l with
  | [] => 0
  | x :: l' => f x + sumOver f l'
  end.

(** A whole number of cents. *)
Definition wholeCents (x : Q) : Prop := exists k : Z, x == inject_Z k / 100.

End Money.


(** ** Insertion-ordered maps

    A JavaScript [Map<string, V>] keeps its keys in insertion order, and
    assigning to a key that is present keeps its place.  A plain object
    filled by assignment does the same for the keys that are not array
    indices, and lists its array indices before them, in ascending order:
    [objectOrder] is the order of [Object.entries] and [Object.keys]. *)

Module JsMap.

Section OrderedMap.
Context {V : Type}.

Fixpoint omap_get (m : list (string * V)) (k : string) : option V :=
  match m with
  | [] => None
  | (k', v) :: m' => if String.eqb k' k then Some v else omap_get m' k
  end.

Fixpoint omap_set (m : list (string * V)) (k : string) (v : V)
  : list (string * V) :=
  match m with
  | [] => [(k, v)]
  | (k', v') :: m' =>
      if String.eqb k' k then (k', v) :: m' else (k', v') :: omap_set m' k v
  end.
End OrderedMap.

(** *** The order of the own keys of a plain object *)

Definition digitOf (a : Ascii.ascii) : option N :=
  let n := Ascii.N_of_ascii a in
  if ((48 <=? n) && (n <=? 57))%N then Some (n - 48)%N else None.

Fixpoint decimalFrom (acc : N) (s : string) : option N :=
  match s with
  | EmptyString => Some acc
  | String a s' =>
      match digitOf a with
      | Some d => decimalFrom (10 * acc + d)%N s'
      | None => None
      end
  end.

(** An array index: the canonical decimal string of an integer from [0] to
    [2^32 - 2]. *)
Definition arrayIndex (key : string) : option N :=
  match key with
  | EmptyString => None
  | String a rest =>
      if N.eqb (Ascii.N_of_ascii a) 48
      then match rest with EmptyString => Some 0%N | String _ _ => None end
      else match decimalFrom 0 key with
           | Some n => if (n <? 4294967295)%N then Some n else None
           | None => None
           end
  end.

Definition isArrayIndex (key : string) : bool :=
  match arrayIndex key with Some _ => true | None => false end.

Section ObjectOrder.
Context {A : Type} (keyOf : A -> string).

Definition indexOf (x : A) : N :=
  match arrayIndex (keyOf x) with Some n => n | None => 0%N end.

Fixpoint insertByIndex (x : A) (l : list A) : list A :=
  match l with
  | [] => [x]
  | y :: l' =>
      if (indexOf x <? indexOf y)%N then x :: l else y :: insertByIndex x l'
  end.

(** The items whose key is an array index, by ascending index, then the
    others as they come. *)
Definition objectOrder (l : list A) : list A :=
  List.fold_right insertByIndex []
    (List.filter (fun x => isArrayIndex (keyOf x)) l)
  ++ List.filter (fun x => negb (isArrayIndex (keyOf x))) l.
End ObjectOrder.

(** [Object.entries(o)] and [Object.keys(o)] for an object whose properties
    were created in the order of the list. *)
Definition objectEntries {V} (o : list (string * V)) : list (string * V) :=
  objectOrder fst o.

Definition objectKeys (keys : list string) : list string :=
  objectOrder (fun k => k) keys.

End JsMap.
(** ** The debt settlement engine: [src/agents/DebtOptimizerAgent.ts] *)

Module DebtOptimizer.

Import Money JsMap.
Local Open Scope Q_scope.

(** [interface Debt { from; to; amount }] *)
Record Debt := mkDebt { from : string; to : string; amount : Q }.

(** [interface Transaction] has the fields of [Debt]; TypeScript types are
    structural, and [validateOutput] copies one into the other field by
    field. *)
Abbreviation Transaction := Debt.

(** [interface NetPosition { person; balance }] *)
Record NetPosition := mkNP { person : string; balance : Q }.

(** [interface DebtOptimizeInput { debts; minimumAmount? }] *)
Record DebtOptimizeInput := mkInput {
  debts : list Debt;
  minimumAmount : option Q
}.

(** [interface DebtOptimizeOutput] *)
Record DebtOptimizeOutput := mkOutput {
  originalTransactions : Z;
  optimizedTransactions : Z;
  transactions : list Transaction;
  saved : Z;
  totalAmount : Q;
  balances : list (string * Q)
}.

(** [positions.get(p) || 0] and [newBalances[p] || 0] *)
Definition getOr0 (m : list (string * Q)) (k : string) : Q :=
  match omap_get m k with Some v => v | None => 0 end.

(** The body of the loop of [calculateNetPositions]. *)
Definition addDebt (positions : list (string * Q)) (debt : Debt)
  : list (string * Q) :=
  let positions1 :=
    omap_set positions (from debt) (getOr0 positions (from debt) - amount debt) in
  omap_set positions1 (to debt) (getOr0 positions1 (to debt) + amount debt).

(** The map [positions] when the loop is over, before any rounding. *)
Definition accumulate (ds : list Debt) : list (string * Q) :=
  List.fold_left addDebt ds [].

(** [calculateNetPositions(debts)] *)
Definition calculateNetPositions (ds : list Debt) : list NetPosition :=
  List.map (fun e => mkNP (fst e) (roundTo (snd e) 2)) (accumulate ds).

(** *** [Array.prototype.sort((a, b) => b.balance - a.balance)]

    The sort is stable and the comparator orders by descending key, which
    fixes the result; it is computed here by insertion from the right. *)
Section SortDesc.
Context {A : Type} (key : A -> Q).

Fixpoint insertDesc (x : A) (l : list A) : list A :=
  match l with
  | [] => [x]
  | y :: l' => if ltb (key x) (key y) then y :: insertDesc x l' else x :: l
  end.

Definition sortDesc (l : list A) : list A := List.fold_right insertDesc [] l.
End SortDesc.

(** *** The heap of [NetPosition] objects *)
Abbreviation Heap := (list NetPosition).
Abbreviation Ref := nat.

Definition balanceAt (h : Heap) (r : Ref) : Q :=
  match h !! r with Some np => balance np | None => 0 end.

(** *** The [while] loop of [optimizeDebts]

    [i] and [j] only advance, so [creditors] and [debtors] stand for
    [creditors.slice(i)] and [debtors.slice(j)]; the creditor objects are
    those of the heap, the debtor objects are the copies made by
    [.map(np => ({ ...np, balance: -np.balance }))].  [None] is returned
    when the model runs out of fuel or meets a reference outside the heap;
    [optimizeDebts_returns] shows that neither happens. *)
Fixpoint matchLoop (fuel : nat) (h : Heap) (creditors : list Ref)
    (debtors : list NetPosition) (txs : list Transaction)
  : option (Heap * list Transaction) :=
  match creditors, debtors with
  | r :: creditors', debtor :: debtors' =>
      match fuel, h !! r with
      | S fuel', Some creditor =>
          let amount := Math_min (balance creditor) (balance debtor) in
          let txs' :=
            if geb amount cent
            then txs ++ [mkDebt (person debtor) (person creditor) (roundTo amount 2)]
            else txs in
          let cb := roundTo (balance creditor - amount) 2 in
          let db := roundTo (balance debtor - amount) 2 in
          let h' := <[r := mkNP (person creditor) cb]> h in
          matchLoop fuel' h'
            (if isZero cb then creditors' else creditors)
            (if isZero db then debtors' else mkNP (person debtor) db :: debtors')
            txs'
      | _, _ => None
      end
  | _, _ => Some (h, txs)
  end.

(** [optimizeDebts(netPositions)]: [netPositions] is an array of references
    into the heap [h]; the result is the heap after the loop and the
    transactions. *)
Definition optimizeDebts (h : Heap) (netPositions : list Ref)
  : option (Heap * list Transaction) :=
  let creditors :=
    sortDesc (balanceAt h)
      (List.filter (fun r => gtb (balanceAt h r) 0) netPositions) in
  let debtors :=
    sortDesc balance
      (List.map (fun r => mkNP (match h !! r with Some np => person np | None => "" end)
                               (- balanceAt h r))
         (List.filter (fun r => ltb (balanceAt h r) 0) netPositions)) in
  matchLoop (length creditors + length debtors) h creditors debtors [].

Definition defaultMinimumAmount : Q := 1 # 2.

(** [const { debts, minimumAmount = 0.5 } = input] *)
Definition effectiveMinimum (input : DebtOptimizeInput) : Q :=
  match minimumAmount input with Some m => m | None => defaultMinimumAmount end.

Definition emptyOutput : DebtOptimizeOutput :=
  mkOutput 0 0 [] 0 0 [].

(** [execute(input)].  The forgiveness filter and [optimizeDebts] work on
    the objects of [netPositions]; [balances] is built from the same objects
    after [optimizeDebts] has returned.  It is a plain object filled in the
    order of [netPositions]; its entries are listed in the order in which
    [Object.entries] reads them. *)
Definition execute (input : DebtOptimizeInput) : option DebtOptimizeOutput :=
  let ds := debts input in
  let minimum := effectiveMinimum input in
  if Nat.eqb (length ds) 0 then Some emptyOutput else
  let h := calculateNetPositions ds in
  let netPositions := seq 0 (length h) in
  let filteredPositions :=
    List.filter (fun r => geb (Qabs (balanceAt h r)) minimum) netPositions in
  match optimizeDebts h filteredPositions with
  | None => None
  | Some (h', optimized) =>
      let total := List.fold_left (fun sum t => sum + amount t) optimized 0 in
      let bal :=
        objectEntries
          (List.fold_left
             (fun b r =>
                match h' !! r with
                | Some np => omap_set b (person np) (roundTo (balance np) 2)
                | None => b
                end)
             netPositions []) in
      Some (mkOutput (Z.of_nat (length ds))
                     (Z.of_nat (length optimized))
                     optimized
                     (Z.of_nat (length ds) - Z.of_nat (length optimized))
                     (roundTo total 2)
                     bal)
  end.

(** [newPositions.forEach(np => { newBalances[np.person] = np.balance; })]:
    net positions as a record from person to balance. *)
Definition asRecord (nps : list NetPosition) : list (string * Q) :=
  List.fold_left (fun nb np => omap_set nb (person np) (balance np)) nps [].

(** [newBalances] in [validateOutput]: the transactions replayed as debts. *)
Definition replayBalances (txs : list Transaction) : list (string * Q) :=
  asRecord
    (calculateNetPositions
       (List.map (fun t => mkDebt (from t) (to t) (amount t)) txs)).

(** [validateOutput(output)]: [None] when every balance matches, else the
    person of the first mismatch (the exception thrown). *)
Definition validateOutput (output : DebtOptimizeOutput) : option string :=
  let newBalances := replayBalances (transactions output) in
  match
    List.find
      (fun e => gtb (Qabs (snd e - getOr0 newBalances (fst e))) cent)
      (balances output)
  with
  | Some e => Some (fst e)
  | None => None
  end.

(** *** Vocabulary of the properties *)

(** The parties whose rounded net balance is not zero. *)
Definition partiesWithNonZeroBalance (ds : list Debt) : nat :=
  length (List.filter (fun np => negb (isZero (balance np)))
            (calculateNetPositions ds)).

(** What the transaction or debt [t] adds to the balance of [p]. *)
Definition flow (p : string) (t : Debt) : Q :=
  (if String.eqb (to t) p then amount t else 0)
  - (if String.eqb (from t) p then amount t else 0).

(** The exact net balance of [p] over the debts [ds]. *)
Definition netOf (ds : list Debt) (p : string) : Q := sumOver (flow p) ds.

(** The balance of a position when it is the one of [p], else [0]. *)
Definition share (p : string) (np : NetPosition) : Q :=
  if String.eqb (person np) p then balance np else 0.

Definition shareOf (p : string) (nps : list NetPosition) : Q :=
  sumOver (share p) nps.

(** [share] of the object a reference points to. *)
Definition held (h : Heap) (p : string) (r : Ref) : Q :=
  match h !! r with Some np => share p np | None => 0 end.

(** What the loop expects of the creditors and of the debtors: a positive
    whole number of cents. *)
Definition owing (np : NetPosition) : Prop :=
  0 < balance np /\ wholeCents (balance np).

Definition owed (h : Heap) (r : Ref) : Prop :=
  exists np, h !! r = Some np /\ owing np.

End DebtOptimizer.

(** ** What a settlement pays and to whom *)

Module Ledger.

Import Money DebtOptimizer.
Local Open Scope Q_scope.

(** The keys of a [Map] filled by [set] in the order of [l]: every element
    at its first occurrence. *)
Definition firstSeen (l : list string) : list string :=
  List.fold_left (fun seen x => if bool_decide (x ∈ seen) then seen else seen ++ [x])
    l [].

(** The parties of the debts in the order in which the loop of
    [calculateNetPositions] meets them: payer, then payee. *)
Definition parties (ds : list Debt) : list string :=
  firstSeen (List.flat_map (fun d => [from d; to d]) ds).

(** The total that the transactions take from [p] and bring to [p]. *)
Definition paid (p : string) (txs : list Transaction) : Q :=
  sumOver (fun t => if String.eqb (from t) p then amount t else 0) txs.

Definition received (p : string) (txs : list Transaction) : Q :=
  sumOver (fun t => if String.eqb (to t) p then amount t else 0) txs.

(** The rounded net position of [p], as [calculateNetPositions] holds it. *)
Definition position (ds : list Debt) (p : string) : Q := roundTo (netOf ds p) 2.

(** The part of a position that [execute] hands to [optimizeDebts]: a
    position below [minimum] in magnitude is left out. *)
Definition credit (minimum net : Q) : Q :=
  if geb (Qabs net) minimum && gtb net 0 then net else 0.

Definition debit (minimum net : Q) : Q :=
  if geb (Qabs net) minimum && ltb net 0 then - net else 0.

End Ledger.

(** ** Cycle search: [DebtOptimizerAgent.detectCircularDebts] *)

Module CircularDebts.

Import JsMap DebtOptimizer.

(** An edge of the adjacency list: [{ ...debt, index }]. *)
Record Edge := mkEdge { debt : Debt; index : nat }.

(** [graph.get(debt.from)!.push({ ...debt, index })], after the key has been
    created when absent. *)
Definition addEdge (graph : list (string * list Edge)) (e : Edge)
  : list (string * list Edge) :=
  let k := from (debt e) in
  match omap_get graph k with
  | Some es => omap_set graph k (es ++ [e])
  | None => omap_set graph k [e]
  end.

Definition buildGraph (ds : list Debt) : list (string * list Edge) :=
  List.fold_left addEdge (imap (fun i d => mkEdge d i) ds) [].

(** The variables the closure [dfs] shares: [visited], [path], [circles]. *)
Record DfsState := mkDfs {
  visited : gset string;
  path : list Edge;
  circles : list (list Edge)
}.

(** [dfs(person, start)].  [used] is the set the closure reads; the fuel
    bounds the depth of the recursion. *)
Fixpoint dfs (fuel : nat) (graph : list (string * list Edge)) (used : gset nat)
    (start person : string) (st : DfsState) : option DfsState :=
  match fuel with
  | O => None
  | S fuel' =>
      if decide (person ∈ visited st) then
        if String.eqb person start && (3 <=? length (path st))%nat
        then Some (mkDfs (visited st) (path st) (circles st ++ [path st]))
        else Some st
      else
        let edges :=
          match omap_get graph person with Some es => es | None => [] end in
        let afterEdges :=
          List.fold_left
            (fun acc edge =>
               match acc with
               | None => None
               | Some s =>
                   if Nat.eqb (index edge) 0 || negb (bool_decide (index edge ∈ used))
                   then
                     match dfs fuel' graph used start (to (debt edge))
                             (mkDfs (visited s) (path s ++ [edge]) (circles s)) with
                     | Some s' =>
                         Some (mkDfs (visited s') (removelast (path s')) (circles s'))
                     | None => None
                     end
                   else Some s
               end)
            edges
            (Some (mkDfs ({[person]} ∪ visited st) (path st) (circles st))) in
        match afterEdges with
        | Some s => Some (mkDfs (visited s ∖ {[person]}) (path s) (circles s))
        | None => None
        end
  end.

(** [detectCircularDebts(debts)]: the pair [(circular, remaining)]. *)
Definition detectCircularDebts (ds : list Debt)
  : option (list (list Edge) * list Debt) :=
  let graph := buildGraph ds in
  let found :=
    List.fold_left
      (fun acc person =>
         match acc with
         | None => None
         | Some s => dfs (2 * length ds + 2) graph ∅ person person s
         end)
      (List.map fst graph) (Some (mkDfs ∅ [] [])) in
  match found with
  | None => None
  | Some s =>
      let used : gset nat :=
        list_to_set (List.map index (List.concat (circles s))) in
      Some (circles s,
            List.map snd
              (List.filter (fun e => negb (bool_decide (fst e ∈ used)))
                 (imap (fun i d => (i, d)) ds)))
  end.

End CircularDebts.

(** ** The fairness score: [calculateGini] of [src/lib/utils.ts] and
    [DebtOptimizerAgent.calculateFairnessScore] *)

Module Fairness.

Import Money DebtOptimizer.
Local Open Scope Q_scope.

(** [[...values].sort((a, b) => a - b)] *)
Fixpoint insertAsc (x : Q) (l : list Q) : list Q :=
  match l with
  | [] => [x]
  | y :: l' => if ltb x y then x :: l else y :: insertAsc x l'
  end.

Definition sortAsc (l : list Q) : list Q := List.fold_right insertAsc [] l.

(** The two nested [for] loops: [numerator += Math.abs(sorted[i] - sorted[j])] *)
Definition numeratorOf (sorted : list Q) : Q :=
  List.fold_left
    (fun acc a => List.fold_left (fun acc' b => acc' + Qabs (a - b)) sorted acc)
    sorted 0.

Definition lengthQ {A} (l : list A) : Q := inject_Z (Z.of_nat (length l)).

Definition meanOf (sorted : list Q) : Q := sumQ sorted / lengthQ sorted.

(** [numerator / (2 * n * n * mean)] *)
Definition giniOf (sorted : list Q) : Q :=
  numeratorOf sorted / (2 * lengthQ sorted * lengthQ sorted * meanOf sorted).

(** [calculateGini(values)] *)
Definition calculateGini (values : list Q) : Q :=
  if Nat.eqb (length values) 0 then 0 else
  let sorted := sortAsc values in
  if isZero (meanOf sorted) then 0 else
  roundTo (giniOf sorted) 4.

Record FairnessResult := mkFair { giniCoefficient : Q; fairnessScore : Q }.

(** [calculateFairnessScore] from the line [if (balances.length === 0)] on;
    [balances] holds the magnitudes. *)
Definition scoreMagnitudes (balances : list Q) : FairnessResult :=
  if Nat.eqb (length balances) 0 then mkFair 0 100 else
  let sorted := sortAsc balances in
  if isZero (meanOf sorted) then mkFair 0 100 else
  let gini := giniOf sorted in
  mkFair (roundTo gini 4) (roundTo ((1 - gini) * 100) 1).


(** The coefficient as the specification writes it, over the values in the
    order given: [(Σ_i Σ_j |v_i - v_j|) / (2 * n^2 * mean v)]. *)
Definition specMean (v : list Q) : Q := sumOver (fun x => x) v / lengthQ v.

Definition pairwise (v : list Q) : Q :=
  sumOver (fun a => sumOver (fun b => Qabs (a - b)) v) v.

Definition specGini (v : list Q) : Q :=
  pairwise v / (2 * (lengthQ v * lengthQ v) * specMean v).

End Fairness.

(** ** The business rule guardrail: the [debts] part of
    [BusinessLogicGuardrail.validate] in [src/guardrails/Guardrails.ts] *)

Module Guardrails.

Import DebtOptimizer.

(** [interface ValidationResult { valid; reason? }] *)
Record ValidationResult := mkValidation { valid : bool; reason : option string }.

(** A [DebtOptimizeInput] has no [amount], [total] or [items] field, so
    only the check of the array size applies to it. *)
Definition BusinessLogicGuardrail_validate (input : DebtOptimizeInput)
  : ValidationResult :=
  if Nat.eqb (length (debts input)) 0
  then mkValidation false (Some "At least one debt is required")
  else if (1000 <? length (debts input))%nat
  then mkValidation false (Some "Too many debts (max 1000)")
  else mkValidation true None.

(** [BaseAgent.validateInput]: the first guardrail that rejects throws. *)
Definition validateInput (guardrails : list (string * (DebtOptimizeInput -> ValidationResult)))
    (input : DebtOptimizeInput) : option string :=
  match List.find (fun g => negb (valid (snd g input))) guardrails with
  | Some g =>
      Some ("Input validation failed [" +:+ fst g +:+ "]: "
            +:+ match reason (snd g input) with Some r => r | None => "undefined" end)
  | None => None
  end.

(** [BaseAgent.run] for the [DebtOptimizerAgent], without the audit record:
    [inl] is the exception thrown, [inr] the value returned.  The message of
    [validateOutput] is kept up to the person it names; the two numbers that
    follow are left out.  [None] stands for a model that ran out of fuel in
    [execute]. *)
Definition run (guardrails : list (string * (DebtOptimizeInput -> ValidationResult)))
    (input : DebtOptimizeInput) : option (string + DebtOptimizeOutput) :=
  match validateInput guardrails input with
  | Some msg => Some (inl msg)
  | None =>
      match execute input with
      | None => None
      | Some result =>
          match validateOutput result with
          | Some p => Some (inl ("Balance mismatch for " +:+ p))
          | None => Some (inr result)
          end
      end
  end.

(** [new DebtOptimizerAgent()] registers no guardrail. *)
Definition DebtOptimizerAgent_guardrails
  : list (string * (DebtOptimizeInput -> ValidationResult)) := [].

End Guardrails.

(** ** What a reported circle is *)

Module CycleSpec.

Import DebtOptimizer CircularDebts.

Definition payer (e : Edge) : string := from (debt e).
Definition payee (e : Edge) : string := to (debt e).

(** A chain of debts that starts at [s]: each debt is owed by the payee of
    the one before. *)
Fixpoint linked (s : string) (chain : list Edge) : Prop :=
  match chain with
  | [] => True
  | e :: chain' => payer e = s /\ linked (payee e) chain'
  end.

(** Where a chain that starts at [s] ends. *)
Definition endOf (s : string) (chain : list Edge) : string :=
  List.fold_left (fun _ e => payee e) chain s.

(** The edge is a debt of the input, at its index. *)
Definition ofInput (ds : list Debt) (e : Edge) : Prop :=
  ds !! index e = Some (debt e).

(** At least three debts of the input that lead from a party back to it
    through distinct payers. *)
Definition simpleCycle (ds : list Debt) (c : list Edge) : Prop :=
  3 <= length c
  /\ Forall (ofInput ds) c
  /\ (exists s, linked s c /\ endOf s c = s)
  /\ List.NoDup (List.map payer c).

(** Everybody named in a debt. *)
Definition everybody (ds : list Debt) : gset string :=
  list_to_set (List.flat_map (fun d => [from d; to d]) ds).

End CycleSpec.

(** ** The rate limiter: [RateLimitGuardrail] in [src/guardrails/Guardrails.ts] *)

Module RateLimit.

Local Open Scope Z_scope.

(** [constructor(private maxRequests = 30, private windowMs = 60000)];
    both are taken to be integers. *)
Record Config := mkConfig { maxRequests : Z; windowMs : Z }.

Definition defaultConfig : Config := mkConfig 30 60000.

(** The two fields of the input that [validate] reads, when they hold
    strings. *)
Record Input := mkInput { userId : option string; ipAddress : option string }.

(** [input.userId || input.ipAddress || 'anonymous']: an absent field and
    the empty string are falsy. *)
Definition identifierOf (input : Input) : string :=
  let given v :=
    match v with
    | Some s => if String.eqb s EmptyString then None else Some s
    | None => None
    end in
  match given (userId input), given (ipAddress input) with
  | Some u, _ => u
  | None, Some a => a
  | None, None => "anonymous"
  end.

(** The result of [validate] without the text of [reason]:
    [{ valid: true, details: { remaining } }] or
    [{ valid: false, details: { remaining: 0, resetAt } }], where [resetAt]
    is [None] for the invalid date that [new Date(undefined + windowMs)]
    is. *)
Inductive Verdict :=
| Allowed (remaining : Z)
| Exceeded (resetAt : option Z).

Definition valid (v : Verdict) : bool :=
  match v with Allowed _ => true | Exceeded _ => false end.

Definition remaining (v : Verdict) : Z :=
  match v with Allowed r => r | Exceeded _ => 0 end.

(** [this.requests] *)
Abbreviation Requests := (gmap string (list Z)).

(** [validate(input)] at the time [now = Date.now()]; the map is the one
    after the call. *)
Definition validate (cfg : Config) (requests : Requests) (input : Input)
    (now : Z) : Verdict * Requests :=
  let identifier := identifierOf input in
  let history := default [] (requests !! identifier) in
  let validHistory :=
    List.filter (fun timestamp => now - timestamp <? windowMs cfg) history in
  if maxRequests cfg <=? Z.of_nat (length validHistory)
  then (Exceeded (match validHistory with
                  | first :: _ => Some (first + windowMs cfg)
                  | [] => None
                  end),
        requests)
  else (Allowed (maxRequests cfg - Z.of_nat (length (validHistory ++ [now]))),
        <[identifier := validHistory ++ [now]]> requests).

(** *** A guardrail in use: calls one after the other *)

Record Entry := mkEntry { caller : string; time : Z; verdict : Verdict }.

Definition step (cfg : Config) (acc : list Entry * Requests) (call : Input * Z)
  : list Entry * Requests :=
  let (v, requests') := validate cfg (snd acc) (fst call) (snd call) in
  (fst acc ++ [mkEntry (identifierOf (fst call)) (snd call) v], requests').

(** The verdicts of the calls, in order, and the map after them, for a
    guardrail fresh from its constructor. *)
Definition serve (cfg : Config) (calls : list (Input * Z))
  : list Entry * Requests :=
  List.fold_left (step cfg) calls ([], ∅).

(** The calls of [identifier] in the log that were allowed less than
    [windowMs] before [now]. *)
Definition allowedWithin (cfg : Config) (identifier : string) (now : Z)
    (log : list Entry) : Z :=
  Z.of_nat
    (length
       (List.filter
          (fun e => valid (verdict e) && String.eqb (caller e) identifier
                    && (now - time e <? windowMs cfg))
          log)).

(** The times at which [identifier] was allowed. *)
Definition allowedTimes (identifier : string) (log : list Entry) : list Z :=
  List.map time
    (List.filter (fun e => valid (verdict e) && String.eqb (caller e) identifier) log).

(** What the map holds: for every identifier, the times at which it was
    allowed less than [windowMs] before it was last allowed. *)
Definition tracks (cfg : Config) (log : list Entry) (requests : Requests) : Prop :=
  forall identifier,
    default [] (requests !! identifier)
    = List.filter
        (fun t => List.last (allowedTimes identifier log) 0 - t <? windowMs cfg)
        (allowedTimes identifier log)
    /\ Z.of_nat (length (default [] (requests !! identifier)))
       <= Z.max 0 (maxRequests cfg).

End RateLimit.

(** ** Retrying with exponential backoff: [retry] in [src/lib/utils.ts] and
    [BaseAgent.retryWithBackoff], which differs by a line of log *)

Module Retry.

Local Open Scope Z_scope.

Section WithTypes.
Context {T E : Type}.

(** What a run does: the value returned or the error thrown ([None] for
    [undefined]), the number of calls of [fn], and the delays slept, in
    order. *)
Record Outcome := mkOutcome {
  result : option E + T;
  calls : nat;
  sleeps : list Z
}.

(** [fn] may answer differently from call to call: [fn k] is what its call
    number [k] does, counting from zero, [inl] for a rejection. *)
Variable fn : nat -> E + T.

(** [maxAttempts] and [delayMs], taken to be integers. *)
Variables (maxAttempts delayMs : Z).

(** The [for] loop from [attempt] on, with [rounds] iterations left
    ([attempt <= maxAttempts] holds for [maxAttempts - attempt + 1] more
    values). *)
Fixpoint attempts (rounds : nat) (attempt : Z) (called : nat)
    (lastError : option E) (slept : list Z) : Outcome :=
  match rounds with
  | O => mkOutcome (inl lastError) called slept
  | S rounds' =>
      match fn called with
      | inr value => mkOutcome (inr value) (S called) slept
      | inl error =>
          attempts rounds' (attempt + 1) (S called) (Some error)
            (if attempt <? maxAttempts
             then slept ++ [delayMs * 2 ^ (attempt - 1)]
             else slept)
      end
  end.

Definition retry : Outcome := attempts (Z.to_nat maxAttempts) 1 0 None [].

(** The delays before the retries number 1 to [n]. *)
Definition backoff (n : nat) : list Z :=
  List.map (fun i => delayMs * 2 ^ Z.of_nat i) (seq 0 n).

Definition total (delays : list Z) : Z := List.fold_right Z.add 0 delays.

End WithTypes.

Arguments Outcome : clear implicits.

End Retry.

(** ** Texts and arrays: more of [src/lib/utils.ts] *)

Module Text.

Local Open Scope Z_scope.

(** A string is its sequence of UTF-16 code units. *)
Abbreviation CodeUnit := N.

Definition dot : CodeUnit := 46%N.
Definition hyphen : CodeUnit := 45%N.
Definition underscore : CodeUnit := 95%N.

(** [text.slice(start, end)] for integers: a negative index counts from
    the end, and both are clamped to the text. *)
Definition slice (text : list CodeUnit) (start finish : Z) : list CodeUnit :=
  let len := Z.of_nat (length text) in
  let from := if start <? 0 then Z.max (len + start) 0 else Z.min start len in
  let to := if finish <? 0 then Z.max (len + finish) 0 else Z.min finish len in
  firstn (Z.to_nat (to - from)) (skipn (Z.to_nat from) text).

(** [truncate(text, maxLength)], [maxLength] an integer *)
Definition truncate (text : list CodeUnit) (maxLength : Z) : list CodeUnit :=
  if Z.of_nat (length text) <=? maxLength then text
  else slice text 0 (maxLength - 3) ++ [dot; dot; dot].

(** [unique(array) = Array.from(new Set(array))]: a [Set] keeps its
    elements in the order in which they were first added; its equality is
    taken to be the decidable equality of the element type. *)
Definition unique {A} `{EqDecision A} (array : list A) : list A :=
  List.fold_left (fun seen x => if bool_decide (x ∈ seen) then seen else seen ++ [x])
    array [].

(** *** [sanitizeFilename] *)

Definition between (lo hi c : CodeUnit) : bool := ((lo <=? c) && (c <=? hi))%N.

Definition isLower (c : CodeUnit) : bool := between 97 122 c.
Definition isUpper (c : CodeUnit) : bool := between 65 90 c.
Definition isDigit (c : CodeUnit) : bool := between 48 57 c.

(** The class [[a-z0-9.-]] under the flag [i]: without the flag [u] a
    code unit outside ASCII is never folded into ASCII, so the letters
    are those of ASCII in both cases. *)
Definition kept (c : CodeUnit) : bool :=
  isLower c || isUpper c || isDigit c || N.eqb c dot || N.eqb c hyphen.

(** [.replace(/[^a-z0-9.-]/gi, '_')] *)
Definition replaceOthers (s : list CodeUnit) : list CodeUnit :=
  List.map (fun c => if kept c then c else underscore) s.

(** [.replace(/_{2,}/g, '_')]: every run of underscores becomes one
    underscore.  [after] tells that the code unit before was one. *)
Fixpoint squeeze (after : bool) (s : list CodeUnit) : list CodeUnit :=
  match s with
  | [] => []
  | c :: s' =>
      if N.eqb c underscore
      then if after then squeeze true s' else underscore :: squeeze true s'
      else c :: squeeze false s'
  end.

(** [.toLowerCase()] on the code units that reach it, all of ASCII. *)
Definition lower (c : CodeUnit) : CodeUnit := if isUpper c then (c + 32)%N else c.

Definition toLowerCase (s : list CodeUnit) : list CodeUnit := List.map lower s.

Definition sanitizeFilename (filename : list CodeUnit) : list CodeUnit :=
  toLowerCase (squeeze false (replaceOthers filename)).

(** What a sanitized name is made of. *)
Definition safe (c : CodeUnit) : bool :=
  isLower c || isDigit c || N.eqb c dot || N.eqb c hyphen || N.eqb c underscore.

Fixpoint noRun (s : list CodeUnit) : bool :=
  match s with
  | c :: (c' :: _) as s' => negb (N.eqb c underscore && N.eqb c' underscore) && noRun s'
  | _ => true
  end.

End Text.

(** ** The task graph orchestrator: [src/agents/base/AgentOrchestrator.ts] *)

Module Orchestrator.

Import JsMap.

(** What a call can do: return, throw an [Error] with a message, or, in the
    model only, run out of fuel. *)
Inductive Res (A : Type) : Type :=
| Ok (a : A)
| Throw (message : string)
| OutOfFuel.
Arguments Ok {A} a.
Arguments Throw {A} message.
Arguments OutOfFuel {A}.

Section WithPayload.
(** [Task.input] and the output of an agent are [any] in the source. *)
Context {Payload Output : Type}.

(** [interface Task { id; type; input; dependencies? }] *)
Record Task := mkTask {
  id : string;
  type : string;
  input : Payload;
  dependencies : option (list string)
}.

(** [interface TaskResult]; [duration] is wall-clock time and is left out. *)
Record TaskResult := mkResult {
  taskId : string;
  success : bool;
  output : option Output;
  error : option string
}.

(** [interface OrchestrationResult], without [totalDuration]. *)
Record OrchestrationResult := mkOrch {
  orchSuccess : bool;
  results : list TaskResult;
  errors : list string
}.

(** What [prepareInput] hands to the agent: the task's input, and the
    [dependencies] field added to it when the task declares some. *)
Record AgentInput := mkAgentInput {
  own : Payload;
  dependencyOutputs : option (list (string * option Output))
}.

(** [agent.run(input, userId)]: [inl] is the message of the exception
    thrown, [inr] the output. *)
Local Abbreviation Agent := (AgentInput -> string + Output)%type.

(** *** [topologicalSort] *)

Record SortState := mkSort {
  sorted : list Task;
  visited : gset string;
  visiting : gset string
}.

(** [tasks.find(t => t.id === depId)] *)
Definition findTask (tasks : list Task) (depId : string) : option Task :=
  List.find (fun t => String.eqb (id t) depId) tasks.

Definition declared (task : Task) : list string :=
  match dependencies task with Some deps => deps | None => [] end.

(** [for (const depId of task.dependencies) { ... visit(depTask) ... }] *)
Fixpoint visitDeps (visit : Task -> SortState -> Res SortState)
    (tasks : list Task) (deps : list string) (st : SortState)
  : Res SortState :=
  match deps with
  | [] => Ok st
  | depId :: deps' =>
      match findTask tasks depId with
      | Some depTask =>
          match visit depTask st with
          | Ok st' => visitDeps visit tasks deps' st'
          | failure => failure
          end
      | None => visitDeps visit tasks deps' st
      end
  end.

(** The closure [visit]; the fuel bounds the depth of the recursion, and
    [topologicalSort_spec] shows that the fuel [topologicalSort] gives is
    never exhausted. *)
Fixpoint visit (fuel : nat) (tasks : list Task) (task : Task) (st : SortState)
  : Res SortState :=
  match fuel with
  | O => OutOfFuel
  | S fuel' =>
      if decide (id task ∈ visited st) then Ok st
      else if decide (id task ∈ visiting st) then
        Throw ("Circular dependency detected involving task " +:+ id task)
      else
        let st1 := mkSort (sorted st) (visited st) ({[id task]} ∪ visiting st) in
        match visitDeps (visit fuel' tasks) tasks (declared task) st1 with
        | Ok st2 =>
            Ok (mkSort (sorted st2 ++ [task])
                       ({[id task]} ∪ visited st2)
                       (visiting st2 ∖ {[id task]}))
        | failure => failure
        end
  end.

(** [for (const task of tasks) visit(task)] *)
Fixpoint visitAll (fuel : nat) (tasks todo : list Task) (st : SortState)
  : Res SortState :=
  match todo with
  | [] => Ok st
  | task :: todo' =>
      match visit fuel tasks task st with
      | Ok st' => visitAll fuel tasks todo' st'
      | failure => failure
      end
  end.

Definition topologicalSort (tasks : list Task) : Res (list Task) :=
  match visitAll (S (length tasks)) tasks tasks (mkSort [] ∅ ∅) with
  | Ok st => Ok (sorted st)
  | Throw m => Throw m
  | OutOfFuel => OutOfFuel
  end.

(** *** [execute] *)

(** The state of a run: the map [this.results], the array [errors], and
    the ids of the tasks whose agent has been run, in order. *)
Record RunState := mkRun {
  resultMap : list (string * TaskResult);
  errorList : list string;
  invoked : list string
}.

(** [task.dependencies.every(depId => { const result =
    this.results.get(depId); return result && result.success; })] *)
Definition dependenciesMet (rm : list (string * TaskResult)) (task : Task)
  : bool :=
  List.forallb
    (fun depId =>
       match omap_get rm depId with Some r => success r | None => false end)
    (declared task).

(** [prepareInput(task)] *)
Definition prepareInput (rm : list (string * TaskResult)) (task : Task)
  : AgentInput :=
  match dependencies task with
  | None | Some [] => mkAgentInput (input task) None
  | Some deps =>
      mkAgentInput (input task)
        (Some
           (List.fold_left
              (fun outs depId =>
                 match omap_get rm depId with
                 | Some r =>
                     if success r then omap_set outs depId (output r) else outs
                 | None => outs
                 end)
              deps []))
  end.

(** The [try] block of the loop body: the exception thrown or the output,
    and whether [agent.run] was called. *)
Definition attempt (agents : gmap string Agent)
    (rm : list (string * TaskResult)) (task : Task)
  : (string + Output) * bool :=
  if dependenciesMet rm task then
    match agents !! type task with
    | None => (inl ("No agent registered for type: " +:+ type task), false)
    | Some agent => (agent (prepareInput rm task), true)
    end
  else (inl ("Dependencies not satisfied for task " +:+ id task), false).

(** One iteration of [for (const task of sorted)]. *)
Definition runTask (agents : gmap string Agent) (s : RunState) (task : Task)
  : RunState :=
  let '(outcome, called) := attempt agents (resultMap s) task in
  let invoked' := if called then invoked s ++ [id task] else invoked s in
  match outcome with
  | inr out =>
      mkRun (omap_set (resultMap s) (id task)
               (mkResult (id task) true (Some out) None))
            (errorList s) invoked'
  | inl errorMessage =>
      mkRun (omap_set (resultMap s) (id task)
               (mkResult (id task) false None (Some errorMessage)))
            (errorList s ++ ["Task " +:+ id task +:+ ": " +:+ errorMessage])
            invoked'
  end.

Definition runTasks (agents : gmap string Agent) (order : list Task) : RunState :=
  List.fold_left (runTask agents) order (mkRun [] [] []).

(** What [execute] leaves behind: its completion, the map [this.results]
    afterwards, and the agent calls made. *)
Record Execution := mkExec {
  completion : Res OrchestrationResult;
  storedResults : list (string * TaskResult);
  agentCalls : list string
}.

(** [execute(userId)] on the queue [taskQueue].  [this.results] is cleared
    first; an exception of [topologicalSort] is not caught. *)
Definition execute (agents : gmap string Agent) (taskQueue : list Task)
  : Execution :=
  match topologicalSort taskQueue with
  | Ok order =>
      let s := runTasks agents order in
      mkExec
        (Ok (mkOrch (Nat.eqb (length (errorList s)) 0)
                    (List.map snd (resultMap s))
                    (errorList s)))
        (resultMap s) (invoked s)
  | Throw m => mkExec (Throw m) [] []
  | OutOfFuel => mkExec OutOfFuel [] []
  end.

End WithPayload.

Arguments Task : clear implicits.
Arguments TaskResult : clear implicits.
Arguments OrchestrationResult : clear implicits.
Arguments AgentInput : clear implicits.
Arguments SortState : clear implicits.
Arguments RunState : clear implicits.
Arguments Execution : clear implicits.

Abbreviation Agent Payload Output :=
  (AgentInput Payload Output -> string + Output)%type.

End Orchestrator.

(** ** Vocabulary of the orchestrator's properties *)

Module OrchestratorSpec.

Import Orchestrator.

Section WithPayload.
Context {Payload : Type}.

(** The task named [a] declares the dependency [b], and [b] names a task
    of the queue; a name stands for the first task of the queue that has
    it, as [tasks.find] does. *)
Definition dependsOn (tasks : list (Task Payload)) (a b : string) : Prop :=
  exists t, findTask tasks a = Some t
            /\ In b (declared t)
            /\ is_Some (findTask tasks b).

(** The dependency graph has a cycle. *)
Definition cyclic (tasks : list (Task Payload)) : Prop :=
  exists a, tc (dependsOn tasks) a a.

(** The message of the error [visit] throws at the task named [x]. *)
Definition circularMessage (x : string) : string :=
  "Circular dependency detected involving task " +:+ x.

(** In [later], read from the last task pushed back to the first, every
    task has its dependencies among the tasks pushed before it. *)
Fixpoint depsBefore (tasks later : list (Task Payload)) : Prop :=
  match later with
  | [] => True
  | t :: earlier =>
      (forall d, In d (declared t) -> is_Some (findTask tasks d) ->
                 In d (List.map id earlier))
      /\ depsBefore tasks earlier
  end.

(** What [topologicalSort] maintains between two calls of [visit]. *)
Record wellSorted (tasks : list (Task Payload)) (st : SortState Payload) : Prop :=
  mkWellSorted {
    ws_visited : visited st = list_to_set (List.map id (sorted st));
    ws_nodup : List.NoDup (List.map id (sorted st));
    ws_first : forall t, In t (sorted st) -> findTask tasks (id t) = Some t;
    ws_before : depsBefore tasks (rev (sorted st));
    ws_disjoint : visited st ## visiting st
  }.

(** What a call started in [st] owes: on return the invariant, the set
    [visiting] as it was, [visited] grown and holding [must]; an exception
    names a task on a cycle; the fuel is not exhausted. *)
Definition sortPost (tasks : list (Task Payload)) (st : SortState Payload)
    (must : list string) (r : Res (SortState Payload)) : Prop :=
  match r with
  | Ok st' =>
      wellSorted tasks st'
      /\ visiting st' = visiting st
      /\ visited st ⊆ visited st'
      /\ (forall d, In d must -> d ∈ visited st')
  | Throw m => exists x, m = circularMessage x /\ tc (dependsOn tasks) x x
  | OutOfFuel => False
  end.

(** The names of the queue. *)
Definition allIds (tasks : list (Task Payload)) : gset string :=
  list_to_set (List.map id tasks).

(** The result recorded for a task whose dependencies are not satisfied. *)
Definition dependencyFailure {Output : Type} (t : Task Payload)
  : TaskResult Output :=
  mkResult (id t) false None
    (Some ("Dependencies not satisfied for task " +:+ id t)).

(** The line [errors] holds for a failed result. *)
Definition errorLine {Output : Type} (r : TaskResult Output) : string :=
  "Task " +:+ taskId r +:+ ": "
  +:+ match error r with Some e => e | None => "" end.

Definition failed {Output : Type} (r : TaskResult Output) : bool :=
  negb (success r).

(** The record [runTask] stores for [t] when run in the state [s]. *)
Definition recorded {Output : Type} (agents : gmap string (Agent Payload Output))
    (s : RunState Output) (t : Task Payload) : TaskResult Output :=
  match fst (attempt agents (resultMap s) t) with
  | inr out => mkResult (id t) true (Some out) None
  | inl errorMessage => mkResult (id t) false None (Some errorMessage)
  end.

(** What the loop of [execute] maintains, [order] being the tasks done. *)
Record runInvariant {Output : Type} (order : list (Task Payload))
    (s : RunState Output) : Prop := mkRunInvariant {
  ri_keys : List.map fst (resultMap s) = List.map id order;
  ri_ids : List.map (fun e => taskId (snd e)) (resultMap s) = List.map id order;
  ri_errors :
    errorList s = List.map errorLine (List.filter failed (List.map snd (resultMap s)));
  ri_invoked : forall x, In x (invoked s) -> In x (List.map id order)
}.

End WithPayload.

End OrchestratorSpec.

(** ** The orchestrator as an object: the fields and the other methods of
    [AgentOrchestrator] *)

Module OrchestratorObject.

Import JsMap Orchestrator.

Section WithPayload.
Context {Payload Output : Type}.

(** [private agents], [private taskQueue], [private results] *)
Record Object := mkObject {
  agents : gmap string (Agent Payload Output);
  taskQueue : list (Task Payload);
  results : list (string * TaskResult Output)
}.

(** [new AgentOrchestrator()] *)
Definition create : Object := mkObject ∅ [] [].

(** [registerAgent(type, agent)] *)
Definition registerAgent (o : Object) (type : string)
    (agent : Agent Payload Output) : Object :=
  mkObject (<[type := agent]> (agents o)) (taskQueue o) (results o).

(** [addTask(task)] *)
Definition addTask (o : Object) (task : Task Payload) : Object :=
  mkObject (agents o) (taskQueue o ++ [task]) (results o).

(** [getTaskResult(taskId)] *)
Definition getTaskResult (o : Object) (taskId : string)
  : option (TaskResult Output) :=
  omap_get (results o) taskId.

(** [clear()] *)
Definition clear (o : Object) : Object := mkObject ∅ [] [].

(** [execute(userId)] as a method: the object afterwards, with the queue
    emptied by the [finally] block on every path, the completion, and the
    agent calls made. *)
Definition executeMethod (o : Object)
  : Object * Res (OrchestrationResult Output) * list string :=
  let e := execute (agents o) (taskQueue o) in
  (mkObject (agents o) [] (storedResults e), completion e, agentCalls e).

End WithPayload.

Arguments Object : clear implicits.

End OrchestratorObject.

(** * Properties *)

(** ** Rounding *)

Module MoneyFacts.

Import Money.
Local Open Scope Q_scope.

(** Linear arithmetic after a case split on every absolute value. *)
Ltac abs_lra :=
  repeat match goal with H : context [Qabs _] |- _ => revert H end;
  repeat (apply Qabs_case; intro);
  intros; lra.

Lemma pow10_pos d : 0 < pow10 d.
Proof.
  unfold pow10. change 0 with (inject_Z 0). rewrite <- Zlt_Qlt.
  apply Z.pow_pos_nonneg; lia.
Qed.

Lemma pow10_nonzero d : ~ pow10 d == 0.
Proof. intros H. pose proof (pow10_pos d) as Hp. rewrite H in Hp. inversion Hp. Qed.

Lemma roundTo_eq v d :
  roundTo v d == inject_Z (Math_round (v * pow10 d)) / pow10 d.
Proof. unfold roundTo. apply Qred_correct. Qed.

Lemma roundTo_scaled v d :
  roundTo v d * pow10 d == inject_Z (Math_round (v * pow10 d)).
Proof. rewrite roundTo_eq. field. apply pow10_nonzero. Qed.

Lemma Math_round_bounds x :
  x - (1 # 2) < inject_Z (Math_round x) /\ inject_Z (Math_round x) <= x + (1 # 2).
Proof.
  unfold Math_round. split.
  - pose proof (Qlt_floor (x + (1 # 2))) as H.
    rewrite inject_Z_plus in H. change (inject_Z 1) with 1 in H.
    generalize dependent (inject_Z (Qfloor (x + (1 # 2)))). intros z Hz. lra.
  - apply Qfloor_le.
Qed.

Lemma Math_round_mono x y : x <= y -> (Math_round x <= Math_round y)%Z.
Proof. intros H. unfold Math_round. apply Qfloor_resp_le. lra. Qed.

Lemma Math_round_Z k : Math_round (inject_Z k) = k.
Proof.
  unfold Math_round.
  pose proof (Qfloor_le (inject_Z k + (1 # 2))) as Hl.
  pose proof (Qlt_floor (inject_Z k + (1 # 2))) as Hu.
  set (z := Qfloor (inject_Z k + (1 # 2))) in *. clearbody z.
  rewrite inject_Z_plus in Hu. change (inject_Z 1) with 1 in Hu.
  assert (H1 : inject_Z z < inject_Z (k + 1)).
  { rewrite inject_Z_plus. change (inject_Z 1) with 1. lra. }
  assert (H2 : inject_Z k < inject_Z (z + 1)).
  { rewrite inject_Z_plus. change (inject_Z 1) with 1. lra. }
  rewrite <- Zlt_Qlt in H1, H2. lia.
Qed.

(** Equal numbers round to the same term. *)
Lemma roundTo_ext v w d : v == w -> roundTo v d = roundTo w d.
Proof.
  intros H. unfold roundTo. apply Qred_complete.
  unfold Math_round. rewrite H. reflexivity.
Qed.

Lemma roundTo_mono v w d : v <= w -> roundTo v d <= roundTo w d.
Proof.
  intros H. rewrite !roundTo_eq.
  pose proof (pow10_pos d) as Hp.
  apply Qmult_le_compat_r.
  - rewrite <- Zle_Qle. apply Math_round_mono.
    apply Qmult_le_compat_r; [exact H | lra].
  - apply Qlt_le_weak, Qinv_lt_0_compat, Hp.
Qed.


Lemma roundTo2_close v : Qabs (roundTo v 2 - v) <= 1 # 200.
Proof.
  pose proof (roundTo_scaled v 2) as Hs.
  pose proof (Math_round_bounds (v * pow10 2)) as [Hl Hu].
  rewrite <- Hs in Hl, Hu. change (pow10 2) with 100 in *.
  generalize dependent (roundTo v 2). intros r _ Hl Hu. abs_lra.
Qed.

(** Whole numbers of cents, with the division moved to the other side. *)
Lemma wholeCents_scaled v : wholeCents v <-> exists k : Z, v * 100 == inject_Z k.
Proof.
  unfold wholeCents. split; intros [k Hk]; exists k.
  - rewrite Hk. field.
  - rewrite <- Hk. field.
Qed.

(** A whole number of cents is left alone by [roundTo _ 2]. *)
Lemma roundTo2_wholeCents v : wholeCents v -> roundTo v 2 == v.
Proof.
  intros [k Hk]. rewrite roundTo_eq. change (pow10 2) with 100.
  assert (Hv : v * 100 == inject_Z k) by (rewrite Hk; field).
  unfold Math_round. rewrite Hv. fold (Math_round (inject_Z k)).
  rewrite Math_round_Z, Hk. reflexivity.
Qed.

Lemma roundTo2_is_wholeCents v : wholeCents (roundTo v 2).
Proof. exists (Math_round (v * pow10 2)). apply roundTo_eq. Qed.

Lemma wholeCents_0 : wholeCents 0.
Proof. exists 0%Z. reflexivity. Qed.

Lemma wholeCents_plus v w : wholeCents v -> wholeCents w -> wholeCents (v + w).
Proof.
  rewrite !wholeCents_scaled. intros [k Hk] [l Hl]. exists (k + l)%Z.
  rewrite inject_Z_plus, <- Hk, <- Hl. ring.
Qed.

Lemma wholeCents_opp v : wholeCents v -> wholeCents (- v).
Proof.
  rewrite !wholeCents_scaled. intros [k Hk]. exists (- k)%Z.
  rewrite inject_Z_opp, <- Hk. ring.
Qed.

Lemma wholeCents_minus v w : wholeCents v -> wholeCents w -> wholeCents (v - w).
Proof. intros Hv Hw. apply wholeCents_plus; [exact Hv | apply wholeCents_opp, Hw]. Qed.

(** A positive whole number of cents is at least one cent. *)
Lemma wholeCents_pos v : wholeCents v -> 0 < v -> cent <= v.
Proof.
  rewrite wholeCents_scaled. intros [k Hk] Hpos. unfold cent.
  assert (Hk0 : inject_Z 0 < inject_Z k).
  { rewrite <- Hk. change (inject_Z 0) with 0. lra. }
  rewrite <- Zlt_Qlt in Hk0.
  assert (Hk1 : inject_Z 1 <= inject_Z k) by (rewrite <- Zle_Qle; lia).
  change (inject_Z 1) with 1 in Hk1. rewrite <- Hk in Hk1. lra.
Qed.

(** [sumQ] unfolds from the left as a sum does. *)
Lemma fold_left_Qplus l a : fold_left Qplus l a == a + sumQ l.
Proof.
  unfold sumQ. revert a. induction l as [|x l IH]; intros a; simpl.
  - lra.
  - rewrite IH, (IH (0 + x)). lra.
Qed.

Lemma sumQ_cons x l : sumQ (x :: l) == x + sumQ l.
Proof. unfold sumQ at 1. simpl. rewrite fold_left_Qplus. lra. Qed.

Lemma sumQ_nil : sumQ [] == 0.
Proof. reflexivity. Qed.

(** Boolean comparisons against their propositions. *)
Lemma isZero_true x : isZero x = true <-> x == 0.
Proof. unfold isZero. apply Qeq_bool_iff. Qed.

Lemma isZero_false x : isZero x = false <-> ~ x == 0.
Proof.
  unfold isZero. split.
  - intros H E. apply Qeq_bool_iff in E. congruence.
  - intros H. destruct (Qeq_bool x 0) eqn:E; [|reflexivity].
    apply Qeq_bool_iff in E. contradiction.
Qed.

Lemma geb_true x y : geb x y = true <-> y <= x.
Proof. unfold geb. apply Qle_bool_iff. Qed.

Lemma geb_false x y : geb x y = false <-> x < y.
Proof.
  unfold geb. split.
  - intros H. apply Qnot_le_lt. intros L. apply Qle_bool_iff in L. congruence.
  - intros H. destruct (Qle_bool y x) eqn:E; [|reflexivity].
    apply Qle_bool_iff in E. lra.
Qed.

Lemma gtb_true x y : gtb x y = true <-> y < x.
Proof.
  unfold gtb. rewrite negb_true_iff. split.
  - intros H. apply Qnot_le_lt. intros L. apply Qle_bool_iff in L. congruence.
  - intros H. destruct (Qle_bool x y) eqn:E; [|reflexivity].
    apply Qle_bool_iff in E. lra.
Qed.

Lemma gtb_false x y : gtb x y = false <-> x <= y.
Proof. unfold gtb. rewrite negb_false_iff. apply Qle_bool_iff. Qed.

Lemma ltb_true x y : ltb x y = true <-> x < y.
Proof. unfold ltb. apply (gtb_true y x). Qed.

Lemma ltb_false x y : ltb x y = false <-> y <= x.
Proof. unfold ltb. apply (gtb_false y x). Qed.

Lemma Math_min_cases x y :
  (x <= y /\ Math_min x y = x) \/ (y < x /\ Math_min x y = y).
Proof.
  unfold Math_min. destruct (Qle_bool x y) eqn:E.
  - left. split; [apply Qle_bool_iff, E | reflexivity].
  - right. split; [|reflexivity].
    apply Qnot_le_lt. intros L. apply Qle_bool_iff in L. congruence.
Qed.

End MoneyFacts.

(** ** Insertion-ordered maps *)

Module JsMapFacts.

Import JsMap.

Section OrderedMaps.
Context {V : Type}.
Implicit Types (m : list (string * V)).

Lemma omap_get_none m k : omap_get m k = None <-> ~ In k (List.map fst m).
Proof.
  induction m as [|[k' v] m IH]; simpl; [tauto|].
  destruct (String.eqb k' k) eqn:E.
  - apply String.eqb_eq in E. split; [discriminate | intros H; exfalso; auto].
  - apply String.eqb_neq in E. rewrite IH. tauto.
Qed.

Lemma omap_get_app m m' k :
  omap_get (m ++ m') k
  = match omap_get m k with Some v => Some v | None => omap_get m' k end.
Proof.
  induction m as [|[k' v] m IH]; simpl; [reflexivity|].
  destruct (String.eqb k' k); [reflexivity | exact IH].
Qed.

(** Assigning to an absent key appends it. *)
Lemma omap_set_fresh m k v :
  ~ In k (List.map fst m) -> omap_set m k v = m ++ [(k, v)].
Proof.
  induction m as [|[k' v'] m IH]; simpl; intros H; [reflexivity|].
  destruct (String.eqb k' k) eqn:E.
  - apply String.eqb_eq in E. exfalso. auto.
  - rewrite IH by auto. reflexivity.
Qed.

Lemma omap_get_last m k v k' :
  ~ In k (List.map fst m) ->
  omap_get (m ++ [(k, v)]) k'
  = if String.eqb k k' then Some v else omap_get m k'.
Proof.
  intros Hfresh. rewrite omap_get_app. simpl.
  destruct (String.eqb k k') eqn:E.
  - apply String.eqb_eq in E. subst k'.
    apply omap_get_none in Hfresh. rewrite Hfresh. reflexivity.
  - destruct (omap_get m k'); reflexivity.
Qed.

(** Reading after writing. *)
Lemma omap_get_set m k v k' :
  omap_get (omap_set m k v) k'
  = if String.eqb k k' then Some v else omap_get m k'.
Proof.
  induction m as [|[k0 v0] m IH]; simpl.
  - destruct (String.eqb k k'); reflexivity.
  - destruct (String.eqb k0 k) eqn:E0; simpl.
    + apply String.eqb_eq in E0. subst k0.
      destruct (String.eqb k k'); reflexivity.
    + rewrite IH. destruct (String.eqb k0 k') eqn:E1; [|reflexivity].
      destruct (String.eqb k k') eqn:E2; [|reflexivity].
      apply String.eqb_eq in E1, E2. subst k0 k'.
      rewrite String.eqb_refl in E0. discriminate.
Qed.

(** Writing keeps the keys distinct. *)
Lemma omap_set_keys m k v :
  List.NoDup (List.map fst m) -> List.NoDup (List.map fst (omap_set m k v)).
Proof.
  induction m as [|[k0 v0] m IH]; simpl; intros H.
  - constructor; [intros []|constructor].
  - destruct (String.eqb k0 k) eqn:E; simpl; [exact H|].
    apply List.NoDup_cons_iff in H as [Hfresh H].
    constructor; [|apply IH, H].
    intros Hin. apply Hfresh.
    clear IH H Hfresh. induction m as [|[k1 v1] m IH]; simpl in *.
    + destruct Hin as [->|[]]. rewrite String.eqb_refl in E. discriminate.
    + destruct (String.eqb k1 k); simpl in Hin; [exact Hin|].
      destruct Hin as [->|Hin]; [left; reflexivity | right; apply IH, Hin].
Qed.

End OrderedMaps.

End JsMapFacts.

(** ** Sums over lists *)

Module SumFacts.

Import Money MoneyFacts.
Local Open Scope Q_scope.

Lemma sumOver_ext {A} (f g : A -> Q) l :
  (forall x, In x l -> f x == g x) -> sumOver f l == sumOver g l.
Proof.
  induction l as [|x l IH]; intros H; simpl; [reflexivity|].
  rewrite (H x) by (left; reflexivity).
  rewrite IH by (intros y Hy; apply H; right; exact Hy). reflexivity.
Qed.


Lemma sumOver_nonneg {A} (f : A -> Q) l :
  (forall x, In x l -> 0 <= f x) -> 0 <= sumOver f l.
Proof.
  induction l as [|x l IH]; intros H; simpl; [lra|].
  pose proof (H x (or_introl eq_refl)).
  assert (0 <= sumOver f l) by (apply IH; intros y Hy; apply H; right; exact Hy).
  lra.
Qed.

Lemma sumOver_plus {A} (f g : A -> Q) l :
  sumOver (fun x => f x + g x) l == sumOver f l + sumOver g l.
Proof. induction l as [|x l IH]; simpl; [|rewrite IH]; lra. Qed.

Lemma sumOver_scale {A} c (f : A -> Q) l :
  sumOver (fun x => c * f x) l == c * sumOver f l.
Proof. induction l as [|x l IH]; simpl; [|rewrite IH]; ring. Qed.

Lemma sumOver_const {A} c (l : list A) :
  sumOver (fun _ => c) l == inject_Z (Z.of_nat (length l)) * c.
Proof.
  induction l as [|x l IH]; [simpl; ring|].
  cbn [sumOver length]. rewrite IH, Nat2Z.inj_succ. unfold Z.succ.
  rewrite inject_Z_plus. change (inject_Z 1) with 1. ring.
Qed.

Lemma sumOver_zero {A} (f : A -> Q) l :
  (forall x, In x l -> f x == 0) -> sumOver f l == 0.
Proof.
  intros H. rewrite (sumOver_ext f (fun _ => 0)) by exact H.
  rewrite sumOver_const. ring.
Qed.

Lemma sumOver_app {A} (f : A -> Q) l1 l2 :
  sumOver f (l1 ++ l2) == sumOver f l1 + sumOver f l2.
Proof. induction l1 as [|x l1 IH]; simpl; [|rewrite IH]; lra. Qed.

Lemma sumOver_map {A B} (g : A -> B) (f : B -> Q) l :
  sumOver f (List.map g l) = sumOver (fun x => f (g x)) l.
Proof. induction l as [|x l IH]; simpl; [|rewrite IH]; reflexivity. Qed.

Lemma sumOver_filter {A} (p : A -> bool) (f : A -> Q) l :
  sumOver f (List.filter p l) == sumOver (fun x => if p x then f x else 0) l.
Proof.
  induction l as [|x l IH]; simpl; [reflexivity|].
  destruct (p x); simpl; rewrite IH; lra.
Qed.

Lemma sumOver_perm {A} (f : A -> Q) l l' :
  l ≡ₚ l' -> sumOver f l == sumOver f l'.
Proof.
  induction 1 as [|x l l' _ IH|x y l|l l' l'' _ IH1 _ IH2]; simpl.
  - reflexivity.
  - rewrite IH. reflexivity.
  - lra.
  - rewrite IH1. exact IH2.
Qed.

(** A loop that adds [f x] for each [x] computes the sum. *)
Lemma fold_left_sumOver {A} (step : Q -> A -> Q) (f : A -> Q) l a :
  (forall acc x, In x l -> step acc x == acc + f x) ->
  List.fold_left step l a == a + sumOver f l.
Proof.
  revert a. induction l as [|x l IH]; intros a H; simpl; [lra|].
  rewrite IH by (intros acc y Hy; apply H; right; exact Hy).
  rewrite (H a x) by (left; reflexivity). lra.
Qed.

Lemma sumQ_sumOver l : sumQ l == sumOver (fun x => x) l.
Proof.
  unfold sumQ. rewrite (fold_left_sumOver Qplus (fun x => x)).
  - lra.
  - intros. reflexivity.
Qed.

End SumFacts.

(** ** The key order of plain objects *)

Module ObjectOrderFacts.

Import JsMap JsMapFacts.

Section Order.
Context {A : Type} (keyOf : A -> string).

Lemma insertByIndex_perm x l : insertByIndex keyOf x l ≡ₚ x :: l.
Proof.
  induction l as [|y l IH]; cbn [insertByIndex]; [reflexivity|].
  destruct (_ <? _)%N; [reflexivity|].
  rewrite IH. apply Permutation_swap.
Qed.

Lemma sortByIndex_perm l : List.fold_right (insertByIndex keyOf) [] l ≡ₚ l.
Proof.
  induction l as [|x l IH]; cbn [List.fold_right]; [reflexivity|].
  rewrite insertByIndex_perm, IH. reflexivity.
Qed.

Lemma filter_split_perm (f : A -> bool) l :
  List.filter f l ++ List.filter (fun x => negb (f x)) l ≡ₚ l.
Proof.
  induction l as [|x l IH]; cbn [List.filter]; [reflexivity|].
  destruct (f x); cbn [negb app].
  - rewrite IH. reflexivity.
  - rewrite <- Permutation_middle, IH. reflexivity.
Qed.

(** [objectOrder] only reorders. *)
Lemma objectOrder_perm l : objectOrder keyOf l ≡ₚ l.
Proof.
  unfold objectOrder. rewrite sortByIndex_perm. apply filter_split_perm.
Qed.


End Order.

(** The order depends on the keys only. *)
Lemma objectOrder_map {A B} (keyA : A -> string) (keyB : B -> string)
    (f : A -> B) l :
  (forall x, keyB (f x) = keyA x) ->
  List.map f (objectOrder keyA l) = objectOrder keyB (List.map f l).
Proof.
  intros Hkey. unfold objectOrder. rewrite List.map_app. f_equal.
  - assert (Hinsert : forall x s,
              List.map f (insertByIndex keyA x s)
              = insertByIndex keyB (f x) (List.map f s)).
    { intros x s. induction s as [|y s IH]; cbn [insertByIndex List.map]; [reflexivity|].
      unfold indexOf. rewrite !Hkey.
      destruct (_ <? _)%N; cbn [List.map]; [reflexivity|]. rewrite IH. reflexivity. }
    induction l as [|x l IH]; cbn [List.filter List.map]; [reflexivity|].
    rewrite Hkey. destruct (isArrayIndex (keyA x)); cbn [List.fold_right List.map].
    + rewrite Hinsert, IH. reflexivity.
    + exact IH.
  - induction l as [|x l IH]; cbn [List.filter List.map]; [reflexivity|].
    rewrite Hkey. destruct (isArrayIndex (keyA x)); cbn [negb List.map].
    + exact IH.
    + rewrite IH. reflexivity.
Qed.

Lemma objectEntries_keys {V} (o : list (string * V)) :
  List.map fst (objectEntries o) = objectKeys (List.map fst o).
Proof. apply (objectOrder_map fst (fun k => k) fst). reflexivity. Qed.


Lemma omap_get_entry {V} (m : list (string * V)) k :
  List.NoDup (List.map fst m) ->
  forall v, omap_get m k = Some v <-> In (k, v) m.
Proof.
  intros Hnodup v. split.
  - induction m as [|[k' v'] m IH]; cbn [omap_get]; [discriminate|].
    apply List.NoDup_cons_iff in Hnodup as [_ Hnodup].
    destruct (String.eqb k' k) eqn:Heq.
    + apply String.eqb_eq in Heq as ->. intros [= ->]. left. reflexivity.
    + intros Hget. right. apply IH; assumption.
  - induction m as [|[k' v'] m IH]; cbn [omap_get List.map fst In] in *; [intros []|].
    apply List.NoDup_cons_iff in Hnodup as [Hfresh Hnodup].
    intros [[= -> ->]|Hin].
    + rewrite String.eqb_refl. reflexivity.
    + destruct (String.eqb k' k) eqn:Heq; [|apply IH; assumption].
      apply String.eqb_eq in Heq as ->. exfalso. apply Hfresh.
      apply (List.in_map fst) in Hin. exact Hin.
Qed.

(** Reading a property does not depend on the order of the keys. *)
Lemma objectEntries_get {V} (o : list (string * V)) k :
  List.NoDup (List.map fst o) -> omap_get (objectEntries o) k = omap_get o k.
Proof.
  intros Hnodup.
  assert (Hperm : objectEntries o ≡ₚ o) by apply objectOrder_perm.
  assert (Hnodup' : List.NoDup (List.map fst (objectEntries o))).
  { apply NoDup_ListNoDup. rewrite Hperm. apply NoDup_ListNoDup, Hnodup. }
  destruct (omap_get o k) as [v|] eqn:Hget.
  - apply (omap_get_entry _ _ Hnodup'). apply (omap_get_entry _ _ Hnodup) in Hget.
    apply list_elem_of_In. rewrite Hperm. apply list_elem_of_In, Hget.
  - apply omap_get_none. apply omap_get_none in Hget. intros Hin. apply Hget.
    apply list_elem_of_In. rewrite <- Hperm. apply list_elem_of_In, Hin.
Qed.

End ObjectOrderFacts.

(** ** How far [roundTo] moves a value *)

Module RoundingLemmas.

Import Money MoneyFacts.
Local Open Scope Q_scope.

Lemma Math_round_ext x y : x == y -> Math_round x = Math_round y.
Proof. intros Hxy. unfold Math_round. rewrite Hxy. reflexivity. Qed.




End RoundingLemmas.
Module NetPositionFacts.

Import Money MoneyFacts JsMap DebtOptimizer.
Local Open Scope Q_scope.



(** Writing [v] under [k] replaces the old value of [k], or [0], in the sum. *)
Lemma omap_set_sum m k v :
  sumQ (List.map snd (omap_set m k v)) == sumQ (List.map snd m) - getOr0 m k + v.
Proof.
  unfold getOr0. induction m as [|[k' v'] m IH]; simpl.
  - rewrite sumQ_cons, sumQ_nil. lra.
  - destruct (String.eqb k' k); simpl.
    + rewrite !sumQ_cons. simpl. lra.
    + rewrite !sumQ_cons, IH. simpl. lra.
Qed.

Lemma addDebt_sum m d :
  sumQ (List.map snd (addDebt m d)) == sumQ (List.map snd m).
Proof. unfold addDebt. rewrite !omap_set_sum. lra. Qed.

Lemma accumulate_sum_from ds m :
  sumQ (List.map snd (List.fold_left addDebt ds m)) == sumQ (List.map snd m).
Proof.
  revert m. induction ds as [|d ds IH]; intros m; simpl.
  - reflexivity.
  - rewrite IH. apply addDebt_sum.
Qed.

End NetPositionFacts.
Module MatchingFacts.

Import Money MoneyFacts DebtOptimizer.
Local Open Scope Q_scope.

Ltac case_goal_isZero :=
  match goal with |- context [isZero ?x] => destruct (isZero x) end.

Lemma roundTo_self_minus x : isZero (roundTo (x - x) 2) = true.
Proof.
  rewrite (roundTo_ext (x - x) 0 2) by lra. reflexivity.
Qed.

(** One of the two balances is settled by every iteration. *)
Lemma settled_one c d :
  isZero (roundTo (c - Math_min c d) 2) = true
  \/ isZero (roundTo (d - Math_min c d) 2) = true.
Proof.
  destruct (Math_min_cases c d) as [[_ ->]|[_ ->]];
    [left | right]; apply roundTo_self_minus.
Qed.

Lemma insertDesc_length {A} (key : A -> Q) x l :
  length (insertDesc key x l) = S (length l).
Proof.
  induction l as [|y l IH]; simpl; [reflexivity|].
  destruct (ltb (key x) (key y)); simpl; [rewrite IH|]; reflexivity.
Qed.

Lemma sortDesc_length {A} (key : A -> Q) l :
  length (sortDesc key l) = length l.
Proof.
  induction l as [|x l IH]; simpl; [reflexivity|].
  rewrite insertDesc_length, IH. reflexivity.
Qed.

Lemma insertDesc_perm {A} (key : A -> Q) x l : insertDesc key x l ≡ₚ x :: l.
Proof.
  induction l as [|y l IH]; simpl; [reflexivity|].
  destruct (ltb (key x) (key y)); [|reflexivity].
  rewrite IH. apply Permutation_swap.
Qed.

Lemma sortDesc_perm {A} (key : A -> Q) l : sortDesc key l ≡ₚ l.
Proof.
  induction l as [|x l IH]; simpl; [reflexivity|].
  rewrite insertDesc_perm, IH. reflexivity.
Qed.

(** The loop returns once the fuel covers both arrays. *)
Lemma matchLoop_returns fuel h cs ds txs :
  (length cs + length ds <= fuel)%nat ->
  Forall (fun r => is_Some (h !! r)) cs ->
  exists h' txs', matchLoop fuel h cs ds txs = Some (h', txs').
Proof.
  revert h cs ds txs.
  induction fuel as [|fuel IH]; intros h cs ds txs Hfuel Hrefs.
  - destruct cs as [|r cs]; [simpl; eauto|].
    destruct ds as [|d ds]; [simpl; eauto|]. simpl in Hfuel. lia.
  - destruct cs as [|r cs]; [simpl; eauto|].
    destruct ds as [|d ds]; [simpl; eauto|].
    pose proof (Forall_inv Hrefs) as [creditor Hr].
    pose proof (Forall_inv_tail Hrefs) as Hrefs'.
    cbn [matchLoop]. rewrite Hr. cbv zeta.
    assert (Hkeep : forall l, Forall (fun r0 => is_Some (h !! r0)) l ->
      Forall (fun r0 => is_Some
        (<[r := mkNP (person creditor)
                 (roundTo (balance creditor - Math_min (balance creditor) (balance d)) 2)]> h
         !! r0)) l).
    { intros l Hl. eapply Forall_impl; [exact Hl|]. intros r0 Hr0.
      apply lookup_lt_is_Some_2. rewrite length_insert.
      apply lookup_lt_is_Some_1, Hr0. }
    simpl in Hfuel.
    destruct (settled_one (balance creditor) (balance d)) as [Hz|Hz]; rewrite Hz.
    + apply IH; [|apply Hkeep, Hrefs'].
      case_goal_isZero; simpl; lia.
    + case_goal_isZero.
      * apply IH; [lia | apply Hkeep, Hrefs'].
      * apply IH; [simpl; lia | apply Hkeep, Hrefs].
Qed.

(** Every iteration pushes at most one transaction and advances a pointer. *)
Lemma matchLoop_count fuel h cs ds txs h' txs' :
  matchLoop fuel h cs ds txs = Some (h', txs') ->
  (length txs' <= length txs + (length cs + length ds - 1))%nat.
Proof.
  revert h cs ds txs.
  induction fuel as [|fuel IH]; intros h cs ds txs Hrun.
  - destruct cs as [|r cs]; [simpl in Hrun; injection Hrun as _ <-; lia|].
    destruct ds as [|d ds]; [simpl in Hrun; injection Hrun as _ <-; lia|].
    discriminate.
  - destruct cs as [|r cs]; [simpl in Hrun; injection Hrun as _ <-; lia|].
    destruct ds as [|d ds]; [simpl in Hrun; injection Hrun as _ <-; lia|].
    cbn [matchLoop] in Hrun.
    destruct (h !! r) as [creditor|]; [|discriminate]. cbv zeta in Hrun.
    apply IH in Hrun.
    assert (Hpush : (length
      (if geb (Math_min (balance creditor) (balance d)) cent
       then txs ++ [mkDebt (person d) (person creditor)
                      (roundTo (Math_min (balance creditor) (balance d)) 2)]
       else txs) <= length txs + 1)%nat).
    { destruct (geb _ _); [rewrite length_app; simpl|]; lia. }
    destruct (settled_one (balance creditor) (balance d)) as [Hz|Hz];
      rewrite Hz in Hrun;
      match type of Hrun with context [isZero ?x] => destruct (isZero x) end;
      simpl in *; lia.
Qed.

(** Every transaction pushed is of one cent or more. *)
Lemma matchLoop_amounts fuel h cs ds txs h' txs' :
  matchLoop fuel h cs ds txs = Some (h', txs') ->
  Forall (fun t => cent <= amount t) txs ->
  Forall (fun t => cent <= amount t) txs'.
Proof.
  revert h cs ds txs.
  induction fuel as [|fuel IH]; intros h cs ds txs Hrun Htxs.
  - destruct cs as [|r cs]; [simpl in Hrun; injection Hrun as _ <-; exact Htxs|].
    destruct ds as [|d ds]; [simpl in Hrun; injection Hrun as _ <-; exact Htxs|].
    discriminate.
  - destruct cs as [|r cs]; [simpl in Hrun; injection Hrun as _ <-; exact Htxs|].
    destruct ds as [|d ds]; [simpl in Hrun; injection Hrun as _ <-; exact Htxs|].
    cbn [matchLoop] in Hrun.
    destruct (h !! r) as [creditor|]; [|discriminate]. cbv zeta in Hrun.
    apply IH in Hrun; [exact Hrun|].
    destruct (geb _ cent) eqn:Hge; [|exact Htxs].
    apply Forall_app. split; [exact Htxs|].
    constructor; [|constructor]. cbn [amount].
    apply geb_true in Hge.
    change cent with (roundTo cent 2). apply roundTo_mono, Hge.
Qed.

End MatchingFacts.
Module SettlementFacts.

Import Money MoneyFacts DebtOptimizer MatchingFacts.
Local Open Scope Q_scope.

(** The references [0 .. length h - 1] read the heap in order. *)
Lemma heap_refs (h : Heap) :
  List.map (fun r => h !! r) (seq 0 (length h)) = List.map Some h.
Proof.
  induction h as [|np h IH] using rev_ind; [reflexivity|].
  rewrite length_app, Nat.add_comm. cbn [length Nat.add].
  rewrite seq_S, !List.map_app. cbn [List.map Nat.add].
  rewrite list_lookup_middle by reflexivity. f_equal.
  rewrite <- IH. apply List.map_ext_in.
  intros r Hr. apply in_seq in Hr. apply lookup_app_l. lia.
Qed.

Lemma refs_valid (h : Heap) : Forall (fun r => is_Some (h !! r)) (seq 0 (length h)).
Proof.
  apply List.Forall_forall. intros r Hr. apply in_seq in Hr.
  apply lookup_lt_is_Some_2. lia.
Qed.

Lemma filter_length_map {A B} (g : A -> B) (f : B -> bool) l :
  length (List.filter (fun x => f (g x)) l) = length (List.filter f (List.map g l)).
Proof.
  induction l as [|x l IH]; simpl; [reflexivity|].
  destruct (f (g x)); simpl; rewrite IH; reflexivity.
Qed.

(** Counting references by their balance is counting positions. *)
Lemma count_refs (h : Heap) (P : Q -> bool) :
  length (List.filter (fun r => P (balanceAt h r)) (seq 0 (length h)))
  = length (List.filter (fun np => P (balance np)) h).
Proof.
  unfold balanceAt.
  rewrite (filter_length_map (fun r => h !! r)
             (fun o => P (match o with Some np => balance np | None => 0 end))).
  rewrite heap_refs.
  rewrite <- (filter_length_map Some
             (fun o => P (match o with Some np => balance np | None => 0 end))).
  reflexivity.
Qed.

(** Creditors and debtors are disjoint parts of the positions kept. *)
Lemma split_length {A} (f g k : A -> bool) l :
  (forall x, f x = true -> k x = true) ->
  (forall x, g x = true -> k x = true) ->
  (forall x, f x = true -> g x = false) ->
  (length (List.filter f l) + length (List.filter g l)
   <= length (List.filter k l))%nat.
Proof.
  intros Hf Hg Hfg. induction l as [|x l IH]; simpl; [lia|].
  destruct (f x) eqn:Ef, (g x) eqn:Eg.
  - rewrite (Hfg x Ef) in Eg. discriminate.
  - rewrite (Hf x Ef). simpl. lia.
  - rewrite (Hg x Eg). simpl. lia.
  - destruct (k x); simpl; lia.
Qed.

Lemma filter_sub_length {A} (f g : A -> bool) l :
  (length (List.filter f (List.filter g l)) <= length (List.filter f l))%nat.
Proof.
  induction l as [|x l IH]; simpl; [lia|].
  destruct (g x); simpl; destruct (f x); simpl; lia.
Qed.

Lemma Forall_filter_keep {A} (P : A -> Prop) (f : A -> bool) l :
  Forall P l -> Forall P (List.filter f l).
Proof.
  rewrite !List.Forall_forall. intros H x Hx.
  apply List.filter_In in Hx. apply H, Hx.
Qed.

(** [optimizeDebts] returns on every array of valid references. *)
Lemma optimizeDebts_returns (h : Heap) refs :
  Forall (fun r => is_Some (h !! r)) refs ->
  exists h' txs, optimizeDebts h refs = Some (h', txs).
Proof.
  intros Hrefs. unfold optimizeDebts. apply matchLoop_returns; [lia|].
  rewrite sortDesc_perm. apply Forall_filter_keep, Hrefs.
Qed.

Lemma optimizeDebts_count (h : Heap) refs h' txs :
  optimizeDebts h refs = Some (h', txs) ->
  (length txs
   <= length (List.filter (fun r => gtb (balanceAt h r) 0) refs)
      + length (List.filter (fun r => ltb (balanceAt h r) 0) refs) - 1)%nat.
Proof.
  unfold optimizeDebts. intros Hrun. apply matchLoop_count in Hrun.
  rewrite !sortDesc_length, length_map in Hrun. simpl in Hrun. exact Hrun.
Qed.

(** [execute] returns on every input. *)
Lemma execute_returns input : exists out, execute input = Some out.
Proof.
  unfold execute. destruct (Nat.eqb _ 0); [eauto|].
  match goal with |- context [optimizeDebts ?h ?refs] =>
    destruct (optimizeDebts_returns h refs) as (h' & txs & ->)
  end; [|eauto].
  apply Forall_filter_keep, refs_valid.
Qed.

(** C4.  [execute] returns, and the number of transactions it reports is
    at most [max(0, n - 1)], where [n] counts the parties whose rounded net
    balance is not zero. *)
Theorem transaction_bound (input : DebtOptimizeInput) :
  exists out,
    execute input = Some out
    /\ (optimizedTransactions out
        <= Z.max 0 (Z.of_nat (partiesWithNonZeroBalance (debts input)) - 1))%Z.
Proof.
  destruct (execute_returns input) as [out Hout]. exists out.
  split; [exact Hout|]. revert Hout. unfold execute.
  destruct (Nat.eqb _ 0).
  { intros [= <-]. simpl. lia. }
  set (h := calculateNetPositions (debts input)).
  set (kept := List.filter _ (seq 0 (length h))).
  destruct (optimizeDebts h kept) as [[h' txs]|] eqn:Hopt; [|discriminate].
  intros [= <-]. cbn [optimizedTransactions].
  apply optimizeDebts_count in Hopt.
  assert (Hparts :
    (length (List.filter (fun r => gtb (balanceAt h r) 0) kept)
     + length (List.filter (fun r => ltb (balanceAt h r) 0) kept)
     <= partiesWithNonZeroBalance (debts input))%nat).
  { unfold partiesWithNonZeroBalance. fold h.
    rewrite <- (count_refs h (fun b => negb (isZero b))).
    etransitivity;
      [|apply (split_length (fun r => gtb (balanceAt h r) 0)
                            (fun r => ltb (balanceAt h r) 0))].
    - apply Nat.add_le_mono; apply filter_sub_length.
    - intros r Hr. apply gtb_true in Hr. apply negb_true_iff, isZero_false. lra.
    - intros r Hr. apply ltb_true in Hr. apply negb_true_iff, isZero_false. lra.
    - intros r Hr. apply gtb_true in Hr. apply ltb_false. lra. }
  lia.
Qed.

(** Every transaction [execute] returns is of one cent or more. *)
Lemma execute_amounts input out :
  execute input = Some out -> Forall (fun t => cent <= amount t) (transactions out).
Proof.
  unfold execute. destruct (Nat.eqb _ 0).
  { intros [= <-]. constructor. }
  match goal with |- context [optimizeDebts ?h ?refs] =>
    destruct (optimizeDebts h refs) as [[h' txs]|] eqn:Hopt end; [|discriminate].
  intros [= <-]. cbn [transactions].
  unfold optimizeDebts in Hopt.
  eapply matchLoop_amounts; [exact Hopt | constructor].
Qed.

End SettlementFacts.
Module CircularDebtsFacts.

Import DebtOptimizer CircularDebts.
Local Open Scope Q_scope.

(** C9.  On the cycle A→B→C→A, [detectCircularDebts] leaves no remaining
    debt, but its list [circular] holds the cycle three times, once from
    each starting person: the set [used], which [dfs] consults, is filled
    only after the search. *)
Theorem three_party_cycle_detected_thrice :
  detectCircularDebts
    [mkDebt "A" "B" 10; mkDebt "B" "C" 10; mkDebt "C" "A" 10]
  = Some ([ [mkEdge (mkDebt "A" "B" 10) 0; mkEdge (mkDebt "B" "C" 10) 1;
             mkEdge (mkDebt "C" "A" 10) 2];
            [mkEdge (mkDebt "B" "C" 10) 1; mkEdge (mkDebt "C" "A" 10) 2;
             mkEdge (mkDebt "A" "B" 10) 0];
            [mkEdge (mkDebt "C" "A" 10) 2; mkEdge (mkDebt "A" "B" 10) 0;
             mkEdge (mkDebt "B" "C" 10) 1] ],
          []).
Proof. vm_compute. reflexivity. Qed.

End CircularDebtsFacts.

(** ** The Gini coefficient *)

Module FairnessFacts.

Import Money MoneyFacts SumFacts DebtOptimizer Fairness.
Local Open Scope Q_scope.

Lemma insertAsc_perm x l : insertAsc x l ≡ₚ x :: l.
Proof.
  induction l as [|y l IH]; simpl; [reflexivity|].
  destruct (ltb x y); [reflexivity|].
  rewrite IH. apply Permutation_swap.
Qed.

Lemma sortAsc_perm l : sortAsc l ≡ₚ l.
Proof.
  induction l as [|x l IH]; simpl; [reflexivity|].
  rewrite insertAsc_perm, IH. reflexivity.
Qed.

Lemma lengthQ_perm {A} (l l' : list A) : l ≡ₚ l' -> lengthQ l = lengthQ l'.
Proof. intros H. unfold lengthQ. rewrite (Permutation_length H). reflexivity. Qed.

Lemma pairwise_perm v w : v ≡ₚ w -> pairwise v == pairwise w.
Proof.
  intros H. unfold pairwise.
  rewrite (sumOver_perm _ v w H).
  apply sumOver_ext. intros a _. apply sumOver_perm, H.
Qed.

(** The nested loops compute the double sum. *)
Lemma numeratorOf_pairwise sorted : numeratorOf sorted == pairwise sorted.
Proof.
  unfold numeratorOf, pairwise.
  rewrite (fold_left_sumOver _ (fun a => sumOver (fun b => Qabs (a - b)) sorted)).
  - lra.
  - intros acc a _. apply fold_left_sumOver. intros. reflexivity.
Qed.

Lemma meanOf_specMean v : meanOf (sortAsc v) == specMean v.
Proof.
  unfold meanOf, specMean.
  rewrite sumQ_sumOver, (sumOver_perm _ _ _ (sortAsc_perm v)).
  rewrite (lengthQ_perm _ _ (sortAsc_perm v)). reflexivity.
Qed.

Lemma giniOf_specGini v : giniOf (sortAsc v) == specGini v.
Proof.
  unfold giniOf, specGini.
  rewrite numeratorOf_pairwise, (pairwise_perm _ _ (sortAsc_perm v)).
  rewrite meanOf_specMean, (lengthQ_perm _ _ (sortAsc_perm v)).
  apply Qdiv_comp; [reflexivity | ring].
Qed.

(** What [scoreMagnitudes] returns, in the words of the specification. *)
Lemma gini_rounded v :
  giniCoefficient (scoreMagnitudes v)
  = if Nat.eqb (length v) 0 || isZero (specMean v) then 0
    else roundTo (specGini v) 4.
Proof.
  unfold scoreMagnitudes. destruct (Nat.eqb (length v) 0); [reflexivity|].
  cbn [orb].
  assert (Hz : isZero (meanOf (sortAsc v)) = isZero (specMean v)).
  { unfold isZero. destruct (Qeq_bool (specMean v) 0) eqn:E.
    - apply Qeq_bool_iff. rewrite meanOf_specMean. apply Qeq_bool_iff, E.
    - destruct (Qeq_bool (meanOf (sortAsc v)) 0) eqn:E'; [|reflexivity].
      apply Qeq_bool_iff in E'. rewrite meanOf_specMean in E'.
      apply Qeq_bool_iff in E'. congruence. }
  rewrite Hz. destruct (isZero (specMean v)); [reflexivity|].
  cbn [giniCoefficient]. apply roundTo_ext, giniOf_specGini.
Qed.

Lemma calculateGini_scoreMagnitudes v :
  calculateGini v = giniCoefficient (scoreMagnitudes v).
Proof.
  unfold calculateGini, scoreMagnitudes.
  destruct (Nat.eqb (length v) 0); [reflexivity|].
  destruct (isZero _); reflexivity.
Qed.











End FairnessFacts.

(** ** The topological sort *)

Module SortFacts.

#[local] Set Warnings "-clear-no-such-hyp".

Import Orchestrator OrchestratorSpec.

Section WithPayload.
Context {Payload : Type}.
Implicit Types (tasks pre rest later todo : list (Task Payload)).
Implicit Types (t task : Task Payload) (st : SortState Payload).

Lemma findTask_some tasks x t :
  findTask tasks x = Some t -> In t tasks /\ id t = x.
Proof.
  unfold findTask. intros H. apply List.find_some in H as [Hin Heq].
  split; [exact Hin | apply String.eqb_eq, Heq].
Qed.

(** A task whose name no earlier task has is the one its name stands for. *)
Lemma findTask_first pre t rest :
  (forall u, In u pre -> id u <> id t) ->
  findTask (pre ++ t :: rest) (id t) = Some t.
Proof.
  unfold findTask. induction pre as [|u pre IH]; intros Hpre; simpl.
  - rewrite String.eqb_refl. reflexivity.
  - destruct (String.eqb (id u) (id t)) eqn:E.
    + apply String.eqb_eq in E. exfalso. apply (Hpre u); [left; reflexivity|exact E].
    + apply IH. intros v Hv. apply Hpre. right. exact Hv.
Qed.

Lemma size_allIds tasks : size (allIds tasks) <= length tasks.
Proof.
  unfold allIds. induction tasks as [|t tasks IH]; cbn [List.map length].
  - rewrite list_to_set_nil, size_empty. lia.
  - rewrite list_to_set_cons, size_union_alt, size_singleton.
    assert (H : size (list_to_set (List.map id tasks) ∖ {[id t]} : gset string)
                <= size (list_to_set (List.map id tasks) : gset string)).
    { apply subseteq_size, subseteq_difference_l. reflexivity. }
    lia.
Qed.

Lemma elem_of_allIds tasks t : In t tasks -> id t ∈ allIds tasks.
Proof.
  intros H. unfold allIds. apply elem_of_list_to_set, list_elem_of_In.
  apply List.in_map, H.
Qed.

(** Everything a pushed task reaches was pushed before it. *)
Lemma reach_earlier tasks later :
  depsBefore tasks later ->
  List.NoDup (List.map id later) ->
  (forall t, In t later -> findTask tasks (id t) = Some t) ->
  forall x y, In x (List.map id later) -> tc (dependsOn tasks) x y ->
              In y (List.map id later) /\ x <> y.
Proof.
  induction later as [|t earlier IH]; intros Hbefore Hnodup Hfirst x y Hx Hreach.
  - destruct Hx.
  - destruct Hbefore as [Hdeps Hbefore]. cbn [List.map] in Hnodup.
    apply List.NoDup_cons_iff in Hnodup as [Hfresh Hnodup].
    specialize (IH Hbefore Hnodup (fun u Hu => Hfirst u (or_intror Hu))).
    assert (Hhead : forall z, tc (dependsOn tasks) (id t) z ->
                              In z (List.map id earlier)).
    { intros z Hz.
      assert (Hstep : exists d, dependsOn tasks (id t) d
                                /\ (d = z \/ tc (dependsOn tasks) d z)).
      { inversion Hz; subst; eauto. }
      destruct Hstep as (d & (t' & Hfind & Hin & Hfound) & Hrest).
      rewrite (Hfirst t (or_introl eq_refl)) in Hfind.
      injection Hfind as <-.
      pose proof (Hdeps d Hin Hfound) as Hd.
      destruct Hrest as [<-|Hrest]; [exact Hd|].
      apply (IH d z Hd Hrest). }
    cbn [List.map] in Hx |- *. destruct Hx as [<-|Hx].
    + pose proof (Hhead y Hreach) as Hy.
      split; [right; exact Hy|]. intros <-. contradiction.
    + destruct (IH x y Hx Hreach) as [Hy Hne]. split; [right; exact Hy|exact Hne].
Qed.

Lemma visited_sorted tasks st x :
  wellSorted tasks st -> x ∈ visited st <-> In x (List.map id (rev (sorted st))).
Proof.
  intros Hws. rewrite (ws_visited _ _ Hws), elem_of_list_to_set, list_elem_of_In.
  rewrite List.map_rev, <- List.in_rev. reflexivity.
Qed.

(** No visited task lies on a cycle. *)
Lemma visited_acyclic tasks st x :
  wellSorted tasks st -> x ∈ visited st -> ~ tc (dependsOn tasks) x x.
Proof.
  intros Hws Hx Hcycle.
  apply (visited_sorted _ _ _ Hws) in Hx.
  destruct (reach_earlier tasks (rev (sorted st))) with (x := x) (y := x)
    as [_ Hne]; try assumption.
  - apply Hws.
  - rewrite List.map_rev. apply List.NoDup_rev, Hws.
  - intros t Ht. apply (ws_first _ _ Hws). apply List.in_rev, Ht.
  - apply Hne. reflexivity.
Qed.

(** The loop over the dependencies, for any [visit] that keeps its contract
    while the fuel lasts. *)
Lemma visitDeps_spec tasks fuel (vis : Task Payload -> SortState Payload -> Res (SortState Payload)) :
  (forall task st,
     wellSorted tasks st ->
     findTask tasks (id task) = Some task ->
     (forall v, v ∈ visiting st -> tc (dependsOn tasks) v (id task)) ->
     visiting st ⊆ allIds tasks ->
     size (allIds tasks) < fuel + size (visiting st) ->
     sortPost tasks st [id task] (vis task st)) ->
  forall deps st,
    wellSorted tasks st ->
    (forall d v, In d deps -> is_Some (findTask tasks d) ->
                 v ∈ visiting st -> tc (dependsOn tasks) v d) ->
    visiting st ⊆ allIds tasks ->
    size (allIds tasks) < fuel + size (visiting st) ->
    sortPost tasks st
      (List.filter (fun d => bool_decide (is_Some (findTask tasks d))) deps)
      (visitDeps vis tasks deps st).
Proof.
  intros Hvis. induction deps as [|d deps IH]; intros st Hws Hpath Hsub Hfuel.
  - simpl. refine (conj Hws (conj eq_refl (conj _ _))); [reflexivity | intros ? []].
  - cbn [visitDeps List.filter].
    destruct (findTask tasks d) as [depTask|] eqn:Hfind.
    + pose proof (findTask_some _ _ _ Hfind) as [_ Hid].
      rewrite bool_decide_eq_true_2 by eauto.
      assert (Hfind' : findTask tasks (id depTask) = Some depTask)
        by (rewrite Hid; exact Hfind).
      pose proof (Hvis depTask st Hws Hfind') as Hcall.
      rewrite Hid in Hcall.
      specialize (Hcall (fun v Hv => Hpath d v (or_introl eq_refl)
                                       (ex_intro _ _ Hfind) Hv) Hsub Hfuel).
      destruct (vis depTask st) as [st1| |]; [|exact Hcall|exact Hcall].
      destruct Hcall as (Hws1 & Hvisiting1 & Hgrow1 & Hmust1).
      specialize (IH st1 Hws1).
      rewrite Hvisiting1 in IH.
      specialize (IH (fun d' v Hd' => Hpath d' v (or_intror Hd')) Hsub Hfuel).
      destruct (visitDeps vis tasks deps st1) as [st2| |]; [|exact IH|exact IH].
      destruct IH as (Hws2 & Hvisiting2 & Hgrow2 & Hmust2).
      refine (conj Hws2 (conj (eq_trans Hvisiting2 Hvisiting1) (conj _ _)));
        [transitivity (visited st1); assumption|].
      intros d' [<-|Hd'].
      * apply Hgrow2, Hmust1. left. reflexivity.
      * apply Hmust2, Hd'.
    + rewrite bool_decide_eq_false_2 by (intros [? ?]; discriminate).
      apply IH; [exact Hws | | exact Hsub | exact Hfuel].
      intros d' v Hd'. apply Hpath. right. exact Hd'.
Qed.


(** The contract of [visit]. *)
Lemma visit_spec tasks fuel : forall task st,
  wellSorted tasks st ->
  findTask tasks (id task) = Some task \/ id task ∈ visited st ->
  (forall v, v ∈ visiting st -> tc (dependsOn tasks) v (id task)) ->
  visiting st ⊆ allIds tasks ->
  size (allIds tasks) < fuel + size (visiting st) ->
  sortPost tasks st [id task] (visit fuel tasks task st).
Proof.
  induction fuel as [|fuel IH]; intros task st Hws Hfirst Hpath Hsub Hfuel.
  - pose proof (subseteq_size _ _ Hsub). simpl in Hfuel. lia.
  - cbn [visit].
    destruct (decide (id task ∈ visited st)) as [Hdone|Hnew].
    { refine (conj Hws (conj eq_refl (conj _ _))); [reflexivity|].
      intros d [<-|[]]. exact Hdone. }
    destruct (decide (id task ∈ visiting st)) as [Hopen|Hfresh].
    { exists (id task). split; [reflexivity | apply Hpath, Hopen]. }
    destruct Hfirst as [Hfind|Hdone]; [|contradiction].
    pose proof (findTask_some _ _ _ Hfind) as [Hin _].
    set (st1 := mkSort (sorted st) (visited st) ({[id task]} ∪ visiting st)).
    assert (Hws1 : wellSorted tasks st1).
    { destruct Hws as [Hv Hn Hf Hb Hd]. split; try assumption.
      cbn [visited visiting st1]. set_solver. }
    assert (Hsize1 : size (visiting st1) = S (size (visiting st))).
    { cbn [visiting st1]. rewrite size_union, size_singleton by set_solver.
      reflexivity. }
    pose proof (visitDeps_spec tasks fuel (visit fuel tasks)) as Hdeps.
    specialize (Hdeps (fun task' st' Hws' Hfind' =>
                         IH task' st' Hws' (or_introl Hfind'))).
    specialize (Hdeps (declared task) st1 Hws1).
    assert (Hpath1 : forall d v, In d (declared task) ->
              is_Some (findTask tasks d) -> v ∈ visiting st1 ->
              tc (dependsOn tasks) v d).
    { intros d v Hd Hfound Hv.
      assert (Hedge : dependsOn tasks (id task) d) by (exists task; auto).
      cbn [visiting st1] in Hv. apply elem_of_union in Hv as [Hv|Hv].
      - apply elem_of_singleton in Hv as ->. apply tc_once, Hedge.
      - apply tc_r with (id task); [apply Hpath, Hv | exact Hedge]. }
    specialize (Hdeps Hpath1).
    assert (Hsub1 : visiting st1 ⊆ allIds tasks).
    { cbn [visiting st1]. pose proof (elem_of_allIds tasks task Hin). set_solver. }
    specialize (Hdeps Hsub1 ltac:(lia)).
    destruct (visitDeps (visit fuel tasks) tasks (declared task) st1)
      as [st2| |]; [|exact Hdeps|exact Hdeps].
    destruct Hdeps as (Hws2 & Hvisiting2 & Hgrow2 & Hmust2).
    cbn [visiting visited st1] in Hvisiting2, Hgrow2.
    assert (Hout : id task ∉ visited st2).
    { pose proof (ws_disjoint _ _ Hws2) as Hdisj. rewrite Hvisiting2 in Hdisj.
      set_solver. }
    refine (conj _ (conj _ (conj _ _))).
    + destruct Hws2 as [Hv Hn Hf Hb Hd]. split; cbn [sorted visited visiting].
      * rewrite List.map_app, list_to_set_app_L, Hv. cbn [List.map].
        rewrite list_to_set_cons, list_to_set_nil. set_solver.
      * rewrite List.map_app. apply NoDup_ListNoDup, NoDup_app.
        split; [apply NoDup_ListNoDup, Hn|].
        split; [|apply NoDup_singleton].
        intros x Hx Hx'. apply list_elem_of_singleton in Hx' as ->.
        apply Hout. rewrite Hv. apply elem_of_list_to_set, Hx.
      * intros t Ht. apply List.in_app_iff in Ht as [Ht|[<-|[]]];
          [apply Hf, Ht | exact Hfind].
      * rewrite List.rev_unit. split; [|exact Hb].
        intros d Hd' Hfound.
        apply (visited_sorted tasks st2); [split; assumption|].
        apply Hmust2. apply List.filter_In. split; [exact Hd'|].
        apply bool_decide_eq_true_2, Hfound.
      * rewrite Hvisiting2. set_solver.
    + cbn [visiting]. rewrite Hvisiting2. set_solver.
    + cbn [visited]. set_solver.
    + intros d [<-|[]]. cbn [visited]. set_solver.
Qed.

(** The loop over the queue.  The tasks before [todo] have been visited. *)
Lemma visitAll_spec tasks fuel : forall todo pre st,
  tasks = pre ++ todo ->
  length tasks < fuel ->
  wellSorted tasks st ->
  visiting st = ∅ ->
  (forall u, In u pre -> id u ∈ visited st) ->
  match visitAll fuel tasks todo st with
  | Ok st' =>
      wellSorted tasks st' /\ forall u, In u tasks -> id u ∈ visited st'
  | Throw m => exists x, m = circularMessage x /\ tc (dependsOn tasks) x x
  | OutOfFuel => False
  end.
Proof.
  induction todo as [|task todo IH]; intros pre st Htasks Hfuel Hws Hidle Hpre.
  - simpl. split; [exact Hws|]. intros u Hu. apply Hpre.
    rewrite Htasks, List.app_nil_r in Hu. exact Hu.
  - cbn [visitAll].
    pose proof (visit_spec tasks fuel task st Hws) as Hcall.
    assert (Hfirst : findTask tasks (id task) = Some task \/ id task ∈ visited st).
    { destruct (decide (id task ∈ visited st)) as [Hdone|Hnew]; [right; exact Hdone|].
      left. rewrite Htasks. apply findTask_first.
      intros u Hu E. apply Hnew. rewrite <- E. apply Hpre, Hu. }
    specialize (Hcall Hfirst).
    rewrite Hidle in Hcall.
    specialize (Hcall ltac:(intros v Hv; exfalso; revert Hv; apply not_elem_of_empty)
                      ltac:(apply empty_subseteq)).
    rewrite size_empty in Hcall.
    pose proof (size_allIds tasks) as Hsize.
    specialize (Hcall ltac:(lia)).
    destruct (visit fuel tasks task st) as [st1| |]; [|exact Hcall|exact Hcall].
    destruct Hcall as (Hws1 & Hvisiting1 & Hgrow1 & Hmust1).
    apply (IH (pre ++ [task]) st1).
    + rewrite <- List.app_assoc. exact Htasks.
    + exact Hfuel.
    + exact Hws1.
    + rewrite Hvisiting1. exact Hidle.
    + intros u Hu. apply List.in_app_iff in Hu as [Hu|[<-|[]]].
      * apply Hgrow1, Hpre, Hu.
      * apply Hmust1. left. reflexivity.
Qed.

Lemma wellSorted_initial tasks : wellSorted tasks (mkSort [] ∅ ∅).
Proof.
  split; cbn [sorted visited visiting List.map rev depsBefore].
  - rewrite list_to_set_nil. reflexivity.
  - constructor.
  - intros t [].
  - exact I.
  - apply disjoint_empty_l.
Qed.

(** The contract of [topologicalSort]: it returns an order without
    repeated names that holds every name of the queue, made of tasks their
    names stand for, each after its dependencies, and then the graph has no
    cycle; or it throws, naming a task that lies on a cycle. *)
Lemma topologicalSort_spec tasks :
  match topologicalSort tasks with
  | Ok order =>
      List.NoDup (List.map id order)
      /\ (forall u, In u tasks -> In (id u) (List.map id order))
      /\ (forall t, In t order -> findTask tasks (id t) = Some t)
      /\ depsBefore tasks (rev order)
      /\ ~ cyclic tasks
  | Throw m => exists x, m = circularMessage x /\ tc (dependsOn tasks) x x
  | OutOfFuel => False
  end.
Proof.
  unfold topologicalSort.
  pose proof (visitAll_spec tasks (S (length tasks)) tasks [] (mkSort [] ∅ ∅)
                eq_refl ltac:(lia) (wellSorted_initial tasks) eq_refl
                ltac:(intros u [])) as H.
  destruct (visitAll _ tasks tasks _) as [st| |]; [|exact H|exact H].
  destruct H as [Hws Hall].
  assert (Hids : forall u, In u tasks -> In (id u) (List.map id (sorted st))).
  { intros u Hu. apply list_elem_of_In, (elem_of_list_to_set (C := gset string)).
    rewrite <- (ws_visited _ _ Hws). apply Hall, Hu. }
  refine (conj (ws_nodup _ _ Hws) (conj Hids (conj (ws_first _ _ Hws)
            (conj (ws_before _ _ Hws) _)))).
  intros [a Hcycle].
  apply (visited_acyclic tasks st a Hws); [|exact Hcycle].
  assert (Hfound : exists t, findTask tasks a = Some t).
  { inversion Hcycle as [? ? (t & Ht & _)|? ? ? (t & Ht & _)]; eauto. }
  destruct Hfound as [t Ht]. apply findTask_some in Ht as [Hin <-].
  apply Hall, Hin.
Qed.

End WithPayload.

End SortFacts.

(** ** The task loop *)

Module RunFacts.

Import JsMap JsMapFacts Orchestrator OrchestratorSpec SortFacts.

Section WithPayload.
Context {Payload Output : Type}.
Variable agents : gmap string (Agent Payload Output).
Implicit Types (tasks pre order later : list (Task Payload)).
Implicit Types (t task : Task Payload) (s : RunState Output).
Implicit Types (r : TaskResult Output).

Lemma runTasks_snoc pre t :
  runTasks agents (pre ++ [t]) = runTask agents (runTasks agents pre) t.
Proof. unfold runTasks. rewrite List.fold_left_app. reflexivity. Qed.

Lemma runTask_fresh s t :
  ~ In (id t) (List.map fst (resultMap s)) ->
  resultMap (runTask agents s t) = resultMap s ++ [(id t, recorded agents s t)]
  /\ invoked (runTask agents s t)
     = (if snd (attempt agents (resultMap s) t)
        then invoked s ++ [id t] else invoked s)
  /\ errorList (runTask agents s t)
     = (if success (recorded agents s t) then errorList s
        else errorList s ++ [errorLine (recorded agents s t)]).
Proof.
  intros Hfresh. unfold runTask, recorded.
  destruct (attempt agents (resultMap s) t) as [[msg|out] called];
    cbn [fst snd resultMap invoked errorList success];
    rewrite omap_set_fresh by exact Hfresh; repeat split.
Qed.

Lemma runInvariant_step pre s t :
  runInvariant pre s ->
  ~ In (id t) (List.map id pre) ->
  runInvariant (pre ++ [t]) (runTask agents s t).
Proof.
  intros [Hkeys Hids Herr Hinv] Hfresh.
  assert (Hfresh' : ~ In (id t) (List.map fst (resultMap s)))
    by (rewrite Hkeys; exact Hfresh).
  destruct (runTask_fresh s t Hfresh') as (Hrm & Hcalls & Herrs).
  assert (Hid : taskId (recorded agents s t) = id t).
  { unfold recorded. destruct (fst _); reflexivity. }
  split.
  - rewrite Hrm, !List.map_app, Hkeys. reflexivity.
  - rewrite Hrm, !List.map_app, Hids. cbn [List.map snd]. rewrite Hid. reflexivity.
  - rewrite Herrs, Hrm, List.map_app, List.filter_app, List.map_app, <- Herr.
    cbn [List.map List.filter snd]. unfold failed.
    destruct (success (recorded agents s t)); cbn [negb List.map].
    + rewrite List.app_nil_r. reflexivity.
    + reflexivity.
  - intros x Hx. rewrite Hcalls in Hx. rewrite List.map_app, List.in_app_iff.
    destruct (snd _).
    + apply List.in_app_iff in Hx as [Hx|[<-|[]]]; [left; apply Hinv, Hx|].
      right. left. reflexivity.
    + left. apply Hinv, Hx.
Qed.

Lemma runInvariant_holds order :
  List.NoDup (List.map id order) -> runInvariant order (runTasks agents order).
Proof.
  induction order as [|t pre IH] using rev_ind; intros Hnodup.
  - split; try reflexivity. intros x [].
  - rewrite runTasks_snoc. rewrite List.map_app in Hnodup.
    apply NoDup_ListNoDup, NoDup_app in Hnodup as (Hpre & Hsep & _).
    apply runInvariant_step; [apply IH, NoDup_ListNoDup, Hpre|].
    intros Hin. apply (Hsep (id t)); [apply list_elem_of_In, Hin|].
    apply list_elem_of_singleton. reflexivity.
Qed.


(** A dependency without a successful result leaves the task unmet. *)
Lemma dependenciesMet_false (rm : list (string * TaskResult Output)) t d :
  In d (declared t) ->
  omap_get rm d = None
  \/ (exists r, omap_get rm d = Some r /\ success r = false) ->
  dependenciesMet rm t = false.
Proof.
  intros Hd Hbad. unfold dependenciesMet.
  destruct (List.forallb _ (declared t)) eqn:E; [|reflexivity].
  rewrite List.forallb_forall in E. specialize (E d Hd).
  destruct Hbad as [Hnone|(r & Hsome & Hfail)].
  - rewrite Hnone in E. discriminate.
  - rewrite Hsome, Hfail in E. discriminate.
Qed.

Lemma dependenciesMet_true (rm : list (string * TaskResult Output)) t :
  (forall d, In d (declared t) ->
             exists r, omap_get rm d = Some r /\ success r = true) ->
  dependenciesMet rm t = true.
Proof.
  intros Hall. unfold dependenciesMet. apply List.forallb_forall.
  intros d Hd. destruct (Hall d Hd) as (r & -> & Hr). exact Hr.
Qed.

Lemma recorded_unmet s t :
  dependenciesMet (resultMap s) t = false ->
  recorded agents s t = dependencyFailure t
  /\ snd (attempt agents (resultMap s) t) = false.
Proof. intros H. unfold recorded, attempt. rewrite H. split; reflexivity. Qed.

Lemma attempt_called s t :
  dependenciesMet (resultMap s) t = true ->
  is_Some (agents !! type t) ->
  snd (attempt agents (resultMap s) t) = true.
Proof.
  intros Hmet [agent Hagent]. unfold attempt. rewrite Hmet, Hagent. reflexivity.
Qed.

(** A task with a dependency that has no successful result is recorded as
    failed, and its agent is not run. *)
Lemma unmet_dependency_fails order :
  List.NoDup (List.map id order) ->
  forall t d,
    In t order -> In d (declared t) ->
    omap_get (resultMap (runTasks agents order)) d = None
    \/ (exists r, omap_get (resultMap (runTasks agents order)) d = Some r
                  /\ success r = false) ->
    omap_get (resultMap (runTasks agents order)) (id t) = Some (dependencyFailure t)
    /\ ~ In (id t) (invoked (runTasks agents order)).
Proof.
  induction order as [|t' pre IH] using rev_ind; intros Hnodup t d Ht Hd Hbad.
  { destruct Ht. }
  rewrite List.map_app in Hnodup.
  apply NoDup_ListNoDup, NoDup_app in Hnodup as (Hpre & Hsep & _).
  apply NoDup_ListNoDup in Hpre.
  assert (Hfresh : ~ In (id t') (List.map id pre)).
  { intros Hin. apply (Hsep (id t')); [apply list_elem_of_In, Hin|].
    apply list_elem_of_singleton. reflexivity. }
  pose proof (runInvariant_holds pre Hpre) as Hinv.
  set (s := runTasks agents pre) in *.
  assert (Hfresh' : ~ In (id t') (List.map fst (resultMap s)))
    by (rewrite (ri_keys _ _ Hinv); exact Hfresh).
  rewrite runTasks_snoc in Hbad |- *. fold s in Hbad |- *.
  destruct (runTask_fresh s t' Hfresh') as (Hrm & Hcalls & _).
  rewrite Hrm, Hcalls. rewrite Hrm in Hbad.
  rewrite !omap_get_last in Hbad by exact Hfresh'.
  rewrite omap_get_last by exact Hfresh'.
  assert (Hbad' : omap_get (resultMap s) d = None
                  \/ (exists r, omap_get (resultMap s) d = Some r
                                /\ success r = false)).
  { destruct (String.eqb (id t') d) eqn:E; [|exact Hbad].
    apply String.eqb_eq in E. subst d. left. apply omap_get_none, Hfresh'. }
  apply List.in_app_iff in Ht as [Ht|[<-|[]]].
  - destruct (IH Hpre t d Ht Hd Hbad') as [Hres Hnot].
    assert (Hne : String.eqb (id t') (id t) = false).
    { apply String.eqb_neq. intros E. apply Hfresh. rewrite E.
      apply List.in_map, Ht. }
    rewrite Hne. split; [exact Hres|].
    destruct (snd _); [|exact Hnot].
    intros Hin. apply List.in_app_iff in Hin as [Hin|[E|[]]]; [auto|].
    apply String.eqb_neq in Hne. auto.
  - rewrite String.eqb_refl.
    destruct (recorded_unmet s t' (dependenciesMet_false _ _ _ Hd Hbad'))
      as [-> ->].
    split; [reflexivity|]. intros Hin. apply Hfresh, (ri_invoked _ _ Hinv), Hin.
Qed.

(** In an order where dependencies come first, a dependency of a task is
    among the tasks of the order. *)
Lemma depsBefore_in tasks later t d :
  depsBefore tasks later -> In t later -> In d (declared t) ->
  is_Some (findTask tasks d) -> In d (List.map id later).
Proof.
  induction later as [|u earlier IH]; intros Hbefore Ht Hd Hfound; [destruct Ht|].
  destruct Hbefore as [Hdeps Hbefore]. cbn [List.map]. right.
  destruct Ht as [->|Ht]; [apply Hdeps; assumption|].
  specialize (IH Hbefore Ht Hd Hfound).
  destruct earlier as [|v earlier]; [destruct Ht|].
  destruct Hbefore as [Hv _]. exact IH.
Qed.

(** A task whose dependencies all succeeded, of a type that has an agent,
    has its agent run, whatever became of the other tasks. *)
Lemma satisfied_task_runs tasks order :
  List.NoDup (List.map id order) ->
  depsBefore tasks (rev order) ->
  (forall t, In t order -> is_Some (findTask tasks (id t))) ->
  forall t,
    In t order ->
    (forall d, In d (declared t) ->
       exists r, omap_get (resultMap (runTasks agents order)) d = Some r
                 /\ success r = true) ->
    is_Some (agents !! type t) ->
    In (id t) (invoked (runTasks agents order)).
Proof.
  induction order as [|t' pre IH] using rev_ind;
    intros Hnodup Hbefore Hfound t Ht Hdeps Hagent.
  { destruct Ht. }
  rewrite List.map_app in Hnodup.
  apply NoDup_ListNoDup, NoDup_app in Hnodup as (Hpre & Hsep & _).
  apply NoDup_ListNoDup in Hpre.
  assert (Hfresh : ~ In (id t') (List.map id pre)).
  { intros Hin. apply (Hsep (id t')); [apply list_elem_of_In, Hin|].
    apply list_elem_of_singleton. reflexivity. }
  rewrite List.rev_unit in Hbefore. destruct Hbefore as [_ Hbefore].
  pose proof (runInvariant_holds pre Hpre) as Hinv.
  set (s := runTasks agents pre) in *.
  assert (Hfresh' : ~ In (id t') (List.map fst (resultMap s)))
    by (rewrite (ri_keys _ _ Hinv); exact Hfresh).
  rewrite runTasks_snoc in Hdeps |- *. fold s in Hdeps |- *.
  destruct (runTask_fresh s t' Hfresh') as (Hrm & Hcalls & _).
  rewrite Hcalls. rewrite Hrm in Hdeps.
  apply List.in_app_iff in Ht as [Ht|[<-|[]]].
  - assert (Hin : In (id t) (invoked s)).
    { apply (IH Hpre Hbefore); [|exact Ht| |exact Hagent].
      - intros u Hu. apply Hfound, List.in_app_iff. left. exact Hu.
      - intros d Hd. destruct (Hdeps d Hd) as (r & Hr & Hok).
        rewrite omap_get_last in Hr by exact Hfresh'.
        destruct (String.eqb (id t') d) eqn:E; [|eauto].
        apply String.eqb_eq in E. subst d. exfalso. apply Hfresh.
        apply List.in_rev. rewrite <- List.map_rev.
        apply (depsBefore_in tasks (rev pre) t (id t') Hbefore);
          [apply List.in_rev in Ht; exact Ht | exact Hd|].
        apply Hfound, List.in_app_iff. right. left. reflexivity. }
    destruct (snd _); [apply List.in_app_iff; left|]; exact Hin.
  - assert (Hmet : dependenciesMet (resultMap s) t' = true).
    { destruct (dependenciesMet (resultMap s) t') eqn:Hmet; [reflexivity|].
      exfalso.
      assert (Hself : forall d, In d (declared t') -> String.eqb (id t') d = false).
      { intros d Hd. destruct (String.eqb (id t') d) eqn:E; [|reflexivity].
        destruct (Hdeps d Hd) as (r & Hr & Hok).
        rewrite omap_get_last, E in Hr by exact Hfresh'.
        injection Hr as <-.
        destruct (recorded_unmet s t' Hmet) as [Hrec _].
        rewrite Hrec in Hok. discriminate. }
      rewrite dependenciesMet_true in Hmet; [discriminate|].
      intros d Hd. destruct (Hdeps d Hd) as (r & Hr & Hok).
      rewrite omap_get_last, (Hself d Hd) in Hr by exact Hfresh'. eauto. }
    rewrite (attempt_called s t' Hmet Hagent).
    apply List.in_app_iff. right. left. reflexivity.
Qed.

(** No error line means every result is a success. *)
Lemma no_error_all_success (rs : list (TaskResult Output)) :
  Nat.eqb (length (List.map errorLine (List.filter failed rs))) 0
  = List.forallb success rs.
Proof.
  induction rs as [|r rs IH]; [reflexivity|].
  cbn [List.filter List.forallb]. unfold failed at 1.
  destruct (success r); cbn [negb andb]; [exact IH | reflexivity].
Qed.

End WithPayload.

End RunFacts.

(** ** The orchestrator's run *)

Module ExecuteFacts.

Import JsMap Orchestrator OrchestratorSpec SortFacts RunFacts.

Section WithPayload.
Context {Payload Output : Type}.
Variable agents : gmap string (Agent Payload Output).
Implicit Types (tasks order : list (Task Payload)).

(** A queue that [topologicalSort] orders has no cycle. *)
Lemma sorted_acyclic tasks order :
  topologicalSort tasks = Ok order -> ~ cyclic tasks.
Proof.
  intros Hsorted. pose proof (topologicalSort_spec tasks) as Hsort.
  rewrite Hsorted in Hsort. apply Hsort.
Qed.

(** C5.  When the dependency graph of the queue has a cycle, [execute]
    throws the circular dependency error, which names a task that lies on a
    cycle; no agent has been run and [this.results] is empty. *)
Theorem circular_dependency_aborts tasks :
  cyclic tasks ->
  exists x,
    tc (dependsOn tasks) x x
    /\ execute agents tasks
       = mkExec (Throw ("Circular dependency detected involving task " +:+ x))
                [] [].
Proof.
  intros Hcyclic. unfold execute.
  pose proof (topologicalSort_spec tasks) as Hsort.
  destruct (topologicalSort tasks) as [order|m|].
  - destruct Hsort as (_ & _ & _ & _ & Hacyclic). contradiction.
  - destruct Hsort as (x & -> & Hx). exists x. split; [exact Hx | reflexivity].
  - destruct Hsort.
Qed.

(** C6.  When the dependency graph has no cycle, [execute] returns.  Every
    task of the queue is in the order run, and every task of the order has
    one result.  A task with a declared dependency whose result is missing
    or failed is recorded with the dependency failure, and its agent is not
    run.  A task whose dependencies all succeeded and whose type has an
    agent has its agent run.  [success] is the conjunction of the results'
    [success], and [errors] holds one line for each failed result. *)
Theorem task_failures_are_isolated tasks :
  ~ cyclic tasks ->
  exists order res,
    topologicalSort tasks = Ok order
    /\ completion (execute agents tasks) = Ok res
    /\ (forall u, In u tasks -> In (id u) (List.map id order))
    /\ List.map taskId (results res) = List.map id order
    /\ (forall t d,
          In t order -> In d (declared t) ->
          omap_get (storedResults (execute agents tasks)) d = None
          \/ (exists r, omap_get (storedResults (execute agents tasks)) d = Some r
                        /\ success r = false) ->
          omap_get (storedResults (execute agents tasks)) (id t)
          = Some (dependencyFailure t)
          /\ ~ In (id t) (agentCalls (execute agents tasks)))
    /\ (forall t,
          In t order ->
          (forall d, In d (declared t) ->
             exists r, omap_get (storedResults (execute agents tasks)) d = Some r
                       /\ success r = true) ->
          is_Some (agents !! type t) ->
          In (id t) (agentCalls (execute agents tasks)))
    /\ orchSuccess res = List.forallb success (results res)
    /\ errors res = List.map errorLine (List.filter failed (results res)).
Proof.
  intros Hacyclic. unfold execute.
  pose proof (topologicalSort_spec tasks) as Hsort.
  destruct (topologicalSort tasks) as [order|m|].
  - destruct Hsort as (Hnodup & Hall & Hfirst & Hbefore & _).
    pose proof (runInvariant_holds agents order Hnodup) as Hinv.
    eexists. eexists. split; [reflexivity|]. split; [reflexivity|].
    cbn [storedResults agentCalls results orchSuccess errors].
    split; [exact Hall|].
    split; [rewrite List.map_map; apply (ri_ids _ _ Hinv)|].
    split; [intros t d; apply (unmet_dependency_fails agents order Hnodup)|].
    split.
    { apply (satisfied_task_runs agents tasks order Hnodup Hbefore).
      intros t Ht. rewrite (Hfirst t Ht). eauto. }
    rewrite (ri_errors _ _ Hinv). split; [apply no_error_all_success | reflexivity].
  - exfalso. destruct Hsort as (x & _ & Hx). apply Hacyclic. exists x. exact Hx.
  - destruct Hsort.
Qed.

End WithPayload.

(** The queue A→B→C→A of the specification. *)
Lemma circular_dependency_aborts_witness :
  exists x,
    tc (dependsOn [mkTask "A" "t" tt (Some ["B"]); mkTask "B" "t" tt (Some ["C"]);
                   mkTask "C" "t" tt (Some ["A"])]) x x
    /\ execute (Output := unit) ∅
         [mkTask "A" "t" tt (Some ["B"]); mkTask "B" "t" tt (Some ["C"]);
          mkTask "C" "t" tt (Some ["A"])]
       = mkExec (Throw ("Circular dependency detected involving task " +:+ x))
                [] [].
Proof.
  apply circular_dependency_aborts.
  exists "A".
  apply tc_l with "B"; [|apply tc_l with "C"; [|apply tc_once]];
    (eexists; split; [reflexivity|]; split; [left; reflexivity|]; eexists; reflexivity).
Defined.

(** The queue F, E, D, where F and E depend on D, and E on a task X that
    is not in the queue. *)
Lemma task_failures_are_isolated_witness :
  exists order res,
    topologicalSort
      [mkTask "F" "t" tt (Some ["D"]); mkTask "E" "t" tt (Some ["D"; "X"]);
       mkTask "D" "t" tt None] = Ok order
    /\ completion
         (execute (Output := unit) {[ "t" := fun _ => inr tt ]}
            [mkTask "F" "t" tt (Some ["D"]); mkTask "E" "t" tt (Some ["D"; "X"]);
             mkTask "D" "t" tt None]) = Ok res
    /\ orchSuccess res = List.forallb success (results res).
Proof.
  destruct (task_failures_are_isolated (Output := unit)
              {[ "t" := fun _ => inr tt ]}
              [mkTask "F" "t" tt (Some ["D"]); mkTask "E" "t" tt (Some ["D"; "X"]);
               mkTask "D" "t" tt None])
    as (order & res & Horder & Hres & _ & _ & _ & _ & Hsuccess & _).
  - eapply sorted_acyclic. vm_compute. reflexivity.
  - exists order, res. auto.
Defined.

End ExecuteFacts.

(** ** Net positions, person by person *)

Module PositionFacts.

Import Money MoneyFacts SumFacts JsMap JsMapFacts DebtOptimizer.
Local Open Scope Q_scope.

Lemma getOr0_set m k v k' :
  getOr0 (omap_set m k v) k' = if String.eqb k k' then v else getOr0 m k'.
Proof.
  unfold getOr0. rewrite omap_get_set. destruct (String.eqb k k'); reflexivity.
Qed.

(** One debt moves the balance of [p] by its flow. *)
Lemma addDebt_flow m d p : getOr0 (addDebt m d) p == getOr0 m p + flow p d.
Proof.
  unfold addDebt, flow. rewrite !getOr0_set.
  destruct (String.eqb (to d) p) eqn:Eto, (String.eqb (from d) p) eqn:Efrom.
  - apply String.eqb_eq in Eto, Efrom. rewrite Eto, <- Efrom, String.eqb_refl. lra.
  - destruct (String.eqb (from d) (to d)) eqn:E.
    + apply String.eqb_eq in E. apply String.eqb_eq in Eto.
      rewrite E, Eto, String.eqb_refl in Efrom. discriminate.
    + apply String.eqb_eq in Eto. rewrite Eto. lra.
  - apply String.eqb_eq in Efrom. rewrite Efrom. lra.
  - lra.
Qed.

Lemma accumulate_flow_from ds m p :
  getOr0 (List.fold_left addDebt ds m) p == getOr0 m p + netOf ds p.
Proof.
  unfold netOf. revert m. induction ds as [|d ds IH]; intros m; simpl.
  - lra.
  - rewrite IH, addDebt_flow. lra.
Qed.

(** The accumulated balance of [p] is its exact net balance. *)
Lemma accumulate_netOf ds p : getOr0 (accumulate ds) p == netOf ds p.
Proof.
  unfold accumulate. rewrite accumulate_flow_from.
  unfold getOr0. simpl. lra.
Qed.

(** The map [positions] never holds a person twice. *)
Lemma accumulate_keys ds : List.NoDup (List.map fst (accumulate ds)).
Proof.
  unfold accumulate.
  assert (H : forall m, List.NoDup (List.map fst m) ->
                        List.NoDup (List.map fst (List.fold_left addDebt ds m))).
  { induction ds as [|d ds IH]; intros m Hm; simpl; [exact Hm|].
    apply IH. unfold addDebt. apply omap_set_keys, omap_set_keys, Hm. }
  apply H. constructor.
Qed.

(** Over distinct keys, the sum of the entries of [p] is the entry of [p]. *)
Lemma sum_at_key (f : Q -> Q) (m : list (string * Q)) p :
  List.NoDup (List.map fst m) ->
  sumOver (fun e => if String.eqb (fst e) p then f (snd e) else 0) m
  == match omap_get m p with Some v => f v | None => 0 end.
Proof.
  induction m as [|[k v] m IH]; simpl; intros H; [reflexivity|].
  apply List.NoDup_cons_iff in H as [Hfresh H].
  destruct (String.eqb k p) eqn:E.
  - apply String.eqb_eq in E. subst k.
    rewrite sumOver_zero; [lra|].
    intros [k' v'] Hin. cbn [fst snd].
    destruct (String.eqb k' p) eqn:E'; [|reflexivity].
    apply String.eqb_eq in E'. subst k'. exfalso. apply Hfresh.
    apply (List.in_map fst) in Hin. exact Hin.
  - rewrite IH by exact H. lra.
Qed.

(** The rounded positions of [p] add up to its exact balance, rounded. *)
Lemma shareOf_positions ds p :
  shareOf p (calculateNetPositions ds) == roundTo (netOf ds p) 2.
Proof.
  unfold shareOf, calculateNetPositions. rewrite sumOver_map.
  unfold share. cbn [person balance].
  rewrite (sum_at_key (fun v => roundTo v 2)) by apply accumulate_keys.
  pose proof (accumulate_netOf ds p) as Hnet. unfold getOr0 in Hnet.
  destruct (omap_get (accumulate ds) p) as [v|].
  - rewrite (roundTo_ext _ _ 2 Hnet). reflexivity.
  - rewrite <- (roundTo_ext _ _ 2 Hnet). reflexivity.
Qed.

(** [asRecord] of positions of distinct persons is the list itself. *)
Lemma asRecord_distinct nps :
  List.NoDup (List.map person nps) ->
  asRecord nps = List.map (fun np => (person np, balance np)) nps.
Proof.
  unfold asRecord.
  induction nps as [|np nps IH] using rev_ind; intros H; [reflexivity|].
  rewrite List.map_app in H. apply NoDup_ListNoDup, NoDup_app in H as (Hpre & Hsep & _).
  rewrite List.fold_left_app, List.map_app. cbn [List.fold_left List.map].
  rewrite IH by (apply NoDup_ListNoDup, Hpre).
  apply omap_set_fresh. rewrite List.map_map. cbn [fst]. intros Hin.
  apply (Hsep (person np)); [apply list_elem_of_In, Hin|].
  apply list_elem_of_singleton. reflexivity.
Qed.

Lemma calculateNetPositions_persons ds :
  List.NoDup (List.map person (calculateNetPositions ds)).
Proof.
  unfold calculateNetPositions. rewrite List.map_map. cbn [person].
  apply accumulate_keys.
Qed.

(** What [validateOutput] reads for [p] in the record of the positions:
    the exact balance of [p], rounded. *)
Lemma record_of_positions ds p :
  getOr0 (asRecord (calculateNetPositions ds)) p == roundTo (netOf ds p) 2.
Proof.
  rewrite <- shareOf_positions.
  rewrite asRecord_distinct by apply calculateNetPositions_persons.
  pose proof (calculateNetPositions_persons ds) as Hnodup.
  unfold shareOf, share, getOr0.
  induction (calculateNetPositions ds) as [|np nps IH]; [reflexivity|].
  cbn [List.map] in Hnodup. apply List.NoDup_cons_iff in Hnodup as [Hfresh Hnodup].
  cbn [List.map omap_get sumOver].
  destruct (String.eqb (person np) p) eqn:E.
  - rewrite sumOver_zero; [lra|].
    intros np' Hin. destruct (String.eqb (person np') p) eqn:E'; [|reflexivity].
    apply String.eqb_eq in E, E'. exfalso. apply Hfresh. rewrite E, <- E'.
    apply List.in_map, Hin.
  - rewrite IH by exact Hnodup. lra.
Qed.

(** Balances of whole cents. *)
Lemma accumulate_wholeCents ds :
  Forall (fun d => wholeCents (amount d)) ds ->
  Forall (fun e => wholeCents (snd e)) (accumulate ds).
Proof.
  unfold accumulate.
  assert (Hget : forall m k, Forall (fun e => wholeCents (snd e)) m ->
                             wholeCents (getOr0 m k)).
  { intros m k Hm. unfold getOr0. induction Hm as [|[k0 v0] m Hv _ IH]; simpl.
    - apply wholeCents_0.
    - destruct (String.eqb k0 k); [exact Hv | exact IH]. }
  assert (Hset : forall m k v, Forall (fun e => wholeCents (snd e)) m ->
                               wholeCents v ->
                               Forall (fun e => wholeCents (snd e)) (omap_set m k v)).
  { intros m k v Hm Hv. induction Hm as [|[k0 v0] m Hv0 Hm IH]; simpl.
    - constructor; [exact Hv | constructor].
    - destruct (String.eqb k0 k); constructor; assumption. }
  assert (H : forall m, Forall (fun e => wholeCents (snd e)) m ->
              Forall (fun d => wholeCents (amount d)) ds ->
              Forall (fun e => wholeCents (snd e)) (List.fold_left addDebt ds m)).
  { induction ds as [|d ds IH]; intros m Hm Hds; simpl; [exact Hm|].
    apply IH; [|exact (Forall_inv_tail Hds)].
    pose proof (Forall_inv Hds) as Hd. cbv beta in Hd.
    unfold addDebt. apply Hset.
    - apply Hset; [exact Hm|]. apply wholeCents_minus; [apply Hget, Hm | exact Hd].
    - apply wholeCents_plus; [|exact Hd]. apply Hget, Hset; [exact Hm|].
      apply wholeCents_minus; [apply Hget, Hm | exact Hd]. }
  intros Hds. apply H; [constructor | exact Hds].
Qed.

(** With debts of whole cents the rounded positions sum to zero. *)
Lemma positions_sum_zero ds :
  Forall (fun d => wholeCents (amount d)) ds ->
  sumOver balance (calculateNetPositions ds) == 0.
Proof.
  intros Hds. unfold calculateNetPositions. rewrite sumOver_map. cbn [balance].
  rewrite (sumOver_ext _ snd).
  - pose proof (NetPositionFacts.accumulate_sum_from ds []) as Hzero.
    fold (accumulate ds) in Hzero.
    rewrite sumQ_sumOver, sumOver_map in Hzero. rewrite Hzero. reflexivity.
  - intros e He. apply roundTo2_wholeCents.
    pose proof (accumulate_wholeCents ds Hds) as Hall.
    rewrite List.Forall_forall in Hall. apply Hall, He.
Qed.

End PositionFacts.

(** ** The greedy matching settles every position *)

Module ReplayFacts.

Import Money MoneyFacts SumFacts JsMap DebtOptimizer MatchingFacts SettlementFacts.
Import PositionFacts.
Local Open Scope Q_scope.

Lemma positive_sum_empty {A} (f : A -> Q) l :
  (forall x, In x l -> 0 < f x) -> sumOver f l == 0 -> l = [].
Proof.
  destruct l as [|x l]; [reflexivity|]. intros Hpos Hsum. exfalso.
  cbn [sumOver] in Hsum.
  pose proof (Hpos x (or_introl eq_refl)) as Hx.
  assert (Hrest : 0 <= sumOver f l).
  { apply sumOver_nonneg. intros y Hy. apply Qlt_le_weak, Hpos. right. exact Hy. }
  lra.
Qed.

Lemma owed_balance h r : owed h r -> 0 < balanceAt h r.
Proof. intros (np & Hnp & Hpos & _). unfold balanceAt. rewrite Hnp. exact Hpos. Qed.

(** Writing to the object at [r] leaves the other references alone. *)
Lemma insert_elsewhere (h : Heap) r np cs :
  ~ In r cs ->
  (Forall (owed h) cs -> Forall (owed (<[r := np]> h)) cs)
  /\ sumOver (balanceAt (<[r := np]> h)) cs == sumOver (balanceAt h) cs
  /\ forall p, sumOver (held (<[r := np]> h) p) cs == sumOver (held h p) cs.
Proof.
  intros Hfresh.
  assert (Hsame : forall r', In r' cs -> <[r := np]> h !! r' = h !! r').
  { intros r' Hr'. apply list_lookup_insert_ne. intros ->. contradiction. }
  split; [|split].
  - rewrite !List.Forall_forall. intros Hall r' Hr'.
    destruct (Hall r' Hr') as (np' & Hnp' & Hok). exists np'.
    rewrite (Hsame r' Hr'). split; assumption.
  - apply sumOver_ext. intros r' Hr'. unfold balanceAt.
    rewrite (Hsame r' Hr'). reflexivity.
  - intros p. apply sumOver_ext. intros r' Hr'. unfold held.
    rewrite (Hsame r' Hr'). reflexivity.
Qed.

Lemma netOf_push txs t p : netOf (txs ++ [t]) p == netOf txs p + flow p t.
Proof. unfold netOf. rewrite sumOver_app. simpl. lra. Qed.

(** The loop invariant: what has been emitted, and what is still owed,
    add up for every person [p] to what was owed at the start. *)
Lemma matchLoop_settles p : forall fuel h cs ds txs h' txs',
  List.NoDup cs ->
  Forall (owed h) cs ->
  Forall owing ds ->
  sumOver (balanceAt h) cs == sumOver balance ds ->
  matchLoop fuel h cs ds txs = Some (h', txs') ->
  netOf txs' p == netOf txs p + sumOver (held h p) cs - shareOf p ds.
Proof.
  induction fuel as [|fuel IH];
    intros h cs ds txs h' txs' Hnodup Hcs Hds Hsum Hrun.
  all: destruct cs as [|r cs].
  1, 3: assert (Hempty : ds = [])
          by (apply (positive_sum_empty balance);
              [intros x Hx; rewrite List.Forall_forall in Hds; apply Hds, Hx
              |rewrite <- Hsum; reflexivity]);
        subst ds; simpl in Hrun; injection Hrun as _ <-;
        unfold shareOf; simpl; lra.
  all: destruct ds as [|d ds].
  1, 3: exfalso;
        assert (Hempty : r :: cs = [])
          by (apply (positive_sum_empty (balanceAt h));
              [intros x Hx; rewrite List.Forall_forall in Hcs;
               apply owed_balance, Hcs, Hx
              |rewrite Hsum; reflexivity]);
        discriminate.
  { discriminate. }
  pose proof (Forall_inv Hcs) as (c & Hc & Hcpos & Hccents).
  pose proof (Forall_inv_tail Hcs) as Hcs'.
  pose proof (Forall_inv Hds) as [Hdpos Hdcents].
  pose proof (Forall_inv_tail Hds) as Hds'.
  apply List.NoDup_cons_iff in Hnodup as [Hfresh Hnodup'].
  cbn [matchLoop] in Hrun. rewrite Hc in Hrun. cbv zeta in Hrun.
  cbn [sumOver] in Hsum |- *. unfold shareOf in *. cbn [sumOver].
  unfold balanceAt at 1 in Hsum. unfold held at 1. rewrite Hc in Hsum |- *.
  set (a := Math_min (balance c) (balance d)) in *.
  assert (Ha : (a = balance c /\ balance c <= balance d)
               \/ (a = balance d /\ balance d < balance c)).
  { destruct (Math_min_cases (balance c) (balance d)) as [[H1 H2]|[H1 H2]]; auto. }
  assert (Hacents : wholeCents a) by (destruct Ha as [[-> _]|[-> _]]; assumption).
  assert (Hapos : 0 < a) by (destruct Ha as [[-> _]|[-> _]]; assumption).
  assert (Hage : geb a cent = true) by (apply geb_true, wholeCents_pos; assumption).
  pose proof (roundTo2_wholeCents a Hacents) as Hra.
  pose proof (roundTo2_wholeCents _ (wholeCents_minus _ _ Hccents Hacents)) as Hcb.
  pose proof (roundTo2_wholeCents _ (wholeCents_minus _ _ Hdcents Hacents)) as Hdb.
  pose proof (roundTo2_is_wholeCents (balance c - a)) as Hcbcents.
  pose proof (roundTo2_is_wholeCents (balance d - a)) as Hdbcents.
  rewrite Hage in Hrun.
  set (cb := roundTo (balance c - a) 2) in *.
  set (db := roundTo (balance d - a) 2) in *.
  set (tx := mkDebt (person d) (person c) (roundTo a 2)) in *.
  set (h1 := <[r := mkNP (person c) cb]> h) in *.
  assert (Hh1r : h1 !! r = Some (mkNP (person c) cb)).
  { apply list_lookup_insert_eq. apply lookup_lt_Some with c, Hc. }
  destruct (insert_elsewhere h r (mkNP (person c) cb) cs Hfresh)
    as (Hcs1 & Hsum1 & Hheld1).
  fold h1 in Hcs1, Hsum1, Hheld1. specialize (Hcs1 Hcs'). specialize (Hheld1 p).
  assert (Hflow : flow p tx
                  == (if String.eqb (person c) p then a else 0)
                     - (if String.eqb (person d) p then a else 0)).
  { unfold flow, tx. cbn [to from amount].
    destruct (String.eqb (person c) p), (String.eqb (person d) p); lra. }
  assert (Hbc : balance c <= a \/ balance d <= a)
    by (destruct Ha as [[-> _]|[-> _]]; [left|right]; lra).
  assert (Hale : a <= balance c /\ a <= balance d)
    by (destruct Ha as [[-> ?]|[-> ?]]; split; lra).
  clear Ha.
  pose proof (netOf_push txs tx p) as Hpush.
  clearbody h1 tx cb db a.
  destruct (isZero cb) eqn:Zc;
    [apply isZero_true in Zc | apply isZero_false in Zc];
    (destruct (isZero db) eqn:Zd;
     [apply isZero_true in Zd | apply isZero_false in Zd]).
  - apply IH in Hrun; [|exact Hnodup'|exact Hcs1|exact Hds'|rewrite Hsum1; lra].
    unfold share in *.
    destruct (String.eqb (person c) p), (String.eqb (person d) p); lra.
  - apply IH in Hrun; [|exact Hnodup'|exact Hcs1| |].
    + cbn [sumOver] in Hrun. unfold share in *. cbn [person balance] in Hrun.
      destruct (String.eqb (person c) p), (String.eqb (person d) p); lra.
    + constructor; [|exact Hds']. split; cbn [balance]; [lra | exact Hdbcents].
    + rewrite Hsum1. cbn [sumOver balance]. lra.
  - apply IH in Hrun; [|constructor; assumption| |exact Hds'|].
    + cbn [sumOver] in Hrun. unfold held at 1 in Hrun. rewrite Hh1r in Hrun.
      unfold share in *. cbn [person balance] in Hrun.
      destruct (String.eqb (person c) p), (String.eqb (person d) p); lra.
    + constructor; [|exact Hcs1]. exists (mkNP (person c) cb).
      split; [exact Hh1r|]. split; cbn [balance]; [lra | exact Hcbcents].
    + cbn [sumOver]. rewrite Hsum1. unfold balanceAt at 1. rewrite Hh1r.
      cbn [balance]. lra.
  - exfalso. destruct Hbc; [apply Zc | apply Zd]; lra.
Qed.

(** Sums over the references of a heap are sums over its objects. *)
Lemma refs_sum (h : Heap) (f : option NetPosition -> Q) :
  sumOver (fun r => f (h !! r)) (seq 0 (length h))
  = sumOver (fun np => f (Some np)) h.
Proof.
  rewrite <- (sumOver_map (fun r => h !! r) f), heap_refs, sumOver_map.
  reflexivity.
Qed.

(** When no position other than a zero one is forgiven, the creditors and
    the debtors kept carry all there is to carry. *)
Lemma split_by_sign (h : Heap) (g : Ref -> Q) minimum refs :
  (forall r, In r refs -> balanceAt h r == 0 -> g r == 0) ->
  (forall r, In r refs ->
     balanceAt h r == 0 \/ minimum <= Qabs (balanceAt h r)) ->
  sumOver g
    (List.filter (fun r => gtb (balanceAt h r) 0)
       (List.filter (fun r => geb (Qabs (balanceAt h r)) minimum) refs))
  + sumOver g
      (List.filter (fun r => ltb (balanceAt h r) 0)
         (List.filter (fun r => geb (Qabs (balanceAt h r)) minimum) refs))
  == sumOver g refs.
Proof.
  intros Hzero Hkept. rewrite !sumOver_filter, <- sumOver_plus.
  apply sumOver_ext. intros r Hr.
  specialize (Hzero r Hr). specialize (Hkept r Hr).
  destruct (geb (Qabs (balanceAt h r)) minimum) eqn:Ekeep.
  - destruct (gtb (balanceAt h r) 0) eqn:Egt, (ltb (balanceAt h r) 0) eqn:Elt.
    + apply gtb_true in Egt. apply ltb_true in Elt. lra.
    + lra.
    + lra.
    + apply gtb_false in Egt. apply ltb_false in Elt.
      rewrite Hzero by lra. lra.
  - apply geb_false in Ekeep. rewrite Hzero; [lra|].
    destruct Hkept as [Hz|Hge]; [exact Hz | lra].
Qed.

(** The debtor objects carry the balances of their references, negated. *)
Lemma debtor_copies (h : Heap) p refs :
  shareOf p
    (List.map (fun r => mkNP (match h !! r with Some np => person np | None => "" end)
                             (- balanceAt h r)) refs)
  == - sumOver (held h p) refs.
Proof.
  unfold shareOf. rewrite sumOver_map.
  rewrite (sumOver_ext _ (fun r => (- (1)) * held h p r)).
  - rewrite sumOver_scale. ring.
  - intros r _. unfold share, held, balanceAt. cbn [person balance].
    destruct (h !! r) as [np|].
    + unfold share. destruct (String.eqb (person np) p); ring.
    + destruct (String.eqb "" p); ring.
Qed.

Lemma debtor_total (h : Heap) refs :
  sumOver balance
    (List.map (fun r => mkNP (match h !! r with Some np => person np | None => "" end)
                             (- balanceAt h r)) refs)
  == - sumOver (balanceAt h) refs.
Proof.
  rewrite sumOver_map. cbn [balance].
  rewrite (sumOver_ext _ (fun r => (- (1)) * balanceAt h r)).
  - rewrite sumOver_scale. ring.
  - intros r _. ring.
Qed.

(** What [optimizeDebts] emits, for the person [p]. *)
Lemma optimizeDebts_settles (h : Heap) refs h' txs p :
  List.NoDup refs ->
  Forall (fun r => is_Some (h !! r)) refs ->
  Forall (fun np => wholeCents (balance np)) h ->
  sumOver (balanceAt h) (List.filter (fun r => gtb (balanceAt h r) 0) refs)
  + sumOver (balanceAt h) (List.filter (fun r => ltb (balanceAt h r) 0) refs) == 0 ->
  optimizeDebts h refs = Some (h', txs) ->
  netOf txs p
  == sumOver (held h p) (List.filter (fun r => gtb (balanceAt h r) 0) refs)
     + sumOver (held h p) (List.filter (fun r => ltb (balanceAt h r) 0) refs).
Proof.
  intros Hnodup Hvalid Hcents Hsum Hrun. unfold optimizeDebts in Hrun.
  set (pos := List.filter (fun r => gtb (balanceAt h r) 0) refs) in *.
  set (neg := List.filter (fun r => ltb (balanceAt h r) 0) refs) in *.
  set (copy := fun r => mkNP (match h !! r with Some np => person np | None => "" end)
                             (- balanceAt h r)) in *.
  assert (Hcent_at : forall r, is_Some (h !! r) -> wholeCents (balanceAt h r)).
  { intros r [np Hnp]. unfold balanceAt. rewrite Hnp.
    rewrite List.Forall_forall in Hcents. apply Hcents.
    apply list_elem_of_In, list_elem_of_lookup. eauto. }
  rewrite List.Forall_forall in Hvalid.
  apply (matchLoop_settles p) in Hrun.
  - rewrite Hrun. unfold netOf at 1. cbn [sumOver].
    rewrite (sumOver_perm _ _ _ (sortDesc_perm (balanceAt h) pos)).
    unfold shareOf. rewrite (sumOver_perm _ _ _ (sortDesc_perm balance _)).
    fold (shareOf p (List.map copy neg)). unfold copy.
    rewrite debtor_copies. lra.
  - apply NoDup_ListNoDup. rewrite sortDesc_perm.
    apply NoDup_ListNoDup, List.NoDup_filter, Hnodup.
  - rewrite sortDesc_perm. apply List.Forall_forall. intros r Hr.
    apply List.filter_In in Hr as [Hr Hgt]. apply gtb_true in Hgt.
    destruct (Hvalid r Hr) as [np Hnp]. exists np. split; [exact Hnp|].
    pose proof (Hcent_at r (ex_intro _ np Hnp)) as Hc.
    unfold balanceAt in Hgt, Hc. rewrite Hnp in Hgt, Hc. split; assumption.
  - rewrite sortDesc_perm. apply List.Forall_forall. intros np Hnp.
    apply List.in_map_iff in Hnp as (r & <- & Hr).
    apply List.filter_In in Hr as [Hr Hlt]. apply ltb_true in Hlt.
    unfold copy. split; cbn [balance]; [lra|].
    apply wholeCents_opp, Hcent_at, Hvalid, Hr.
  - rewrite (sumOver_perm _ _ _ (sortDesc_perm (balanceAt h) pos)).
    rewrite (sumOver_perm _ _ _ (sortDesc_perm balance _)).
    unfold copy. rewrite debtor_total. lra.
Qed.

Lemma copy_transactions (txs : list Transaction) :
  List.map (fun t => mkDebt (from t) (to t) (amount t)) txs = txs.
Proof.
  induction txs as [|[f t a] txs IH]; simpl; [|rewrite IH]; reflexivity.
Qed.

(** What [validateOutput] reads for [p] in the replay of [txs]. *)
Lemma replay_of_transactions txs p :
  getOr0 (replayBalances txs) p == roundTo (netOf txs p) 2.
Proof.
  unfold replayBalances. rewrite copy_transactions.
  apply record_of_positions.
Qed.

(** C1, as amended.  When the debts are whole numbers of cents and no
    party with a balance other than zero falls under [minimumAmount],
    [execute] returns, and replaying its transactions as debts gives every
    person the balance [calculateNetPositions] computes from the debts. *)
Theorem replay_reproduces_positions (input : DebtOptimizeInput) :
  Forall (fun d => wholeCents (amount d)) (debts input) ->
  Forall (fun np => balance np == 0
                    \/ effectiveMinimum input <= Qabs (balance np))
         (calculateNetPositions (debts input)) ->
  exists out,
    execute input = Some out
    /\ forall p,
         getOr0 (replayBalances (transactions out)) p
         == getOr0 (asRecord (calculateNetPositions (debts input))) p.
Proof.
  intros Hcents Hkept.
  destruct (execute_returns input) as [out Hout]. exists out.
  split; [exact Hout|]. intros p.
  rewrite replay_of_transactions, record_of_positions.
  revert Hout. unfold execute.
  destruct (Nat.eqb (length (debts input)) 0) eqn:Hlen.
  { intros [= <-]. apply Nat.eqb_eq, nil_length_inv in Hlen.
    rewrite Hlen. reflexivity. }
  fold (effectiveMinimum input).
  set (h := calculateNetPositions (debts input)) in *.
  set (refs := seq 0 (length h)).
  set (kept := List.filter _ refs).
  destruct (optimizeDebts h kept) as [[h' txs]|] eqn:Hopt; [|discriminate].
  intros [= <-]. cbn [transactions].
  assert (Hat : forall r, In r refs ->
            balanceAt h r == 0
            \/ effectiveMinimum input <= Qabs (balanceAt h r)).
  { intros r Hr. apply List.in_seq in Hr.
    destruct (lookup_lt_is_Some_2 h r ltac:(lia)) as [np Hnp].
    unfold balanceAt. rewrite Hnp.
    rewrite List.Forall_forall in Hkept. apply Hkept.
    apply list_elem_of_In, list_elem_of_lookup. eauto. }
  assert (Hwhole : Forall (fun np => wholeCents (balance np)) h).
  { apply List.Forall_forall. intros np Hnp. unfold h, calculateNetPositions in Hnp.
    apply List.in_map_iff in Hnp as (e & <- & _). apply roundTo2_is_wholeCents. }
  assert (Htotal : sumOver (balanceAt h) refs == 0).
  { unfold balanceAt, refs.
    rewrite (refs_sum h (fun o => match o with Some np => balance np | None => 0 end)).
    apply positions_sum_zero, Hcents. }
  assert (Hperson : sumOver (held h p) refs == roundTo (netOf (debts input) p) 2).
  { unfold held, refs.
    rewrite (refs_sum h (fun o => match o with Some np => share p np | None => 0 end)).
    apply shareOf_positions. }
  apply (optimizeDebts_settles h kept h' txs p) in Hopt.
  - assert (Hnet : netOf txs p == roundTo (netOf (debts input) p) 2).
    { rewrite Hopt, <- Hperson. apply split_by_sign; [|exact Hat].
      intros r _ Hz. unfold held, balanceAt in *.
      destruct (h !! r) as [np|]; [|reflexivity].
      unfold share. destruct (String.eqb (person np) p); [exact Hz | reflexivity]. }
    rewrite (roundTo_ext _ _ 2 Hnet).
    apply roundTo2_wholeCents, roundTo2_is_wholeCents.
  - apply List.NoDup_filter, List.seq_NoDup.
  - apply Forall_filter_keep, refs_valid.
  - exact Hwhole.
  - rewrite <- Htotal. apply split_by_sign; [|exact Hat]. intros r _ Hz. exact Hz.
Qed.

(** The debts of the sole creditor scenario are whole cents, and every
    balance is above the default [minimumAmount]. *)
Lemma replay_reproduces_positions_witness :
  exists out,
    execute (mkInput [mkDebt "alice" "bob" (2915 # 100);
                      mkDebt "charlie" "bob" (2915 # 100)] None) = Some out
    /\ forall p,
         getOr0 (replayBalances (transactions out)) p
         == getOr0 (asRecord (calculateNetPositions
                                [mkDebt "alice" "bob" (2915 # 100);
                                 mkDebt "charlie" "bob" (2915 # 100)])) p.
Proof.
  apply (replay_reproduces_positions
           (mkInput [mkDebt "alice" "bob" (2915 # 100);
                     mkDebt "charlie" "bob" (2915 # 100)] None)).
  - repeat constructor; exists 2915%Z; reflexivity.
  - apply List.Forall_forall. intros np Hnp. vm_compute in Hnp.
    destruct Hnp as [<-|[<-|[<-|[]]]]; right; vm_compute; discriminate.
Defined.

End ReplayFacts.
Module Scenarios.

Import Money MoneyFacts DebtOptimizer MatchingFacts SettlementFacts Guardrails.
Local Open Scope Q_scope.

(** C8, as amended.  [execute] returns on every input, and every
    transaction it returns has an amount of one cent or more. *)
Theorem transactions_at_least_one_cent (input : DebtOptimizeInput) :
  exists out,
    execute input = Some out
    /\ Forall (fun t => cent <= amount t) (transactions out).
Proof.
  destruct (execute_returns input) as [out Hout].
  exists out. split; [exact Hout | apply execute_amounts with input, Hout].
Qed.

(** C8, as stated, fails: with the default [minimumAmount], the debts
    A→B 1.00, A→C 0.01, D→C 0.50 are settled by three transactions, and
    the second, A→C, is of exactly one cent. *)
Lemma one_cent_transaction_emitted :
  exists out t,
    execute (mkInput [mkDebt "A" "B" 1; mkDebt "A" "C" (1 # 100);
                      mkDebt "D" "C" (1 # 2)] None) = Some out
    /\ In t (transactions out)
    /\ ~ cent < amount t.
Proof.
  eexists. exists (mkDebt "A" "C" (1 # 100)).
  split; [vm_compute; reflexivity|].
  split; [right; left; reflexivity|].
  vm_compute. discriminate.
Qed.

(** C3.  On the scenario of the sole creditor, [calculateNetPositions]
    gives bob 58.30 and [execute] reports two transactions, but the balance
    it reports for bob is [0], the creditor object having been settled in
    place by [optimizeDebts]; [validateOutput] then rejects the output at
    bob. *)
Theorem sole_creditor_scenario :
  exists out,
    execute (mkInput [mkDebt "alice" "bob" (2915 # 100);
                      mkDebt "charlie" "bob" (2915 # 100)] None) = Some out
    /\ calculateNetPositions [mkDebt "alice" "bob" (2915 # 100);
                              mkDebt "charlie" "bob" (2915 # 100)]
       = [mkNP "alice" (- (583 # 20)); mkNP "bob" (583 # 10);
          mkNP "charlie" (- (583 # 20))]
    /\ optimizedTransactions out = 2%Z
    /\ transactions out
       = [mkDebt "alice" "bob" (583 # 20); mkDebt "charlie" "bob" (583 # 20)]
    /\ balances out = [("alice", - (583 # 20)); ("bob", 0); ("charlie", - (583 # 20))]
    /\ validateOutput out = Some "bob".
Proof.
  eexists. split; [vm_compute; reflexivity|].
  repeat split; vm_compute; reflexivity.
Qed.

(** C2.  On the scenario of the sole creditor the balances that
    [calculateNetPositions] computes sum to [0], but the map [execute]
    returns does not: the creditor is written to by [optimizeDebts] before
    [balances] is built (the defect of C3), so the returned balances sum to
    [-58.30], far from the rounding tolerance of half a cent per party. *)
Theorem returned_balances_do_not_sum_to_zero :
  exists out,
    execute (mkInput [mkDebt "alice" "bob" (2915 # 100);
                      mkDebt "charlie" "bob" (2915 # 100)] None) = Some out
    /\ sumQ (List.map balance
               (calculateNetPositions [mkDebt "alice" "bob" (2915 # 100);
                                       mkDebt "charlie" "bob" (2915 # 100)])) == 0
    /\ sumQ (List.map snd (balances out)) == - (583 # 10)
    /\ ~ Qabs (sumQ (List.map snd (balances out))) <= 3 * (1 # 200).
Proof.
  eexists. split; [vm_compute; reflexivity|].
  split; [vm_compute; reflexivity|].
  split; [vm_compute; reflexivity|].
  vm_compute. intros H. apply H. reflexivity.
Qed.

(** C10.  On an empty list of debts [execute] returns the empty output,
    whatever [minimumAmount] is; [validateOutput] accepts it, so [run] with
    the guardrails of a [DebtOptimizerAgent] returns it too.  The business
    rule guardrail is what rejects an empty list, when it is registered. *)
Theorem empty_input_is_settled (m : option Q) :
  execute (mkInput [] m) = Some (mkOutput 0 0 [] 0 0 [])
  /\ run DebtOptimizerAgent_guardrails (mkInput [] m)
     = Some (inr (mkOutput 0 0 [] 0 0 []))
  /\ BusinessLogicGuardrail_validate (mkInput [] m)
     = mkValidation false (Some "At least one debt is required")
  /\ run [("BusinessLogic", BusinessLogicGuardrail_validate)] (mkInput [] m)
     = Some (inl "Input validation failed [BusinessLogic]: At least one debt is required").
Proof. repeat split. Qed.

(** C1, as stated, fails: the debt A→B 0.25 is below the default
    [minimumAmount], so no transaction is emitted; the replay gives B the
    balance [0], a quarter away from its net position, and [validateOutput]
    rejects the output [execute] produced. *)
Lemma forgiven_debt_is_not_replayed :
  exists out,
    execute (mkInput [mkDebt "A" "B" (1 # 4)] None) = Some out
    /\ ~ Qabs (getOr0 (asRecord (calculateNetPositions [mkDebt "A" "B" (1 # 4)])) "B"
               - getOr0 (replayBalances (transactions out)) "B") <= cent
    /\ validateOutput out <> None.
Proof.
  eexists. split; [vm_compute; reflexivity|].
  split; [vm_compute; intros H; apply H; reflexivity | vm_compute; discriminate].
Qed.

(** Amounts under a cent are not replayed either, even when nothing is
    forgiven: five debts of 0.004 to B leave B with 0.02 and every debtor
    with a balance that rounds to 0, so no transaction is emitted. *)
Lemma sub_cent_debts_are_not_replayed :
  exists out,
    execute (mkInput [mkDebt "A1" "B" (4 # 1000); mkDebt "A2" "B" (4 # 1000);
                      mkDebt "A3" "B" (4 # 1000); mkDebt "A4" "B" (4 # 1000);
                      mkDebt "A5" "B" (4 # 1000)] (Some 0)) = Some out
    /\ transactions out = []
    /\ getOr0 (asRecord (calculateNetPositions
                 [mkDebt "A1" "B" (4 # 1000); mkDebt "A2" "B" (4 # 1000);
                  mkDebt "A3" "B" (4 # 1000); mkDebt "A4" "B" (4 # 1000);
                  mkDebt "A5" "B" (4 # 1000)])) "B" = 1 # 50.
Proof.
  eexists. split; [vm_compute; reflexivity|].
  split; vm_compute; reflexivity.
Qed.

End Scenarios.

(** ** Net positions, party by party *)

Module LedgerFacts.

Import Money JsMap DebtOptimizer Ledger.
Import MoneyFacts JsMapFacts SumFacts PositionFacts.
Local Open Scope Q_scope.

Lemma omap_get_In {V : Type} (m : list (string * V)) k v :
  omap_get m k = Some v -> In (k, v) m.
Proof.
  induction m as [|[k' v'] m IH]; cbn [omap_get]; [discriminate|].
  destruct (String.eqb k' k) eqn:Heq.
  - apply String.eqb_eq in Heq as ->. intros [= ->]. left. reflexivity.
  - intros Hget. right. apply IH, Hget.
Qed.

Lemma omap_get_distinct {V : Type} (m : list (string * V)) k v :
  List.NoDup (List.map fst m) -> In (k, v) m -> omap_get m k = Some v.
Proof.
  induction m as [|[k' v'] m IH]; cbn [omap_get List.map fst]; [intros _ []|].
  intros Hnodup [[= -> ->]|Hin].
  - rewrite String.eqb_refl. reflexivity.
  - apply List.NoDup_cons_iff in Hnodup as [Hfresh Hnodup].
    destruct (String.eqb k' k) eqn:Heq; [|apply IH; assumption].
    apply String.eqb_eq in Heq as ->. exfalso. apply Hfresh.
    apply (List.in_map fst) in Hin. exact Hin.
Qed.

(** [set] keeps the place of a key that is present and appends a new one. *)
Lemma omap_set_order {V : Type} (m : list (string * V)) k v :
  List.map fst (omap_set m k v)
  = if bool_decide (k ∈ List.map fst m) then List.map fst m
    else List.map fst m ++ [k].
Proof.
  induction m as [|[k' v'] m IH]; cbn [omap_set List.map fst]; [reflexivity|].
  destruct (String.eqb k' k) eqn:Heq.
  - apply String.eqb_eq in Heq as ->.
    rewrite bool_decide_eq_true_2 by (left). reflexivity.
  - apply String.eqb_neq in Heq. cbn [List.map fst]. rewrite IH.
    destruct (bool_decide_reflect (k ∈ List.map fst m)) as [Hin|Hout].
    + rewrite bool_decide_eq_true_2 by (right; exact Hin). reflexivity.
    + rewrite bool_decide_eq_false_2; [reflexivity|].
      intros Hin. apply elem_of_cons in Hin as [->|Hin]; contradiction.
Qed.

Lemma accumulate_order ds m :
  List.map fst (List.fold_left addDebt ds m)
  = List.fold_left (fun seen x => if bool_decide (x ∈ seen) then seen else seen ++ [x])
      (List.flat_map (fun d => [from d; to d]) ds) (List.map fst m).
Proof.
  revert m. induction ds as [|d ds IH]; intros m; [reflexivity|].
  cbn [List.fold_left List.flat_map app]. rewrite IH. unfold addDebt.
  rewrite !omap_set_order. reflexivity.
Qed.

Lemma firstSeen_from (l : list string) : forall seen : list string,
  List.NoDup seen ->
  List.NoDup (List.fold_left
                (fun seen x => if bool_decide (x ∈ seen) then seen else seen ++ [x])
                l seen)
  /\ forall p,
       In p (List.fold_left
               (fun seen x => if bool_decide (x ∈ seen) then seen else seen ++ [x])
               l seen)
       <-> In p seen \/ In p l.
Proof.
  induction l as [|x l IH]; intros seen Hseen; cbn [List.fold_left].
  - split; [exact Hseen|]. intros p. cbn [In]. tauto.
  - destruct (bool_decide_reflect (x ∈ seen)) as [Hin|Hout].
    + destruct (IH seen Hseen) as [Hnodup Hmem]. split; [exact Hnodup|].
      intros p. rewrite Hmem. cbn [In]. apply list_elem_of_In in Hin.
      split; [tauto|]. intros [Hp|[<-|Hp]]; tauto.
    + assert (Hseen' : List.NoDup (seen ++ [x])).
      { apply NoDup_ListNoDup, NoDup_app. split; [apply NoDup_ListNoDup, Hseen|].
        split; [|apply NoDup_singleton].
        intros y Hy Hx. apply list_elem_of_singleton in Hx as ->. contradiction. }
      destruct (IH (seen ++ [x]) Hseen') as [Hnodup Hmem]. split; [exact Hnodup|].
      intros p. rewrite Hmem, List.in_app_iff. cbn [In]. tauto.
Qed.

Lemma positions_order ds :
  List.map person (calculateNetPositions ds) = parties ds.
Proof.
  unfold calculateNetPositions, parties, firstSeen, accumulate.
  rewrite List.map_map. cbn [person]. apply accumulate_order.
Qed.

(** X6.  [calculateNetPositions] returns one position for every party named
    in a debt, in the order in which the debts name them first, and the
    balance of a party is what the debts bring it less what they take from
    it, rounded to cents. *)
Theorem net_positions_by_party ds :
  List.map person (calculateNetPositions ds) = parties ds
  /\ List.NoDup (parties ds)
  /\ (forall p, In p (parties ds)
                <-> exists d, In d ds /\ (from d = p \/ to d = p))
  /\ forall np, In np (calculateNetPositions ds) ->
                balance np = roundTo (netOf ds (person np)) 2.
Proof.
  split; [apply positions_order|].
  destruct (firstSeen_from (List.flat_map (fun d => [from d; to d]) ds) []
              ltac:(constructor)) as [Hnodup Hmem].
  split; [exact Hnodup|]. split.
  - intros p. unfold parties, firstSeen. rewrite Hmem, List.in_flat_map.
    cbn [In]. split.
    + intros [[]|(d & Hd & Hp)]. exists d. tauto.
    + intros (d & Hd & Hp). right. exists d. tauto.
  - intros np Hnp. unfold calculateNetPositions in Hnp.
    apply List.in_map_iff in Hnp as ([k v] & <- & Hin). cbn [person balance fst snd].
    apply roundTo_ext. rewrite <- accumulate_netOf. unfold getOr0.
    rewrite (omap_get_distinct _ _ _ (accumulate_keys ds) Hin). reflexivity.
Qed.

End LedgerFacts.

(** ** What the matching loop pays, receives and leaves behind *)

Module AccountFacts.

Import Money JsMap DebtOptimizer Ledger.
Import MoneyFacts JsMapFacts SumFacts MatchingFacts SettlementFacts.
Import PositionFacts ReplayFacts LedgerFacts ObjectOrderFacts.
Local Open Scope Q_scope.

Lemma paid_push txs t p :
  paid p (txs ++ [t]) == paid p txs + (if String.eqb (from t) p then amount t else 0).
Proof. unfold paid. rewrite sumOver_app. cbn [sumOver]. lra. Qed.

Lemma received_push txs t p :
  received p (txs ++ [t])
  == received p txs + (if String.eqb (to t) p then amount t else 0).
Proof. unfold received. rewrite sumOver_app. cbn [sumOver]. lra. Qed.


Lemma insert_same_person (h : Heap) : forall r c b,
  h !! r = Some c ->
  List.map person (<[r := mkNP (person c) b]> h) = List.map person h.
Proof.
  induction h as [|np h IH]; intros [|r] c b Hc; try discriminate.
  - injection Hc as ->. reflexivity.
  - cbn. f_equal. apply IH, Hc.
Qed.

Lemma share_nonneg p np : owing np -> 0 <= share p np.
Proof.
  intros [Hpos _]. unfold share. destruct (String.eqb (person np) p); lra.
Qed.

Lemma shareOf_nonneg p ds : Forall owing ds -> 0 <= shareOf p ds.
Proof.
  intros Hds. apply sumOver_nonneg. intros np Hnp.
  rewrite List.Forall_forall in Hds. apply share_nonneg, Hds, Hnp.
Qed.

(** The loop of [optimizeDebts], account by account: the objects keep their
    persons, only the creditors still in line are written to, and their
    balances go down to what the transactions have not yet brought them; a
    debtor pays at most the balance of its copy; and the loop ends with the
    creditors at zero or with every debtor having paid in full. *)
Lemma matchLoop_accounts : forall fuel h cs ds txs h' txs',
  List.NoDup cs ->
  Forall (owed h) cs ->
  Forall owing ds ->
  matchLoop fuel h cs ds txs = Some (h', txs') ->
  List.map person h' = List.map person h
  /\ (forall r, ~ In r cs -> h' !! r = h !! r)
  /\ (forall r, In r cs -> 0 <= balanceAt h' r <= balanceAt h r)
  /\ (forall p, received p txs'
                == received p txs + sumOver (held h p) cs - sumOver (held h' p) cs)
  /\ (forall p, paid p txs <= paid p txs' <= paid p txs + shareOf p ds)
  /\ ((forall r, In r cs -> balanceAt h' r == 0)
      \/ (forall p, paid p txs' == paid p txs + shareOf p ds)).
Proof.
  induction fuel as [|fuel IH];
    intros h cs ds txs h' txs' Hnodup Hcs Hds Hrun.
  all: destruct cs as [|r cs].
  1, 3: simpl in Hrun; injection Hrun as <- <-;
        refine (conj eq_refl (conj (fun _ _ => eq_refl) (conj _ (conj _ (conj _ _)))));
        [intros r []
        |intros p; cbn [sumOver]; lra
        |intros p; pose proof (shareOf_nonneg p ds Hds); lra
        |left; intros r []].
  all: destruct ds as [|d ds].
  1, 3: simpl in Hrun; injection Hrun as <- <-;
        refine (conj eq_refl (conj (fun _ _ => eq_refl) (conj _ (conj _ (conj _ _)))));
        [intros r0 Hr0; rewrite List.Forall_forall in Hcs;
         pose proof (owed_balance _ _ (Hcs r0 Hr0)); lra
        |intros p; lra
        |intros p; unfold shareOf; cbn [sumOver]; lra
        |right; intros p; unfold shareOf; cbn [sumOver]; lra].
  { discriminate. }
  pose proof (Forall_inv Hcs) as (c & Hc & Hcpos & Hccents).
  pose proof (Forall_inv_tail Hcs) as Hcs'.
  pose proof (Forall_inv Hds) as [Hdpos Hdcents].
  pose proof (Forall_inv_tail Hds) as Hds'.
  apply List.NoDup_cons_iff in Hnodup as [Hfresh Hnodup'].
  cbn [matchLoop] in Hrun. rewrite Hc in Hrun. cbv zeta in Hrun.
  set (a := Math_min (balance c) (balance d)) in *.
  assert (Ha : (a = balance c /\ balance c <= balance d)
               \/ (a = balance d /\ balance d < balance c)).
  { destruct (Math_min_cases (balance c) (balance d)) as [[H1 H2]|[H1 H2]]; auto. }
  assert (Hacents : wholeCents a) by (destruct Ha as [[-> _]|[-> _]]; assumption).
  assert (Hapos : 0 < a) by (destruct Ha as [[-> _]|[-> _]]; assumption).
  assert (Hage : geb a cent = true) by (apply geb_true, wholeCents_pos; assumption).
  pose proof (roundTo2_wholeCents a Hacents) as Hra.
  pose proof (roundTo2_wholeCents _ (wholeCents_minus _ _ Hccents Hacents)) as Hcb.
  pose proof (roundTo2_wholeCents _ (wholeCents_minus _ _ Hdcents Hacents)) as Hdb.
  pose proof (roundTo2_is_wholeCents (balance c - a)) as Hcbcents.
  pose proof (roundTo2_is_wholeCents (balance d - a)) as Hdbcents.
  rewrite Hage in Hrun.
  set (cb := roundTo (balance c - a) 2) in *.
  set (db := roundTo (balance d - a) 2) in *.
  set (tx := mkDebt (person d) (person c) (roundTo a 2)) in *.
  set (h1 := <[r := mkNP (person c) cb]> h) in *.
  assert (Hh1r : h1 !! r = Some (mkNP (person c) cb)).
  { apply list_lookup_insert_eq. apply lookup_lt_Some with c, Hc. }
  assert (Hh1 : forall r0, r0 <> r -> h1 !! r0 = h !! r0).
  { intros r0 Hne. apply list_lookup_insert_ne. congruence. }
  destruct (insert_elsewhere h r (mkNP (person c) cb) cs Hfresh)
    as (Hcs1 & _ & Hheld1).
  fold h1 in Hcs1, Hheld1. specialize (Hcs1 Hcs').
  assert (Hale : a <= balance c /\ a <= balance d)
    by (destruct Ha as [[-> ?]|[-> ?]]; split; lra).
  clear Ha.
  pose proof (insert_same_person h r c cb Hc) as Hpersons. fold h1 in Hpersons.
  set (cs1 := if isZero cb then cs else r :: cs) in *.
  set (ds1 := if isZero db then ds else mkNP (person d) db :: ds) in *.
  assert (Hnodup1 : List.NoDup cs1).
  { unfold cs1. destruct (isZero cb); [exact Hnodup'|constructor; assumption]. }
  assert (Hsub : forall r0, In r0 cs -> In r0 cs1).
  { intros r0 Hr0. unfold cs1. destruct (isZero cb); [exact Hr0|right; exact Hr0]. }
  assert (Hsup : forall r0, In r0 cs1 -> In r0 (r :: cs)).
  { intros r0 Hr0. unfold cs1 in Hr0. destruct (isZero cb); [right|]; exact Hr0. }
  assert (Howed1 : Forall (owed h1) cs1).
  { unfold cs1. destruct (isZero cb) eqn:Zc; [exact Hcs1|].
    apply isZero_false in Zc. constructor; [|exact Hcs1].
    exists (mkNP (person c) cb). split; [exact Hh1r|].
    split; cbn [balance]; [clearbody cb a; lra | exact Hcbcents]. }
  assert (Howing1 : Forall owing ds1).
  { unfold ds1. destruct (isZero db) eqn:Zd; [exact Hds'|].
    apply isZero_false in Zd. constructor; [|exact Hds'].
    split; cbn [balance]; [clearbody db a; lra | exact Hdbcents]. }
  assert (Hshare : forall p,
            (if String.eqb (person d) p then a else 0) + shareOf p ds1
            == shareOf p (d :: ds)).
  { intros p. unfold ds1, shareOf.
    destruct (isZero db) eqn:Zd;
      [apply isZero_true in Zd | apply isZero_false in Zd];
      cbn [sumOver]; unfold share; cbn [person balance];
      clearbody db a; destruct (String.eqb (person d) p); lra. }
  destruct (IH _ _ _ _ _ _ Hnodup1 Howed1 Howing1 Hrun)
    as (I1 & I2 & I3 & I4 & I5 & I6).
  assert (Hleft : isZero cb = true -> h' !! r = Some (mkNP (person c) cb)).
  { intros Zc. rewrite I2; [exact Hh1r|].
    unfold cs1. destruct (isZero cb); [exact Hfresh | discriminate]. }
  assert (Hbal_r : 0 <= balanceAt h' r <= cb).
  { destruct (isZero cb) eqn:Zc.
    - unfold balanceAt. rewrite (Hleft eq_refl). cbn [balance].
      apply isZero_true in Zc. clearbody cb. lra.
    - assert (Hin : In r cs1) by (unfold cs1; rewrite ?Zc; left; reflexivity).
      pose proof (I3 r Hin) as Hr.
      replace (balanceAt h1 r) with cb in Hr
        by (unfold balanceAt; rewrite Hh1r; reflexivity).
      exact Hr. }
  assert (Hheld_r : forall p,
            (if String.eqb (person c) p then a else 0)
            + sumOver (held h1 p) cs1 - sumOver (held h' p) cs1
            == held h p r + sumOver (held h p) cs
               - (held h' p r + sumOver (held h' p) cs)).
  { intros p. specialize (Hheld1 p).
    replace (held h p r) with (share p c)
      by (unfold held; rewrite Hc; reflexivity).
    unfold cs1. destruct (isZero cb) eqn:Zc.
    - replace (held h' p r) with (share p (mkNP (person c) cb))
        by (unfold held; rewrite (Hleft eq_refl); reflexivity).
      unfold share. cbn [person balance]. apply isZero_true in Zc.
      clearbody cb a h1. destruct (String.eqb (person c) p); lra.
    - cbn [sumOver].
      replace (held h1 p r) with (share p (mkNP (person c) cb))
        by (unfold held; rewrite Hh1r; reflexivity).
      unfold share. cbn [person balance].
      clearbody cb a h1. destruct (String.eqb (person c) p); lra. }
  refine (conj _ (conj _ (conj _ (conj _ (conj _ _))))).
  - rewrite I1. exact Hpersons.
  - intros r0 Hr0. rewrite I2 by (intros Hin; apply Hr0, Hsup, Hin).
    apply Hh1. intros ->. apply Hr0. left. reflexivity.
  - intros r0 [<-|Hr0].
    + replace (balanceAt h r) with (balance c)
        by (unfold balanceAt; rewrite Hc; reflexivity).
      clearbody cb a. lra.
    + pose proof (I3 r0 (Hsub r0 Hr0)) as Hr.
      replace (balanceAt h1 r0) with (balanceAt h r0) in Hr; [exact Hr|].
      unfold balanceAt. rewrite Hh1 by (intros ->; contradiction). reflexivity.
  - intros p. rewrite I4, received_push. unfold tx. cbn [to amount sumOver].
    specialize (Hheld_r p). clearbody cb a h1 cs1.
    destruct (String.eqb (person c) p); lra.
  - intros p. specialize (I5 p). specialize (Hshare p).
    rewrite paid_push in I5. unfold tx in I5. cbn [from amount] in I5.
    assert (0 <= if String.eqb (person d) p then a else 0)
      by (destruct (String.eqb (person d) p); lra).
    destruct (String.eqb (person d) p); clearbody a; lra.
  - destruct I6 as [I6|I6]; [left|right].
    + intros r0 [<-|Hr0]; [|apply I6, Hsub, Hr0].
      destruct (isZero cb) eqn:Zc.
      * unfold balanceAt. rewrite (Hleft eq_refl). apply isZero_true, Zc.
      * apply I6. unfold cs1. rewrite ?Zc. left. reflexivity.
    + intros p. rewrite I6, paid_push. unfold tx. cbn [from amount].
      specialize (Hshare p). clearbody a. destruct (String.eqb (person d) p); lra.
Qed.

Lemma matchLoop_cents fuel : forall h cs ds txs h' txs',
  matchLoop fuel h cs ds txs = Some (h', txs') ->
  Forall (fun np => wholeCents (balance np)) h ->
  Forall (fun t => wholeCents (amount t)) txs ->
  Forall (fun np => wholeCents (balance np)) h'
  /\ Forall (fun t => wholeCents (amount t)) txs'.
Proof.
  induction fuel as [|fuel IH]; intros h cs ds txs h' txs' Hrun Hh Htxs.
  all: destruct cs as [|r cs];
    [simpl in Hrun; injection Hrun as <- <-; split; assumption|].
  all: destruct ds as [|d ds];
    [simpl in Hrun; injection Hrun as <- <-; split; assumption|].
  { discriminate. }
  cbn [matchLoop] in Hrun.
  destruct (h !! r) as [creditor|]; [|discriminate]. cbv zeta in Hrun.
  apply IH in Hrun; [exact Hrun| |].
  - apply Forall_insert; [exact Hh|]. cbn [balance]. apply roundTo2_is_wholeCents.
  - destruct (geb _ cent); [|exact Htxs].
    apply Forall_app. split; [exact Htxs|].
    constructor; [|constructor]. cbn [amount]. apply roundTo2_is_wholeCents.
Qed.

Lemma same_persons (h h' : Heap) :
  List.map person h' = List.map person h ->
  forall r np, h !! r = Some np ->
               exists np', h' !! r = Some np' /\ person np' = person np.
Proof.
  revert h'. induction h as [|x h IH]; intros [|x' h'] Heq r np Hr;
    try discriminate.
  injection Heq as Hx Heq. destruct r as [|r].
  - injection Hr as <-. exists x'. split; [reflexivity | exact Hx].
  - apply (IH h' Heq r np Hr).
Qed.

Lemma optimizeDebts_accounts (h : Heap) refs h' txs :
  List.NoDup refs ->
  Forall (fun r => is_Some (h !! r)) refs ->
  Forall (fun np => wholeCents (balance np)) h ->
  optimizeDebts h refs = Some (h', txs) ->
  List.map person h' = List.map person h
  /\ Forall (fun np => wholeCents (balance np)) h'
  /\ Forall (fun t => wholeCents (amount t)) txs
  /\ (forall r, ~ In r (List.filter (fun r => gtb (balanceAt h r) 0) refs) ->
                h' !! r = h !! r)
  /\ (forall p, 0 <= sumOver (held h' p) (List.filter (fun r => gtb (balanceAt h r) 0) refs))
  /\ (forall p, received p txs
                == sumOver (held h p) (List.filter (fun r => gtb (balanceAt h r) 0) refs)
                   - sumOver (held h' p) (List.filter (fun r => gtb (balanceAt h r) 0) refs))
  /\ (forall p, 0 <= paid p txs
                <= - sumOver (held h p) (List.filter (fun r => ltb (balanceAt h r) 0) refs))
  /\ ((forall p, sumOver (held h' p) (List.filter (fun r => gtb (balanceAt h r) 0) refs) == 0)
      \/ (forall p, paid p txs
                    == - sumOver (held h p)
                           (List.filter (fun r => ltb (balanceAt h r) 0) refs))).
Proof.
  intros Hnodup Hvalid Hcents Hrun. unfold optimizeDebts in Hrun.
  set (pos := List.filter (fun r => gtb (balanceAt h r) 0) refs) in *.
  set (neg := List.filter (fun r => ltb (balanceAt h r) 0) refs) in *.
  set (copy := fun r => mkNP (match h !! r with Some np => person np | None => "" end)
                             (- balanceAt h r)) in *.
  assert (Hcent_at : forall r, is_Some (h !! r) -> wholeCents (balanceAt h r)).
  { intros r [np Hnp]. unfold balanceAt. rewrite Hnp.
    rewrite List.Forall_forall in Hcents. apply Hcents.
    apply list_elem_of_In, list_elem_of_lookup. eauto. }
  rewrite List.Forall_forall in Hvalid.
  destruct (matchLoop_cents _ _ _ _ _ _ _ Hrun Hcents ltac:(constructor))
    as [Hcents' Htxs].
  apply matchLoop_accounts in Hrun as (I1 & I2 & I3 & I4 & I5 & I6).
  - assert (Hin : forall r, In r (sortDesc (balanceAt h) pos) <-> In r pos).
    { intros r. rewrite <- !list_elem_of_In. rewrite sortDesc_perm. reflexivity. }
    assert (Hheld' : forall p r, In r pos ->
              0 <= held h' p r /\ (balanceAt h' r == 0 -> held h' p r == 0)).
    { intros p r Hr. pose proof (I3 r (proj2 (Hin r) Hr)) as Hb.
      unfold held, balanceAt in *. destruct (h' !! r) as [np'|]; [|split; lra].
      unfold share. destruct (String.eqb (person np') p); split; lra. }
    refine (conj I1 (conj Hcents' (conj Htxs (conj _ (conj _ (conj _ (conj _ _))))))).
    + intros r Hr. apply I2. rewrite Hin. exact Hr.
    + intros p. apply sumOver_nonneg. intros r Hr. apply Hheld', Hr.
    + intros p. rewrite I4.
      rewrite !(sumOver_perm _ _ _ (sortDesc_perm (balanceAt h) pos)).
      change (received p []) with 0. lra.
    + intros p. specialize (I5 p). unfold shareOf in I5.
      rewrite (sumOver_perm _ _ _ (sortDesc_perm balance _)) in I5.
      fold (shareOf p (List.map copy neg)) in I5. unfold copy in I5.
      rewrite debtor_copies in I5. change (paid p []) with 0 in I5. lra.
    + destruct I6 as [I6|I6]; [left|right]; intros p.
      * apply sumOver_zero. intros r Hr. apply Hheld'; [exact Hr|].
        apply I6, Hin, Hr.
      * rewrite I6. unfold shareOf.
        rewrite (sumOver_perm _ _ _ (sortDesc_perm balance _)).
        fold (shareOf p (List.map copy neg)). unfold copy.
        rewrite debtor_copies. change (paid p []) with 0. lra.
  - apply NoDup_ListNoDup. rewrite sortDesc_perm.
    apply NoDup_ListNoDup, List.NoDup_filter, Hnodup.
  - rewrite sortDesc_perm. apply List.Forall_forall. intros r Hr.
    apply List.filter_In in Hr as [Hr Hgt]. apply gtb_true in Hgt.
    destruct (Hvalid r Hr) as [np Hnp]. exists np. split; [exact Hnp|].
    pose proof (Hcent_at r (ex_intro _ np Hnp)) as Hc.
    unfold balanceAt in Hgt, Hc. rewrite Hnp in Hgt, Hc. split; assumption.
  - rewrite sortDesc_perm. apply List.Forall_forall. intros np Hnp.
    apply List.in_map_iff in Hnp as (r & <- & Hr).
    apply List.filter_In in Hr as [Hr Hlt]. apply ltb_true in Hlt.
    unfold copy. split; cbn [balance]; [lra|].
    apply wholeCents_opp, Hcent_at, Hvalid, Hr.
Qed.

(** *** From the heap to the parties *)

Lemma sum_by_position ds p (phi : Q -> Q) :
  phi 0 == 0 ->
  sumOver (fun np => if String.eqb (person np) p then phi (balance np) else 0)
    (calculateNetPositions ds)
  == phi (position ds p).
Proof.
  intros Hphi. unfold calculateNetPositions, position. rewrite sumOver_map.
  cbn [person balance].
  rewrite (sum_at_key (fun v => phi (roundTo v 2))) by apply accumulate_keys.
  pose proof (accumulate_netOf ds p) as Hnet. unfold getOr0 in Hnet.
  destruct (omap_get (accumulate ds) p) as [v|].
  - rewrite (roundTo_ext _ _ 2 Hnet). reflexivity.
  - rewrite <- (roundTo_ext _ _ 2 Hnet). change (roundTo 0 2) with 0.
    symmetry. exact Hphi.
Qed.

Lemma held_selected (h : Heap) minimum p (sel : Q -> bool) :
  sumOver (held h p)
    (List.filter (fun r => sel (balanceAt h r))
       (List.filter (fun r => geb (Qabs (balanceAt h r)) minimum)
          (seq 0 (length h))))
  == sumOver
       (fun np => if String.eqb (person np) p
                  then (if geb (Qabs (balance np)) minimum && sel (balance np)
                        then balance np else 0)
                  else 0) h.
Proof.
  rewrite !sumOver_filter.
  set (f := fun o : option NetPosition =>
              let b := match o with Some np => balance np | None => 0 end in
              if geb (Qabs b) minimum
              then if sel b then match o with Some np => share p np | None => 0 end
                   else 0
              else 0).
  rewrite (sumOver_ext _ (fun r => f (h !! r))) by (intros r _; reflexivity).
  rewrite refs_sum. apply sumOver_ext. intros np _. unfold f, share. cbv zeta.
  destruct (String.eqb (person np) p), (geb (Qabs (balance np)) minimum),
    (sel (balance np)); reflexivity.
Qed.

Lemma sumOver_patch {A} (f g : A -> Q) (q1 q2 : A -> bool) l :
  (forall x, In x l -> q1 x && q2 x = false -> f x == g x) ->
  sumOver f l
  == sumOver g l - sumOver g (List.filter q2 (List.filter q1 l))
     + sumOver f (List.filter q2 (List.filter q1 l)).
Proof.
  induction l as [|x l IH]; intros H; cbn [sumOver List.filter]; [lra|].
  specialize (IH (fun y Hy => H y (or_intror Hy))).
  pose proof (H x (or_introl eq_refl)) as Hx.
  destruct (q1 x); cbn [List.filter]; [destruct (q2 x); cbn [sumOver]|].
  - lra.
  - specialize (Hx eq_refl). lra.
  - specialize (Hx eq_refl). lra.
Qed.

Lemma fold_left_map_arg {A B C} (f : A -> B -> A) (g : C -> B) l a :
  List.fold_left f (List.map g l) a = List.fold_left (fun a x => f a (g x)) l a.
Proof. revert a. induction l as [|x l IH]; intros a; [reflexivity | apply IH]. Qed.

(** [balances] as [execute] builds it from the objects after the loop. *)
Lemma balances_of_heap (h' : Heap) :
  List.NoDup (List.map person h') ->
  List.fold_left
    (fun b r =>
       match h' !! r with
       | Some np => omap_set b (person np) (roundTo (balance np) 2)
       | None => b
       end)
    (seq 0 (length h')) []
  = List.map (fun np => (person np, roundTo (balance np) 2)) h'.
Proof.
  intros Hnodup.
  rewrite <- (fold_left_map_arg
                (fun b o => match o with
                            | Some np => omap_set b (person np) (roundTo (balance np) 2)
                            | None => b
                            end)
                (fun r => h' !! r)).
  rewrite heap_refs, fold_left_map_arg.
  pose proof (asRecord_distinct
                (List.map (fun np => mkNP (person np) (roundTo (balance np) 2)) h'))
    as Hrec.
  unfold asRecord in Hrec. rewrite fold_left_map_arg, !List.map_map in Hrec.
  cbn [person balance] in Hrec. apply Hrec, Hnodup.
Qed.

Lemma sumOver_wholeCents {A} (f : A -> Q) l :
  Forall (fun x => wholeCents (f x)) l -> wholeCents (sumOver f l).
Proof.
  induction 1 as [|x l Hx _ IH]; cbn [sumOver].
  - apply wholeCents_0.
  - apply wholeCents_plus; assumption.
Qed.

Lemma credit_zero minimum : credit minimum 0 == 0.
Proof. unfold credit. destruct (_ && _); reflexivity. Qed.

Lemma debit_zero minimum : debit minimum 0 == 0.
Proof. unfold debit. destruct (_ && _); reflexivity. Qed.

Lemma received_nonneg p txs :
  Forall (fun t => cent <= amount t) txs -> 0 <= received p txs.
Proof.
  intros Htxs. apply sumOver_nonneg. intros t Ht.
  rewrite List.Forall_forall in Htxs. specialize (Htxs t Ht). unfold cent in Htxs.
  destruct (String.eqb (to t) p); lra.
Qed.

(** [execute], party by party. *)
Lemma execute_accounts input out :
  execute input = Some out ->
  (forall p, 0 <= received p (transactions out)
             <= credit (effectiveMinimum input) (position (debts input) p))
  /\ (forall p, 0 <= paid p (transactions out)
                <= debit (effectiveMinimum input) (position (debts input) p))
  /\ ((forall p, received p (transactions out)
                 == credit (effectiveMinimum input) (position (debts input) p))
      \/ (forall p, paid p (transactions out)
                    == debit (effectiveMinimum input) (position (debts input) p)))
  /\ List.map fst (balances out) = objectKeys (parties (debts input))
  /\ (forall p, getOr0 (balances out) p
                == position (debts input) p - received p (transactions out))
  /\ Forall (fun t => wholeCents (amount t)) (transactions out)
  /\ totalAmount out == sumOver amount (transactions out).
Proof.
  intros Hexec. pose proof (execute_amounts _ _ Hexec) as Hamounts.
  revert Hexec. unfold execute.
  destruct (Nat.eqb (length (debts input)) 0) eqn:Hlen.
  { intros [= <-]. apply Nat.eqb_eq, nil_length_inv in Hlen. rewrite Hlen.
    cbn [emptyOutput transactions balances totalAmount].
    change (position [] ?p) with 0.
    pose proof (credit_zero (effectiveMinimum input)).
    pose proof (debit_zero (effectiveMinimum input)).
    refine (conj _ (conj _ (conj _ (conj eq_refl (conj _ (conj _ _)))))).
    - intros p. change (received p []) with 0. lra.
    - intros p. change (paid p []) with 0. lra.
    - left. intros p. change (received p []) with 0. lra.
    - intros p. change (received p []) with 0. change (getOr0 [] p) with 0. lra.
    - constructor.
    - reflexivity. }
  fold (effectiveMinimum input).
  set (m := effectiveMinimum input).
  set (ds := debts input) in *.
  set (h := calculateNetPositions ds) in *.
  set (refs := seq 0 (length h)).
  set (kept := List.filter (fun r => geb (Qabs (balanceAt h r)) m) refs).
  destruct (optimizeDebts h kept) as [[h' txs]|] eqn:Hopt; [|discriminate].
  intros [= <-]. cbn [transactions balances totalAmount] in *.
  assert (Hwhole : Forall (fun np => wholeCents (balance np)) h).
  { apply List.Forall_forall. intros np Hnp. unfold h, calculateNetPositions in Hnp.
    apply List.in_map_iff in Hnp as (e & <- & _). apply roundTo2_is_wholeCents. }
  apply optimizeDebts_accounts in Hopt
      as (P1 & P2 & P3 & P4 & P5 & P6 & P7 & P8);
    [|apply List.NoDup_filter, List.seq_NoDup
     |apply Forall_filter_keep, refs_valid
     |exact Hwhole].
  assert (Hcredit : forall p,
            sumOver (held h p) (List.filter (fun r => gtb (balanceAt h r) 0) kept)
            == credit m (position ds p)).
  { intros p. unfold kept, refs.
    rewrite (held_selected h m p (fun b => gtb b 0)).
    apply (sum_by_position ds p (credit m)), credit_zero. }
  assert (Hdebit : forall p,
            - sumOver (held h p) (List.filter (fun r => ltb (balanceAt h r) 0) kept)
            == debit m (position ds p)).
  { intros p. unfold kept, refs.
    rewrite (held_selected h m p (fun b => ltb b 0)).
    assert (Hzero : (if geb (Qabs 0) m && ltb 0 0 then 0 else 0) == 0)
      by (destruct (_ && _); reflexivity).
    pose proof (sum_by_position ds p
                  (fun b => if geb (Qabs b) m && ltb b 0 then b else 0) Hzero)
      as Hsum.
    fold h in Hsum. cbv beta in Hsum. rewrite Hsum.
    unfold debit.
    destruct (geb (Qabs (position ds p)) m && ltb (position ds p) 0); lra. }
  assert (Hlength : length h' = length h).
  { rewrite <- (List.length_map person h'), P1. apply List.length_map. }
  assert (Hpersons : List.NoDup (List.map person h')).
  { rewrite P1. apply calculateNetPositions_persons. }
  match goal with |- context [List.fold_left ?f refs []] =>
    assert (Hbal : List.fold_left f refs []
                   = List.map (fun np => (person np, roundTo (balance np) 2)) h')
      by (unfold refs; rewrite <- Hlength; apply balances_of_heap, Hpersons);
    rewrite !Hbal; clear Hbal
  end.
  refine (conj _ (conj _ (conj _ (conj _ (conj _ (conj P3 _)))))).
  - intros p. specialize (P5 p). specialize (P6 p). specialize (Hcredit p).
    pose proof (received_nonneg p txs Hamounts). lra.
  - intros p. specialize (P7 p). specialize (Hdebit p). lra.
  - destruct P8 as [P8|P8]; [left|right]; intros p.
    + rewrite P6, P8, Hcredit. lra.
    + rewrite P8. apply Hdebit.
  - rewrite objectEntries_keys, List.map_map.
    change (objectKeys (List.map person h') = objectKeys (parties ds)).
    rewrite P1. f_equal. apply positions_order.
  - intros p.
    replace (getOr0 (objectEntries
                       (List.map (fun np => (person np, roundTo (balance np) 2)) h')) p)
      with (getOr0 (List.map (fun np => (person np, roundTo (balance np) 2)) h') p)
      by (unfold getOr0; rewrite objectEntries_get;
          [reflexivity | rewrite List.map_map; exact Hpersons]).
    assert (Hget : getOr0 (List.map (fun np => (person np, roundTo (balance np) 2)) h') p
                   == sumOver (held h' p) (seq 0 (length h'))).
    { unfold getOr0.
      rewrite <- (sum_at_key (fun v => v))
        by (rewrite List.map_map; exact Hpersons).
      rewrite sumOver_map. cbn [fst snd].
      unfold held.
      rewrite (refs_sum h' (fun o => match o with Some np => share p np | None => 0 end)).
      apply sumOver_ext. intros np Hnp. unfold share.
      rewrite List.Forall_forall in P2.
      destruct (String.eqb (person np) p); [|reflexivity].
      apply roundTo2_wholeCents, P2, Hnp. }
    rewrite Hget, Hlength. fold refs.
    rewrite (sumOver_patch (held h' p) (held h p)
               (fun r => geb (Qabs (balanceAt h r)) m)
               (fun r => gtb (balanceAt h r) 0) refs).
    + fold kept. rewrite P6.
      assert (Hperson : sumOver (held h p) refs == position ds p).
      { unfold held, refs.
        rewrite (refs_sum h (fun o => match o with Some np => share p np | None => 0 end)).
        apply shareOf_positions. }
      rewrite Hperson. lra.
    + intros r _ Hq. unfold held. rewrite P4; [reflexivity|].
      intros Hin. apply List.filter_In in Hin as [Hin Hq2].
      apply List.filter_In in Hin as [_ Hq1]. rewrite Hq1, Hq2 in Hq. discriminate.
  - rewrite (roundTo_ext _ (sumOver amount txs) 2).
    + apply roundTo2_wholeCents, sumOver_wholeCents, P3.
    + rewrite (fold_left_sumOver _ amount); [lra|]. intros acc t _. reflexivity.
Qed.

End AccountFacts.

(** ** What [execute] pays, to whom, and what it reports *)

Module PaymentFacts.

Import Money JsMap DebtOptimizer Ledger Guardrails.
Import MoneyFacts JsMapFacts SumFacts MatchingFacts SettlementFacts.
Import PositionFacts ReplayFacts LedgerFacts AccountFacts ObjectOrderFacts.
Local Open Scope Q_scope.

Lemma paid_at_least t txs :
  Forall (fun t => cent <= amount t) txs ->
  In t txs ->
  amount t <= paid (from t) txs /\ amount t <= received (to t) txs.
Proof.
  unfold paid, received, cent.
  induction 1 as [|t' txs Ht' Htxs IH]; intros Hin; [destruct Hin|].
  cbn [sumOver].
  assert (0 <= sumOver (fun t0 => if String.eqb (from t0) (from t) then amount t0 else 0) txs
          /\ 0 <= sumOver (fun t0 => if String.eqb (to t0) (to t) then amount t0 else 0) txs)
    as [Hp Hr].
  { rewrite List.Forall_forall in Htxs.
    split; apply sumOver_nonneg; intros t0 Ht0; specialize (Htxs t0 Ht0);
      match goal with |- context [String.eqb ?a ?b] => destruct (String.eqb a b) end;
      lra. }
  destruct Hin as [->|Hin].
  - rewrite !String.eqb_refl. lra.
  - specialize (IH Hin).
    destruct (String.eqb (from t') (from t)), (String.eqb (to t') (to t)); lra.
Qed.

(** X7.  Nobody pays more than the debt [execute] keeps for them, and
    nobody receives more than the credit it keeps for them: a party whose
    rounded net position is below the minimum, or on the other side, is in
    no transaction on that side. *)
Theorem payments_within_positions input :
  exists out,
    execute input = Some out
    /\ forall p,
         0 <= received p (transactions out)
           <= credit (effectiveMinimum input) (position (debts input) p)
         /\ 0 <= paid p (transactions out)
              <= debit (effectiveMinimum input) (position (debts input) p).
Proof.
  destruct (execute_returns input) as [out Hout]. exists out.
  split; [exact Hout|]. intros p.
  destruct (execute_accounts input out Hout) as (Hreceived & Hpaid & _).
  split; [apply Hreceived | apply Hpaid].
Qed.

(** X8.  The loop stops only when one side is exhausted: either every kept
    creditor has received its credit in full, or every kept debtor has paid
    its debt in full. *)
Theorem one_side_is_settled_in_full input :
  exists out,
    execute input = Some out
    /\ ((forall p, received p (transactions out)
                   == credit (effectiveMinimum input) (position (debts input) p))
        \/ (forall p, paid p (transactions out)
                      == debit (effectiveMinimum input) (position (debts input) p))).
Proof.
  destruct (execute_returns input) as [out Hout]. exists out.
  split; [exact Hout|].
  destruct (execute_accounts input out Hout) as (_ & _ & Hside & _). exact Hside.
Qed.

(** X9.  Every transaction runs from a party with a negative position to a
    party with a positive one, both at least the minimum in magnitude, and
    moves no more than either position; so nobody pays themselves. *)
Theorem transactions_run_from_debtor_to_creditor input :
  exists out,
    execute input = Some out
    /\ forall t,
         In t (transactions out) ->
         amount t <= - position (debts input) (from t)
         /\ amount t <= position (debts input) (to t)
         /\ effectiveMinimum input <= Qabs (position (debts input) (from t))
         /\ effectiveMinimum input <= Qabs (position (debts input) (to t))
         /\ from t <> to t.
Proof.
  destruct (execute_returns input) as [out Hout]. exists out.
  split; [exact Hout|]. intros t Ht.
  destruct (execute_accounts input out Hout) as (Hreceived & Hpaid & _).
  pose proof (execute_amounts input out Hout) as Hamounts.
  destruct (paid_at_least t _ Hamounts Ht) as [Hfrom Hto].
  rewrite List.Forall_forall in Hamounts. specialize (Hamounts t Ht).
  unfold cent in Hamounts.
  specialize (Hpaid (from t)). specialize (Hreceived (to t)).
  unfold debit in Hpaid. unfold credit in Hreceived.
  destruct (geb (Qabs (position (debts input) (from t))) (effectiveMinimum input)
            && ltb (position (debts input) (from t)) 0) eqn:Hdebtor; [|lra].
  destruct (geb (Qabs (position (debts input) (to t))) (effectiveMinimum input)
            && gtb (position (debts input) (to t)) 0) eqn:Hcreditor; [|lra].
  apply andb_prop in Hdebtor as [Hkept1 Hneg], Hcreditor as [Hkept2 Hpos].
  apply geb_true in Hkept1, Hkept2. apply ltb_true in Hneg. apply gtb_true in Hpos.
  refine (conj _ (conj _ (conj Hkept1 (conj Hkept2 _)))); [lra | lra |].
  intros Heq. rewrite Heq in Hneg. lra.
Qed.


(** X11.  Every amount is a whole number of cents, so [totalAmount], which
    rounds the sum of the amounts to cents, is that sum. *)
Theorem total_is_the_sum_of_the_amounts input :
  exists out,
    execute input = Some out
    /\ Forall (fun t => wholeCents (amount t)) (transactions out)
    /\ totalAmount out == sumOver amount (transactions out).
Proof.
  destruct (execute_returns input) as [out Hout]. exists out.
  split; [exact Hout|].
  destruct (execute_accounts input out Hout) as (_ & _ & _ & _ & _ & Hcents & Htotal).
  split; assumption.
Qed.

(** *** Settlements that leave nothing out *)

Section NothingForgiven.
Variable input : DebtOptimizeInput.
Hypothesis Hcents : Forall (fun d => wholeCents (amount d)) (debts input).
Hypothesis Hkept :
  Forall (fun np => balance np == 0
                    \/ effectiveMinimum input <= Qabs (balance np))
         (calculateNetPositions (debts input)).




End NothingForgiven.



End PaymentFacts.

(** ** More on the fairness measures *)

Module FairnessMore.

Import Money DebtOptimizer Fairness.
Import MoneyFacts SumFacts FairnessFacts.
Local Open Scope Q_scope.

Lemma isZero_ext x y : x == y -> isZero x = isZero y.
Proof.
  intros Hxy. destruct (isZero y) eqn:Hy.
  - apply isZero_true. apply isZero_true in Hy. lra.
  - apply isZero_false. apply isZero_false in Hy. lra.
Qed.

(** The coefficient as [calculateGini] returns it. *)
Lemma calculateGini_rounded v :
  calculateGini v
  = if Nat.eqb (length v) 0 || isZero (specMean v) then 0
    else roundTo (specGini v) 4.
Proof. rewrite calculateGini_scoreMagnitudes. apply gini_rounded. Qed.


Lemma specMean_perm v w : v ≡ₚ w -> specMean v == specMean w.
Proof.
  intros Hperm. unfold specMean.
  rewrite (sumOver_perm _ _ _ Hperm), (lengthQ_perm _ _ Hperm). reflexivity.
Qed.

Lemma specGini_perm v w : v ≡ₚ w -> specGini v == specGini w.
Proof.
  intros Hperm. unfold specGini.
  rewrite (pairwise_perm _ _ Hperm), (specMean_perm _ _ Hperm),
    (lengthQ_perm _ _ Hperm).
  reflexivity.
Qed.


(** X14.  [calculateGini] does not depend on the order of its values. *)
Theorem gini_order_independent v w :
  v ≡ₚ w -> calculateGini v = calculateGini w.
Proof.
  intros Hperm. rewrite !calculateGini_rounded.
  rewrite (Permutation_length Hperm), (isZero_ext _ _ (specMean_perm _ _ Hperm)).
  destruct (_ || _); [reflexivity|]. apply roundTo_ext, specGini_perm, Hperm.
Qed.


(** The values 3, 1, 2 and 1, 2, 3. *)
Lemma gini_order_independent_witness :
  calculateGini [3; 1; 2] = calculateGini [1; 2; 3].
Proof.
  apply (gini_order_independent [3; 1; 2] [1; 2; 3]).
  change ([3; 1; 2] ≡ₚ [1; 2; 3]).
  etransitivity; [apply Permutation_swap|].
  etransitivity; [apply perm_skip, Permutation_swap|]. reflexivity.
Defined.

End FairnessMore.

(** ** The search for circular debts, on every input *)

Module CycleFacts.

Import JsMap DebtOptimizer CircularDebts CycleSpec.
Import JsMapFacts.

#[local] Set Warnings "-clear-no-such-hyp".

Lemma linked_snoc s chain e :
  linked s chain -> payer e = endOf s chain -> linked s (chain ++ [e]).
Proof.
  revert s. induction chain as [|x chain IH]; intros s Hlinked He; cbn in *.
  - split; [exact He | exact I].
  - destruct Hlinked as [Hx Hlinked]. split; [exact Hx|]. apply IH; assumption.
Qed.

Lemma endOf_snoc s chain e : endOf s (chain ++ [e]) = payee e.
Proof. unfold endOf. rewrite List.fold_left_app. reflexivity. Qed.

Lemma everybody_named ds e :
  ofInput ds e -> payer e ∈ everybody ds /\ payee e ∈ everybody ds.
Proof.
  unfold ofInput, everybody, payer, payee. intros He.
  assert (Hin : In (debt e) ds).
  { apply list_elem_of_In, list_elem_of_lookup. eauto. }
  split; apply elem_of_list_to_set, list_elem_of_In, List.in_flat_map;
    exists (debt e); (split; [exact Hin|]); cbn; auto.
Qed.

Lemma size_of_list (l : list string) :
  size (list_to_set l : gset string) <= length l.
Proof.
  induction l as [|x l IH]; cbn [length].
  - rewrite list_to_set_nil, size_empty. lia.
  - rewrite list_to_set_cons, size_union_alt, size_singleton.
    assert (H : size (list_to_set l ∖ {[x]} : gset string)
                <= size (list_to_set l : gset string)).
    { apply subseteq_size, subseteq_difference_l. reflexivity. }
    lia.
Qed.

Lemma everybody_size ds : size (everybody ds) <= 2 * length ds.
Proof.
  unfold everybody. etransitivity; [apply size_of_list|].
  induction ds as [|d ds IH]; cbn [List.flat_map length app]; lia.
Qed.

(** The adjacency list holds debts of the input under their payers. *)
Lemma buildGraph_edges ds person es :
  omap_get (buildGraph ds) person = Some es ->
  person ∈ everybody ds
  /\ Forall (fun e => payer e = person /\ ofInput ds e) es.
Proof.
  unfold buildGraph.
  assert (Hall : Forall (ofInput ds) (imap (fun i d => mkEdge d i) ds)).
  { apply List.Forall_forall. intros e He.
    apply list_elem_of_In, elem_of_lookup_imap in He as (i & d & -> & Hd). exact Hd. }
  revert Hall person es.
  induction (imap (fun i d => mkEdge d i) ds) as [|e edges IH] using rev_ind;
    intros Hall person es; [discriminate|].
  apply Forall_app in Hall as [Hedges He]. apply Forall_inv in He.
  rewrite List.fold_left_app. cbn [List.fold_left]. unfold addEdge at 1.
  set (graph := List.fold_left addEdge edges []) in *.
  specialize (IH Hedges).
  destruct (omap_get graph (from (debt e))) as [es0|] eqn:Hkey;
    rewrite omap_get_set;
    (destruct (String.eqb (from (debt e)) person) eqn:Heq; [|apply IH]);
    apply String.eqb_eq in Heq; intros [= <-];
    (split; [rewrite <- Heq; apply (everybody_named ds e He)|]).
  - apply Forall_app. split.
    + rewrite <- Heq. apply (IH _ _ Hkey).
    + constructor; [|constructor]. split; [exact Heq | exact He].
  - constructor; [|constructor]. split; [exact Heq | exact He].
Qed.

Lemma dfs_unfold fuel graph used start person st :
  dfs (S fuel) graph used start person st
  = if decide (person ∈ visited st) then
      if String.eqb person start && (3 <=? length (path st))%nat
      then Some (mkDfs (visited st) (path st) (circles st ++ [path st]))
      else Some st
    else
      let edges :=
        match omap_get graph person with Some es => es | None => [] end in
      let afterEdges :=
        List.fold_left
          (fun acc edge =>
             match acc with
             | None => None
             | Some s =>
                 if Nat.eqb (index edge) 0 || negb (bool_decide (index edge ∈ used))
                 then
                   match dfs fuel graph used start (to (debt edge))
                           (mkDfs (visited s) (path s ++ [edge]) (circles s)) with
                   | Some s' =>
                       Some (mkDfs (visited s') (removelast (path s')) (circles s'))
                   | None => None
                   end
                 else Some s
             end)
          edges
          (Some (mkDfs ({[person]} ∪ visited st) (path st) (circles st))) in
      match afterEdges with
      | Some s => Some (mkDfs (visited s ∖ {[person]}) (path s) (circles s))
      | None => None
      end.
Proof. reflexivity. Qed.

(** One call of [dfs], with enough fuel for the parties not yet on the
    path: it returns, leaves [visited] and [path] as they were, and adds
    only cycles to [circles]. *)
Lemma dfs_spec ds : forall fuel start person st,
  size (everybody ds ∖ visited st) < fuel ->
  person ∈ everybody ds ->
  linked start (path st) ->
  endOf start (path st) = person ->
  visited st = list_to_set (List.map payer (path st)) ->
  List.NoDup (List.map payer (path st)) ->
  Forall (ofInput ds) (path st) ->
  exists new,
    dfs fuel (buildGraph ds) ∅ start person st
    = Some (mkDfs (visited st) (path st) (circles st ++ new))
    /\ Forall (simpleCycle ds) new.
Proof.
  induction fuel as [|fuel IH];
    intros start person st Hfuel Hperson Hlinked Hend Hvisited Hnodup Hinput;
    [lia|].
  rewrite dfs_unfold. destruct (decide (person ∈ visited st)) as [Hseen|Hnew].
  - destruct (String.eqb person start && (3 <=? length (path st))%nat) eqn:Hclosed.
    + exists [path st]. split; [reflexivity|]. constructor; [|constructor].
      apply andb_prop in Hclosed as [Hstart Hlen].
      apply String.eqb_eq in Hstart. apply Nat.leb_le in Hlen.
      refine (conj Hlen (conj Hinput (conj _ Hnodup))).
      exists start. split; [exact Hlinked | congruence].
    + exists []. rewrite List.app_nil_r. split; [destruct st; reflexivity | constructor].
  - cbv zeta.
    set (edges := match omap_get (buildGraph ds) person with
                  | Some es => es | None => [] end).
    assert (Hedges : Forall (fun e => payer e = person /\ ofInput ds e) edges).
    { unfold edges. destruct (omap_get (buildGraph ds) person) as [es|] eqn:Hes;
        [apply (buildGraph_edges ds person es Hes) | constructor]. }
    clearbody edges.
    match goal with |- context [List.fold_left ?body edges _] =>
      assert (Hloop : forall new,
                Forall (simpleCycle ds) new ->
                exists new',
                  List.fold_left body edges
                    (Some (mkDfs ({[person]} ∪ visited st) (path st) (circles st ++ new)))
                  = Some (mkDfs ({[person]} ∪ visited st) (path st) (circles st ++ new'))
                  /\ Forall (simpleCycle ds) new')
    end.
    { induction Hedges as [|e edges [He Hof] _ IHedges]; intros new Hcycles.
      - exists new. split; [reflexivity | exact Hcycles].
      - cbn [List.fold_left].
        rewrite bool_decide_eq_false_2 by set_solver. rewrite orb_true_r.
        cbn [visited path circles].
        destruct (IH start (to (debt e))
                    (mkDfs ({[person]} ∪ visited st) (path st ++ [e])
                       (circles st ++ new)))
          as (more & -> & Hmore); cbn [visited path circles].
        + eapply Nat.lt_le_trans; [|apply PeanoNat.lt_n_Sm_le, Hfuel].
          apply subset_size. split; [set_solver|]. intros Hsub.
          assert (Hleft : person ∈ everybody ds ∖ visited st) by set_solver.
          apply Hsub in Hleft. set_solver.
        + apply (everybody_named ds e Hof).
        + apply linked_snoc; [exact Hlinked | congruence].
        + apply endOf_snoc.
        + rewrite List.map_app, list_to_set_app_L, <- Hvisited. cbn. set_solver.
        + rewrite List.map_app. apply NoDup_ListNoDup, NoDup_app.
          split; [apply NoDup_ListNoDup, Hnodup|]. split; [|apply NoDup_singleton].
          intros x Hx Hx'. apply list_elem_of_singleton in Hx' as ->.
          apply Hnew. rewrite Hvisited. rewrite He in Hx.
          apply elem_of_list_to_set, Hx.
        + apply Forall_app. split; [exact Hinput | constructor; [exact Hof | constructor]].
        + rewrite List.removelast_last, <- List.app_assoc.
          apply IHedges. apply Forall_app. split; assumption. }
    destruct (Hloop [] ltac:(constructor)) as (new & Hrun & Hcycles).
    rewrite List.app_nil_r in Hrun. rewrite Hrun. cbn [visited path circles].
    exists new. split; [|exact Hcycles].
    f_equal. f_equal. set_solver.
Qed.

Lemma graph_keys ds person :
  In person (List.map fst (buildGraph ds)) -> person ∈ everybody ds.
Proof.
  intros Hkey.
  destruct (omap_get (buildGraph ds) person) as [es|] eqn:Hes.
  - apply (buildGraph_edges ds person es Hes).
  - apply omap_get_none in Hes. contradiction.
Qed.

(** The debts kept by a filter on the indices, in the order of the input. *)
Lemma kept_debts (keep : nat -> bool) : forall (ds : list Debt) (g : nat -> nat),
  sublist
    (List.map snd (List.filter (fun e => keep (fst e)) (imap (fun i d => (g i, d)) ds)))
    ds
  /\ forall i d, ds !! i = Some d -> keep (g i) = true ->
       In d (List.map snd
               (List.filter (fun e => keep (fst e)) (imap (fun i d => (g i, d)) ds))).
Proof.
  induction ds as [|x ds IH]; intros g; cbn [imap List.filter List.map fst].
  - split; [constructor | intros i d Hi; discriminate].
  - destruct (IH (fun i => g (S i))) as [Hsub Hin].
    split.
    + destruct (keep (g 0)); cbn [List.map snd];
        [apply sublist_skip | apply sublist_cons]; exact Hsub.
    + intros [|i] d Hd Hkeep.
      * injection Hd as ->. rewrite Hkeep. left. reflexivity.
      * specialize (Hin i d Hd Hkeep).
        destruct (keep (g 0)); [right|]; exact Hin.
Qed.

(** X16.  [detectCircularDebts] returns on every input.  Every circle it
    reports is made of at least three debts of the input, each owed by the
    payee of the one before and the first by the payee of the last, with
    no payer twice; [remaining] keeps debts of the input in their order,
    among them every debt whose index is on no reported circle. *)
Theorem reported_circles_are_cycles ds :
  exists circular remaining,
    detectCircularDebts ds = Some (circular, remaining)
    /\ Forall (simpleCycle ds) circular
    /\ sublist remaining ds
    /\ forall i d,
         ds !! i = Some d ->
         (forall c e, In c circular -> In e c -> index e <> i) ->
         In d remaining.
Proof.
  unfold detectCircularDebts.
  assert (Hsearch : forall keys,
            (forall person, In person keys -> person ∈ everybody ds) ->
            forall found,
              Forall (simpleCycle ds) found ->
              exists found',
                List.fold_left
                  (fun acc person =>
                     match acc with
                     | None => None
                     | Some s =>
                         dfs (2 * length ds + 2) (buildGraph ds) ∅ person person s
                     end)
                  keys (Some (mkDfs ∅ [] found))
                = Some (mkDfs ∅ [] found')
                /\ Forall (simpleCycle ds) found').
  { induction keys as [|person keys IHkeys]; intros Hkeys found Hfound.
    - exists found. split; [reflexivity | exact Hfound].
    - cbn [List.fold_left].
      destruct (dfs_spec ds (2 * length ds + 2) person person (mkDfs ∅ [] found))
        as (new & -> & Hnew); cbn [visited path circles].
      + pose proof (everybody_size ds) as Hsize.
        assert (Hle : size (everybody ds ∖ ∅) <= size (everybody ds))
          by (apply subseteq_size; set_solver).
        lia.
      + apply Hkeys. left. reflexivity.
      + exact I.
      + reflexivity.
      + reflexivity.
      + constructor.
      + constructor.
      + apply IHkeys.
        * intros p Hp. apply Hkeys. right. exact Hp.
        * apply Forall_app. split; assumption. }
  destruct (Hsearch (List.map fst (buildGraph ds)) (graph_keys ds) [] ltac:(constructor))
    as (circular & -> & Hcycles).
  cbn [circles].
  set (used := list_to_set (List.map index (List.concat circular)) : gset nat).
  destruct (kept_debts (fun i => negb (bool_decide (i ∈ used))) ds (fun i => i))
    as [Hsub Hin].
  eexists _, _. split; [reflexivity|].
  refine (conj Hcycles (conj Hsub _)).
  intros i d Hd Hfree. apply (Hin i d Hd).
  apply negb_true_iff, bool_decide_eq_false_2. unfold used. intros Hused.
  apply elem_of_list_to_set, list_elem_of_In, List.in_map_iff in Hused
    as (e & He & Hin').
  apply List.in_concat in Hin' as (c & Hc & Hec).
  apply (Hfree c e Hc Hec He).
Qed.

End CycleFacts.

(** ** The rate limiter is a sliding window *)

Module RateLimitFacts.

Import RateLimit.
Local Open Scope Z_scope.

Section Window.
Variable cfg : Config.
Hypothesis Hwindow : 0 < windowMs cfg.

Lemma filter_filter_implied {A} (f g : A -> bool) l :
  (forall x, In x l -> f x = true -> g x = true) ->
  List.filter f (List.filter g l) = List.filter f l.
Proof.
  induction l as [|x l IH]; intros H; cbn [List.filter]; [reflexivity|].
  specialize (IH (fun y Hy => H y (or_intror Hy))).
  pose proof (H x (or_introl eq_refl)) as Hx.
  destruct (g x) eqn:Hg; cbn [List.filter]; rewrite IH; [reflexivity|].
  destruct (f x); [|reflexivity]. specialize (Hx eq_refl). discriminate.
Qed.

Lemma allowedWithin_times identifier now log :
  allowedWithin cfg identifier now log
  = Z.of_nat (length (List.filter (fun t => now - t <? windowMs cfg)
                        (allowedTimes identifier log))).
Proof.
  unfold allowedWithin, allowedTimes. f_equal.
  induction log as [|e log IH]; cbn [List.filter]; [reflexivity|].
  destruct (valid (verdict e) && String.eqb (caller e) identifier);
    cbn [andb List.filter List.map]; [|exact IH].
  destruct (now - time e <? windowMs cfg); cbn [length]; rewrite IH; reflexivity.
Qed.

Lemma allowedTimes_snoc identifier log e :
  allowedTimes identifier (log ++ [e])
  = allowedTimes identifier log
    ++ (if valid (verdict e) && String.eqb (caller e) identifier
        then [time e] else []).
Proof.
  unfold allowedTimes. rewrite List.filter_app, List.map_app. cbn [List.filter].
  destruct (valid (verdict e) && String.eqb (caller e) identifier); reflexivity.
Qed.

Lemma allowedTimes_bound identifier log now t :
  (forall e, In e log -> time e <= now) ->
  In t (allowedTimes identifier log) -> t <= now.
Proof.
  intros Hlog Ht. unfold allowedTimes in Ht.
  apply List.in_map_iff in Ht as (e & <- & He).
  apply List.filter_In in He as [He _]. apply Hlog, He.
Qed.

Lemma last_bound (l : list Z) now : (forall t, In t l -> t <= now) -> 0 <= now \/ l <> [] ->
  l <> [] -> List.last l 0 <= now.
Proof.
  intros Hl _ Hne. apply Hl.
  destruct (List.exists_last Hne) as (l' & x & ->).
  rewrite List.last_last. apply List.in_app_iff. right. left. reflexivity.
Qed.

(** The history that [validate] keeps at [now] is the identifier's allowed
    times within the window. *)
Lemma validHistory_is_window log requests identifier now :
  tracks cfg log requests ->
  (forall e, In e log -> time e <= now) ->
  List.filter (fun t => now - t <? windowMs cfg)
    (default [] (requests !! identifier))
  = List.filter (fun t => now - t <? windowMs cfg) (allowedTimes identifier log).
Proof.
  intros Htracks Hlog. destruct (Htracks identifier) as [-> _].
  apply filter_filter_implied. intros t Ht Hrecent.
  apply Z.ltb_lt in Hrecent. apply Z.ltb_lt.
  assert (Hlast : List.last (allowedTimes identifier log) 0 <= now).
  { apply last_bound.
    - intros t' Ht'. apply (allowedTimes_bound identifier log now t' Hlog Ht').
    - right. intros Hnil. rewrite Hnil in Ht. destruct Ht.
    - intros Hnil. rewrite Hnil in Ht. destruct Ht. }
  lia.
Qed.

Lemma tracks_step log requests input now :
  tracks cfg log requests ->
  (forall e, In e log -> time e <= now) ->
  tracks cfg
    (log ++ [mkEntry (identifierOf input) now (fst (validate cfg requests input now))])
    (snd (validate cfg requests input now)).
Proof.
  intros Htracks Hlog other. set (identifier := identifierOf input).
  pose proof (validHistory_is_window log requests identifier now Htracks Hlog) as Hvalid.
  rewrite allowedTimes_snoc. cbn [verdict caller time]. unfold validate.
  cbv zeta. fold identifier.
  set (validHistory := List.filter _ (default [] (requests !! identifier))) in *.
  destruct (maxRequests cfg <=? Z.of_nat (length validHistory)) eqn:Hfull;
    cbn [fst snd valid andb].
  - rewrite List.app_nil_r. apply Htracks.
  - apply Z.leb_gt in Hfull.
    destruct (String.eqb identifier other) eqn:Hsame.
    + apply String.eqb_eq in Hsame as <-.
      rewrite lookup_insert_eq. cbn [default].
      rewrite List.last_last, List.filter_app. cbn [List.filter].
      replace (now - now) with 0 by lia.
      destruct (Z.ltb_spec 0 (windowMs cfg)) as [_|Hle]; [|lia].
      rewrite Hvalid. split; [reflexivity|].
      unfold id. rewrite <- Hvalid, List.length_app. cbn [length]. lia.
    + apply String.eqb_neq in Hsame.
      rewrite lookup_insert_ne by exact Hsame.
      rewrite List.app_nil_r. apply Htracks.
Qed.

Lemma serve_snoc calls call :
  serve cfg (calls ++ [call]) = step cfg (serve cfg calls) call.
Proof. unfold serve. rewrite List.fold_left_app. reflexivity. Qed.

Lemma step_log acc call :
  fst (step cfg acc call)
  = fst acc ++ [mkEntry (identifierOf (fst call)) (snd call)
                  (fst (validate cfg (snd acc) (fst call) (snd call)))]
  /\ snd (step cfg acc call) = snd (validate cfg (snd acc) (fst call) (snd call)).
Proof.
  unfold step. destruct (validate cfg (snd acc) (fst call) (snd call)). split; reflexivity.
Qed.

Lemma serve_calls calls :
  List.map time (fst (serve cfg calls)) = List.map snd calls.
Proof.
  induction calls as [|[input now] calls IH] using rev_ind; [reflexivity|].
  rewrite serve_snoc. destruct (step_log (serve cfg calls) (input, now)) as [-> _].
  rewrite !List.map_app, IH. reflexivity.
Qed.

Lemma sorted_snoc (l : list Z) x :
  StronglySorted Z.le (l ++ [x]) ->
  StronglySorted Z.le l /\ forall y, In y l -> y <= x.
Proof.
  induction l as [|a l IH]; cbn [app]; intros Hsorted.
  - split; [constructor | intros y []].
  - apply StronglySorted_inv in Hsorted as [Hrest Ha].
    destruct (IH Hrest) as [Hl Hx]. split.
    + constructor; [exact Hl|]. apply Forall_app in Ha as [Ha _]. exact Ha.
    + intros y [<-|Hy]; [|apply Hx, Hy].
      apply Forall_app in Ha as [_ Ha]. apply Forall_inv in Ha. exact Ha.
Qed.

Lemma serve_tracks calls :
  StronglySorted Z.le (List.map snd calls) ->
  tracks cfg (fst (serve cfg calls)) (snd (serve cfg calls)).
Proof.
  induction calls as [|[input now] calls IH] using rev_ind; intros Hsorted.
  - intros identifier. cbn. rewrite lookup_empty. cbn. split; [reflexivity | lia].
  - rewrite List.map_app in Hsorted. apply sorted_snoc in Hsorted as [Hcalls Hnow].
    rewrite serve_snoc.
    destruct (step_log (serve cfg calls) (input, now)) as [-> ->].
    cbn [fst snd]. apply tracks_step; [apply IH, Hcalls|].
    intros e He. apply Hnow.
    rewrite <- (serve_calls calls). apply List.in_map, He.
Qed.

(** X17.  For a guardrail whose clock does not run backwards, a call is
    allowed exactly when fewer than [maxRequests] calls with the same
    identifier were allowed less than [windowMs] before it, and
    [remaining] counts what is left after it; a refused call changes
    nothing.  So no identifier is ever allowed more than [maxRequests]
    times within [windowMs] up to a call. *)
Theorem rate_limit_is_a_sliding_window calls input now :
  StronglySorted Z.le (List.map snd (calls ++ [(input, now)])) ->
  let log := fst (serve cfg calls) in
  let requests := snd (serve cfg calls) in
  let recent := allowedWithin cfg (identifierOf input) now log in
  recent <= Z.max 0 (maxRequests cfg)
  /\ if recent <? maxRequests cfg
     then fst (validate cfg requests input now)
          = Allowed (maxRequests cfg - (recent + 1))
     else exists resetAt,
            validate cfg requests input now = (Exceeded resetAt, requests).
Proof.
  intros Hsorted log requests recent.
  rewrite List.map_app in Hsorted. apply sorted_snoc in Hsorted as [Hcalls Hnow].
  pose proof (serve_tracks calls Hcalls) as Htracks. fold log requests in Htracks.
  assert (Hlog : forall e, In e log -> time e <= now).
  { intros e He. apply Hnow. unfold log in He.
    rewrite <- (serve_calls calls). apply List.in_map, He. }
  set (identifier := identifierOf input) in *.
  pose proof (validHistory_is_window log requests identifier now Htracks Hlog) as Hvalid.
  assert (Hrecent : recent
                    = Z.of_nat (length (List.filter (fun t => now - t <? windowMs cfg)
                                          (default [] (requests !! identifier))))).
  { unfold recent. rewrite allowedWithin_times, Hvalid. reflexivity. }
  assert (Hbound : recent <= Z.max 0 (maxRequests cfg)).
  { destruct (Htracks identifier) as [_ Hlen]. rewrite Hrecent.
    pose proof (List.filter_length_le (fun t => now - t <? windowMs cfg)
                  (default [] (requests !! identifier))).
    lia. }
  split; [exact Hbound|]. unfold validate. cbv zeta. fold identifier.
  set (validHistory := List.filter _ (default [] (requests !! identifier))) in *.
  clearbody recent validHistory.
  destruct (Z.leb_spec (maxRequests cfg) (Z.of_nat (length validHistory)))
    as [Hfull|Hroom];
    destruct (Z.ltb_spec recent (maxRequests cfg)) as [Hroom'|Hfull']; try lia;
    cbn [fst snd].
  - eexists. reflexivity.
  - rewrite List.length_app. cbn [length]. f_equal. lia.
Qed.

End Window.

(** Two allowed calls per second: the third call of a user within the
    second is refused. *)
Lemma rate_limit_is_a_sliding_window_witness :
  exists resetAt,
    validate (mkConfig 2 1000)
      (snd (serve (mkConfig 2 1000)
              [(mkInput (Some "u") None, 0); (mkInput (Some "u") (Some "10.0.0.1"), 400)]))
      (mkInput (Some "u") None) 900
    = (Exceeded resetAt,
       snd (serve (mkConfig 2 1000)
              [(mkInput (Some "u") None, 0);
               (mkInput (Some "u") (Some "10.0.0.1"), 400)])).
Proof.
  apply (rate_limit_is_a_sliding_window (mkConfig 2 1000) ltac:(reflexivity)
           [(mkInput (Some "u") None, 0); (mkInput (Some "u") (Some "10.0.0.1"), 400)]
           (mkInput (Some "u") None) 900).
  repeat (constructor; try (cbn; lia)).
Defined.

End RateLimitFacts.

(** ** More on the orchestrator: the order, the inputs, the results *)

Module OrderFacts.

Import JsMap JsMapFacts Orchestrator OrchestratorSpec SortFacts RunFacts.

Section WithPayload.
Context {Payload Output : Type}.
Variable agents : gmap string (Agent Payload Output).
Implicit Types (tasks pre post order later : list (Task Payload)).
Implicit Types (t task : Task Payload) (s : RunState Output).
Implicit Types (rm : list (string * TaskResult Output)).

Lemma findTask_named tasks d :
  is_Some (findTask tasks d) <-> In d (List.map id tasks).
Proof.
  split.
  - intros [t Ht]. apply findTask_some in Ht as [Hin <-].
    apply List.in_map, Hin.
  - intros Hin. apply List.in_map_iff in Hin as (t & <- & Hin).
    unfold findTask. destruct (List.find _ tasks) as [u|] eqn:E; [eauto|].
    pose proof (List.find_none _ _ E t Hin) as H. cbv beta in H.
    rewrite String.eqb_refl in H. discriminate.
Qed.

Lemma depsBefore_suffix tasks later earlier :
  depsBefore tasks (later ++ earlier) -> depsBefore tasks earlier.
Proof.
  induction later as [|t later IH]; simpl; [tauto|].
  intros [_ H]. apply IH, H.
Qed.

(** X1.  [topologicalSort] never reports a cycle that is not there: it
    throws exactly when the dependency graph has a cycle, and returns an
    order exactly when it has none. *)
Theorem sort_throws_iff_cyclic tasks :
  (cyclic tasks <-> exists m, topologicalSort tasks = Throw m)
  /\ (~ cyclic tasks <-> exists order, topologicalSort tasks = Ok order).
Proof.
  pose proof (topologicalSort_spec tasks) as Hspec.
  destruct (topologicalSort tasks) as [order|m|] eqn:Hsort; [| |destruct Hspec].
  - destruct Hspec as (_ & _ & _ & _ & Hacyclic). split; split.
    + intros Hc. contradiction.
    + intros [m Hm]. discriminate.
    + eauto.
    + intros _. exact Hacyclic.
  - destruct Hspec as (x & _ & Hx).
    assert (Hc : cyclic tasks) by (exists x; exact Hx).
    split; split.
    + eauto.
    + intros _. exact Hc.
    + intros Hn. contradiction.
    + intros [order Ho]. discriminate.
Qed.

(** X2.  The order [topologicalSort] returns holds the names of the queue,
    each once; its tasks are tasks of the queue; and every declared
    dependency that names a task of the queue comes before the task that
    declares it. *)
Theorem sorted_order_is_topological tasks order :
  topologicalSort tasks = Ok order ->
  List.NoDup (List.map id order)
  /\ (forall x, In x (List.map id order) <-> In x (List.map id tasks))
  /\ (forall t, In t order -> In t tasks)
  /\ (forall l1 t l2 d,
        order = l1 ++ t :: l2 -> In d (declared t) ->
        In d (List.map id tasks) -> In d (List.map id l1)).
Proof.
  intros Hsort. pose proof (topologicalSort_spec tasks) as Hspec.
  rewrite Hsort in Hspec.
  destruct Hspec as (Hnodup & Hall & Hfirst & Hbefore & _).
  split; [exact Hnodup|]. split; [|split].
  - intros x. split.
    + intros Hx. apply List.in_map_iff in Hx as (t & <- & Ht).
      apply List.in_map. apply (findTask_some tasks (id t)), Hfirst, Ht.
    + intros Hx. apply List.in_map_iff in Hx as (u & <- & Hu). apply Hall, Hu.
  - intros t Ht. apply (findTask_some tasks (id t)), Hfirst, Ht.
  - intros l1 t l2 d -> Hd Hnamed.
    rewrite List.rev_app_distr in Hbefore. cbn [rev] in Hbefore.
    rewrite <- List.app_assoc in Hbefore.
    apply depsBefore_suffix in Hbefore. cbn [app] in Hbefore.
    destruct Hbefore as [Hdeps _].
    apply List.in_rev. rewrite <- List.map_rev.
    apply Hdeps; [exact Hd | apply findTask_named, Hnamed].
Qed.



(** The loop body reads the stored results only at the declared
    dependencies. *)
Lemma attempt_reads_dependencies rm rm' task :
  (forall d, In d (declared task) -> omap_get rm d = omap_get rm' d) ->
  attempt agents rm task = attempt agents rm' task.
Proof.
  intros Hsame. unfold attempt.
  assert (Hmet : dependenciesMet rm task = dependenciesMet rm' task).
  { unfold dependenciesMet.
    induction (declared task) as [|y l IH]; [reflexivity|].
    cbn [List.forallb]. rewrite (Hsame y (or_introl eq_refl)).
    rewrite IH; [reflexivity|]. intros d Hd. apply Hsame. right. exact Hd. }
  assert (Hinput : prepareInput rm task = prepareInput rm' task).
  { unfold prepareInput. unfold declared in Hsame.
    destruct (dependencies task) as [[|x deps]|]; try reflexivity.
    f_equal. f_equal. generalize (@nil (string * option Output)).
    induction (x :: deps) as [|y l IH]; intros acc; [reflexivity|].
    cbn [List.fold_left]. rewrite (Hsame y (or_introl eq_refl)).
    apply IH. intros d Hd. apply Hsame. right. exact Hd. }
  rewrite Hmet, Hinput. reflexivity.
Qed.

(** The results and the calls of a run start with those of any shorter
    run. *)
Lemma runTasks_extends pre post :
  List.NoDup (List.map id (pre ++ post)) ->
  exists more calls,
    resultMap (runTasks agents (pre ++ post))
    = resultMap (runTasks agents pre) ++ more
    /\ List.map fst more = List.map id post
    /\ invoked (runTasks agents (pre ++ post))
       = invoked (runTasks agents pre) ++ calls
    /\ (forall x, In x calls -> In x (List.map id post)).
Proof.
  induction post as [|t post IH] using rev_ind; intros Hnodup.
  - exists [], []. rewrite !List.app_nil_r. repeat split. intros x [].
  - rewrite List.app_assoc in Hnodup |- *.
    pose proof Hnodup as Hnodup'.
    rewrite List.map_app in Hnodup'.
    apply NoDup_ListNoDup, NoDup_app in Hnodup' as (Hfront & Hsep & _).
    apply NoDup_ListNoDup in Hfront.
    destruct (IH Hfront) as (more & calls & Hrm & Hkeys & Hcalls & Hsub).
    pose proof (runInvariant_holds agents _ Hfront) as Hinv.
    assert (Hfresh : ~ In (id t)
              (List.map fst (resultMap (runTasks agents (pre ++ post))))).
    { rewrite (ri_keys _ _ Hinv). intros Hin.
      apply (Hsep (id t)); [apply list_elem_of_In, Hin|].
      apply list_elem_of_singleton. reflexivity. }
    rewrite runTasks_snoc.
    destruct (runTask_fresh agents _ t Hfresh) as (Hrm' & Hcalls' & _).
    exists (more ++ [(id t, recorded agents (runTasks agents (pre ++ post)) t)]).
    exists (if snd (attempt agents (resultMap (runTasks agents (pre ++ post))) t)
            then calls ++ [id t] else calls).
    rewrite Hrm', Hcalls', Hrm, Hcalls, !List.map_app, Hkeys.
    split; [symmetry; apply List.app_assoc|].
    split; [reflexivity|]. split.
    + match goal with |- context [snd ?a] => destruct (snd a) end;
        [symmetry; apply List.app_assoc | reflexivity].
    + intros x Hx. apply List.in_app_iff. revert Hx.
      match goal with |- context [snd ?a] => destruct (snd a) end; intros Hx.
      * apply List.in_app_iff in Hx as [Hx|Hx]; [left; apply Hsub, Hx | right; exact Hx].
      * left. apply Hsub, Hx.
Qed.

(** The result stored for a task, read off the results the run ends with. *)
Lemma stored_result_is_recorded tasks order :
  topologicalSort tasks = Ok order ->
  forall t,
    In t order ->
    omap_get (storedResults (execute agents tasks)) (id t)
    = Some match fst (attempt agents (storedResults (execute agents tasks)) t) with
           | inr out => mkResult (id t) true (Some out) None
           | inl errorMessage => mkResult (id t) false None (Some errorMessage)
           end
    /\ (In (id t) (agentCalls (execute agents tasks))
        <-> snd (attempt agents (storedResults (execute agents tasks)) t) = true).
Proof.
  intros Hsort t Ht. pose proof (topologicalSort_spec tasks) as Hspec.
  unfold execute. rewrite Hsort in Hspec |- *.
  cbn [storedResults agentCalls].
  destruct Hspec as (Hnodup & Hall & Hfirst & Hbefore & _).
  apply List.in_split in Ht as (l1 & l2 & ->).
  assert (Hdeps : forall d, In d (declared t) -> In d (List.map id tasks) ->
                            In d (List.map id l1)).
  { intros d Hd Hnamed.
    rewrite List.rev_app_distr in Hbefore. cbn [rev] in Hbefore.
    rewrite <- List.app_assoc in Hbefore.
    apply depsBefore_suffix in Hbefore. cbn [app] in Hbefore.
    destruct Hbefore as [Hdeps _].
    apply List.in_rev. rewrite <- List.map_rev.
    apply Hdeps; [exact Hd | apply findTask_named, Hnamed]. }
  assert (Hsplit : l1 ++ t :: l2 = (l1 ++ [t]) ++ l2)
    by (rewrite <- List.app_assoc; reflexivity).
  rewrite Hsplit in Hnodup |- *.
  destruct (runTasks_extends (l1 ++ [t]) l2 Hnodup)
    as (more & calls & Hrm & Hkeys & Hcalls & Hsub).
  rewrite List.map_app in Hnodup.
  apply NoDup_ListNoDup, NoDup_app in Hnodup as (Hfront & Hsep & _).
  pose proof Hfront as Hfront'. rewrite List.map_app in Hfront'.
  apply NoDup_app in Hfront' as (Hl1 & Hsep1 & _).
  apply NoDup_ListNoDup in Hl1.
  assert (Hfresh : ~ In (id t) (List.map id l1)).
  { intros Hin. apply (Hsep1 (id t)); [apply list_elem_of_In, Hin|].
    apply list_elem_of_singleton. reflexivity. }
  pose proof (runInvariant_holds agents l1 Hl1) as Hinv.
  set (s1 := runTasks agents l1) in *.
  assert (Hfresh' : ~ In (id t) (List.map fst (resultMap s1)))
    by (rewrite (ri_keys _ _ Hinv); exact Hfresh).
  rewrite runTasks_snoc in Hrm, Hcalls. fold s1 in Hrm, Hcalls.
  destruct (runTask_fresh agents s1 t Hfresh') as (Hrm1 & Hcalls1 & _).
  rewrite Hrm1 in Hrm. rewrite Hcalls1 in Hcalls.
  assert (Hsame : attempt agents (resultMap (runTasks agents ((l1 ++ [t]) ++ l2))) t
                  = attempt agents (resultMap s1) t).
  { apply attempt_reads_dependencies. intros d Hd.
    rewrite Hrm, <- List.app_assoc, omap_get_app.
    destruct (omap_get (resultMap s1) d) as [r|] eqn:Hget; [reflexivity|].
    apply omap_get_none. intros Hin.
    apply omap_get_none in Hget. apply Hget.
    rewrite (ri_keys _ _ Hinv). apply Hdeps; [exact Hd|].
    assert (Hnamed : In d (List.map id (l1 ++ t :: l2))).
    { rewrite List.map_app in Hin. cbn [List.map fst app] in Hin.
      rewrite Hkeys in Hin. rewrite List.map_app. apply List.in_app_iff.
      right. exact Hin. }
    apply List.in_map_iff in Hnamed as (u & <- & Hu).
    apply List.in_map. apply (findTask_some tasks (id u)), Hfirst.
    exact Hu. }
  rewrite Hsame. split.
  - rewrite Hrm, omap_get_app, omap_get_last, String.eqb_refl by exact Hfresh'.
    reflexivity.
  - rewrite Hcalls.
    assert (Hlater : ~ In (id t) calls).
    { intros Hin. apply (Hsep (id t)).
      - apply list_elem_of_In. rewrite List.map_app. apply List.in_app_iff.
        right. left. reflexivity.
      - apply list_elem_of_In, Hsub, Hin. }
    assert (Hearlier : ~ In (id t) (invoked s1)).
    { intros Hin. apply Hfresh, (ri_invoked _ _ Hinv), Hin. }
    destruct (snd (attempt agents (resultMap s1) t)).
    + split; [reflexivity|]. intros _.
      apply List.in_app_iff. left. apply List.in_app_iff. right. left. reflexivity.
    + split; [|discriminate]. intros Hin.
      apply List.in_app_iff in Hin as [Hin|Hin]; contradiction.
Qed.

(** X4.  In a run of an acyclic queue the result stored for a task is the
    one the loop body computes from the results the run ends with: the
    dependency failure when a declared dependency has no successful
    result, else the missing agent failure, else what the agent makes of
    the task's input with the outputs of its dependencies.  The agent has
    been called exactly when the body calls it on the final results. *)
Theorem results_are_consistent tasks order :
  topologicalSort tasks = Ok order ->
  forall t,
    In t order ->
    omap_get (storedResults (execute agents tasks)) (id t)
    = Some match fst (attempt agents (storedResults (execute agents tasks)) t) with
           | inr out => mkResult (id t) true (Some out) None
           | inl errorMessage => mkResult (id t) false None (Some errorMessage)
           end
    /\ (In (id t) (agentCalls (execute agents tasks))
        <-> snd (attempt agents (storedResults (execute agents tasks)) t) = true).
Proof. apply stored_result_is_recorded. Qed.


(** X24.  A task succeeds only if every dependency it declares names a
    queued task, and every task it depends on, directly or through other
    tasks, has succeeded as well. *)
Theorem success_needs_every_dependency tasks order t r :
  topologicalSort tasks = Ok order ->
  In t order ->
  omap_get (storedResults (execute agents tasks)) (id t) = Some r ->
  success r = true ->
  (forall d, In d (declared t) -> In d (List.map id tasks))
  /\ forall y,
       tc (dependsOn tasks) (id t) y ->
       exists r', omap_get (storedResults (execute agents tasks)) y = Some r'
                  /\ success r' = true.
Proof.
  intros Hsort Ht Hr Hsuccess.
  pose proof (topologicalSort_spec tasks) as Hspec. rewrite Hsort in Hspec.
  destruct Hspec as (Hnodup & Hall & Hfirst & _).
  set (stored := storedResults (execute agents tasks)) in *.
  assert (Hdirect : forall u ru,
            In u order -> omap_get stored (id u) = Some ru -> success ru = true ->
            forall d, In d (declared u) ->
                      exists rd, omap_get stored d = Some rd /\ success rd = true).
  { intros u ru Hu Hru Hok d Hd.
    destruct (stored_result_is_recorded tasks order Hsort u Hu) as [Hstored _].
    fold stored in Hstored. rewrite Hru in Hstored. injection Hstored as ->.
    unfold attempt in Hok.
    destruct (dependenciesMet stored u) eqn:Hmet; [|cbn in Hok; discriminate].
    unfold dependenciesMet in Hmet. rewrite List.forallb_forall in Hmet.
    specialize (Hmet d Hd).
    destruct (omap_get stored d) as [rd|]; [|discriminate]. eauto. }
  assert (Hstep : forall x y,
            (exists u ru, In u order /\ id u = x
                          /\ omap_get stored x = Some ru /\ success ru = true) ->
            dependsOn tasks x y ->
            exists u ru, In u order /\ id u = y
                         /\ omap_get stored y = Some ru /\ success ru = true).
  { intros x y (u & ru & Hu & <- & Hru & Hok) (u' & Hfind & Hy & Hqueued).
    rewrite (Hfirst u Hu) in Hfind. injection Hfind as <-.
    destruct (Hdirect u ru Hu Hru Hok y Hy) as (ry & Hry & Hoky).
    destruct Hqueued as [v Hv]. pose proof (findTask_some tasks y v Hv) as [Hin Hid].
    apply Hall, List.in_map_iff in Hin as (w & Hw & Hworder).
    exists w, ry. repeat split; try assumption. congruence. }
  split.
  - intros d Hd. destruct (Hdirect t r Ht Hr Hsuccess d Hd) as (rd & Hrd & _).
    assert (Hkey : In d (List.map fst stored)).
    { destruct (List.in_dec String.string_dec d (List.map fst stored)) as [Hin|Hout];
        [exact Hin|]. apply omap_get_none in Hout. congruence. }
    unfold stored, execute in Hkey. rewrite Hsort in Hkey. cbn [storedResults] in Hkey.
    rewrite (ri_keys _ _ (runInvariant_holds agents order Hnodup)) in Hkey.
    apply List.in_map_iff in Hkey as (u & <- & Hu).
    apply List.in_map, (findTask_some tasks (id u)), Hfirst, Hu.
  - intros y Hreach.
    assert (Hgoal : exists u ru, In u order /\ id u = y
                                 /\ omap_get stored y = Some ru /\ success ru = true).
    { remember (id t) as x eqn:Hx.
      assert (Hstart : exists u ru, In u order /\ id u = x
                                    /\ omap_get stored x = Some ru
                                    /\ success ru = true)
        by (subst x; exists t, r; auto).
      clear Hx Hr. induction Hreach as [x y Hxy|x z y Hxz _ IH].
      - apply (Hstep x y Hstart Hxy).
      - apply IH, (Hstep x z Hstart Hxz). }
    destruct Hgoal as (_ & ry & _ & _ & Hry & Hoky). eauto.
Qed.

End WithPayload.


(** The diamond D; B and C on D; A on B and C, queued from the top. *)
Lemma sorted_order_is_topological_witness :
  List.NoDup (List.map id
    [mkTask "D" "t" tt None; mkTask "B" "t" tt (Some ["D"]);
     mkTask "C" "t" tt (Some ["D"]); mkTask "A" "t" tt (Some ["B"; "C"])]).
Proof.
  apply (sorted_order_is_topological
           [mkTask "A" "t" tt (Some ["B"; "C"]); mkTask "B" "t" tt (Some ["D"]);
            mkTask "C" "t" tt (Some ["D"]); mkTask "D" "t" tt None]).
  vm_compute. reflexivity.
Defined.

(** The queue F, E, D of before: the result of F is the one computed from
    the final results. *)
Lemma results_are_consistent_witness :
  omap_get
    (storedResults
       (execute (Output := unit) {[ "t" := fun _ => inr tt ]}
          [mkTask "F" "t" tt (Some ["D"]); mkTask "E" "t" tt (Some ["D"; "X"]);
           mkTask "D" "t" tt None])) "F"
  = Some (mkResult "F" true (Some tt) None).
Proof.
  apply (results_are_consistent (Output := unit) {[ "t" := fun _ => inr tt ]}
           [mkTask "F" "t" tt (Some ["D"]); mkTask "E" "t" tt (Some ["D"; "X"]);
            mkTask "D" "t" tt None]
           [mkTask "D" "t" tt None; mkTask "F" "t" tt (Some ["D"]);
            mkTask "E" "t" tt (Some ["D"; "X"])]
           ltac:(vm_compute; reflexivity)
           (mkTask "F" "t" tt (Some ["D"]))).
  right. left. reflexivity.
Defined.

(** The queue F, E, D again: F succeeds, and so does D, on which it
    depends. *)
Lemma success_needs_every_dependency_witness :
  exists r',
    omap_get
      (storedResults
         (execute (Output := unit) {[ "t" := fun _ => inr tt ]}
            [mkTask "F" "t" tt (Some ["D"]); mkTask "E" "t" tt (Some ["D"; "X"]);
             mkTask "D" "t" tt None])) "D"
    = Some r'
    /\ success r' = true.
Proof.
  apply (success_needs_every_dependency (Output := unit) {[ "t" := fun _ => inr tt ]}
           [mkTask "F" "t" tt (Some ["D"]); mkTask "E" "t" tt (Some ["D"; "X"]);
            mkTask "D" "t" tt None]
           [mkTask "D" "t" tt None; mkTask "F" "t" tt (Some ["D"]);
            mkTask "E" "t" tt (Some ["D"; "X"])]
           (mkTask "F" "t" tt (Some ["D"]))
           (mkResult "F" true (Some tt) None)).
  - vm_compute. reflexivity.
  - right. left. reflexivity.
  - vm_compute. reflexivity.
  - reflexivity.
  - apply tc_once. exists (mkTask "F" "t" tt (Some ["D"])).
    split; [reflexivity|]. split; [left; reflexivity|]. eexists. reflexivity.
Defined.

End OrderFacts.

(** ** The orchestrator object: queue, registry and stored results *)

Module ObjectFacts.

Import JsMap JsMapFacts Orchestrator OrchestratorSpec SortFacts RunFacts.
Import OrchestratorObject LedgerFacts.

Section WithPayload.
Context {Payload Output : Type}.
Implicit Types (o : Object Payload Output).

(** X5.  [execute] consumes the queue, whether it returns or throws, and
    leaves the registry alone.  When it returns, [getTaskResult] answers
    for exactly the identifiers of the queued tasks, each with a result
    that carries that identifier and is among the returned results; when it
    throws, every earlier result is gone.  A second [execute] with nothing
    queued runs no agent and reports success with no results. *)
Theorem execute_consumes_queue o :
  let o' := fst (fst (executeMethod o)) in
  let outcome := snd (fst (executeMethod o)) in
  agents o' = agents o
  /\ taskQueue o' = []
  /\ (~ cyclic (taskQueue o) ->
      exists res,
        outcome = Ok res
        /\ forall x,
             if bool_decide (x ∈ List.map id (taskQueue o))
             then exists r, getTaskResult o' x = Some r
                            /\ taskId r = x /\ In r (Orchestrator.results res)
             else getTaskResult o' x = None)
  /\ (cyclic (taskQueue o) ->
      (exists m, outcome = Throw m) /\ forall x, getTaskResult o' x = None)
  /\ executeMethod o' = (mkObject (agents o) [] [], Ok (mkOrch true [] []), []).
Proof.
  unfold executeMethod, execute, getTaskResult. cbn [fst snd].
  pose proof (topologicalSort_spec (taskQueue o)) as Hspec.
  destruct (topologicalSort (taskQueue o)) as [order|m|];
    cbn [agents taskQueue results storedResults completion agentCalls];
    [|destruct Hspec as (y & -> & Hy)|contradiction].
  - destruct Hspec as (Hnodup & Hall & Hfirst & _ & Hacyclic).
    pose proof (runInvariant_holds (agents o) order Hnodup) as Hinv.
    refine (conj eq_refl (conj eq_refl (conj _ (conj _ eq_refl))));
      [|intros Hcyclic; contradiction].
    intros _. eexists. split; [reflexivity|]. intros x.
    cbn [Orchestrator.results].
    destruct (bool_decide_reflect (x ∈ List.map id (taskQueue o))) as [Hx|Hx].
    + apply list_elem_of_In, List.in_map_iff in Hx as (u & <- & Hu).
      apply Hall in Hu. rewrite <- (ri_keys _ _ Hinv) in Hu.
      destruct (omap_get (resultMap (runTasks (agents o) order)) (id u))
        as [r|] eqn:Hget; [|apply omap_get_none in Hget; contradiction].
      exists r. apply omap_get_In in Hget.
      refine (conj eq_refl (conj _ _)).
      * pose proof (ri_ids _ _ Hinv) as Hids.
        rewrite <- (ri_keys _ _ Hinv) in Hids.
        apply (proj1 List.map_ext_in_iff Hids _ Hget).
      * apply List.in_map_iff. exists (id u, r). split; [reflexivity|exact Hget].
    + apply omap_get_none. rewrite (ri_keys _ _ Hinv). intros Hin.
      apply Hx, list_elem_of_In.
      apply List.in_map_iff in Hin as (u & <- & Hu).
      apply List.in_map, (findTask_some (taskQueue o) (id u)), Hfirst, Hu.
  - refine (conj eq_refl (conj eq_refl (conj _ (conj _ eq_refl)))).
    + intros Hacyclic. exfalso. apply Hacyclic. exists y. exact Hy.
    + intros _. split; [eexists; reflexivity | reflexivity].
Qed.

End WithPayload.

(** A queue of two tasks, the first depending on the second. *)
Lemma execute_consumes_queue_witness :
  exists res,
    snd (fst (executeMethod
                (addTask (addTask (registerAgent create "t" (fun _ => inr tt))
                            (mkTask "F" "t" tt (Some ["D"])))
                   (mkTask "D" "t" tt None))))
    = Ok res
    /\ Orchestrator.results res
       = [mkResult "D" true (Some tt) None; mkResult "F" true (Some tt) None].
Proof.
  destruct (execute_consumes_queue (Payload := unit) (Output := unit)
              (addTask (addTask (registerAgent create "t" (fun _ => inr tt))
                          (mkTask "F" "t" tt (Some ["D"])))
                 (mkTask "D" "t" tt None)))
    as (_ & _ & Hreturns & _).
  destruct Hreturns as (res & Hres & _).
  - apply (ExecuteFacts.sorted_acyclic _
             [mkTask "D" "t" tt None; mkTask "F" "t" tt (Some ["D"])]).
    vm_compute. reflexivity.
  - exists res. split; [exact Hres|].
    vm_compute in Hres. injection Hres as <-. reflexivity.
Defined.

End ObjectFacts.

(** ** Retrying with exponential backoff *)

Module RetryFacts.

Import Retry.
Local Open Scope Z_scope.

Section WithTypes.
Context {T E : Type}.
Variable fn : nat -> E + T.
Variables (maxAttempts delayMs : Z).

Lemma delays_from called n :
  List.map (fun i => delayMs * 2 ^ Z.of_nat i) (seq called (S n))
  = (delayMs * 2 ^ Z.of_nat called)
    :: List.map (fun i => delayMs * 2 ^ Z.of_nat i) (seq (S called) n).
Proof. reflexivity. Qed.

Lemma attempts_succeed (v : T) : forall k rounds called lastError slept,
  (k < rounds)%nat ->
  Z.of_nat (called + rounds) = maxAttempts ->
  (forall i, (i < k)%nat -> exists e, fn (called + i) = inl e) ->
  fn (called + k) = inr v ->
  attempts fn maxAttempts delayMs rounds (Z.of_nat called + 1) called lastError slept
  = mkOutcome (inr v) (S (called + k))
      (slept ++ List.map (fun i => delayMs * 2 ^ Z.of_nat i) (seq called k)).
Proof.
  induction k as [|k IH]; intros [|rounds] called lastError slept Hk Hmax Hfail Hok;
    try lia; cbn [attempts].
  - rewrite Nat.add_0_r in Hok. rewrite Hok, Nat.add_0_r, List.app_nil_r. reflexivity.
  - destruct (Hfail 0%nat ltac:(lia)) as [e He]. rewrite Nat.add_0_r in He. rewrite He.
    destruct (Z.ltb_spec (Z.of_nat called + 1) maxAttempts) as [_|Hle]; [|lia].
    replace (Z.of_nat called + 1 + 1) with (Z.of_nat (S called) + 1) by lia.
    rewrite (IH rounds (S called)).
    + rewrite delays_from, <- List.app_assoc. cbn [app].
      replace (Z.of_nat called + 1 - 1) with (Z.of_nat called) by lia.
      replace (S called + k)%nat with (called + S k)%nat by lia. reflexivity.
    + lia.
    + lia.
    + intros i Hi. replace (S called + i)%nat with (called + S i)%nat by lia.
      apply Hfail. lia.
    + replace (S called + k)%nat with (called + S k)%nat by lia. exact Hok.
Qed.

Lemma attempts_exhaust (errors : nat -> E) : forall rounds called lastError slept,
  Z.of_nat (called + rounds) = maxAttempts ->
  (forall i, (i < rounds)%nat -> fn (called + i) = inl (errors (called + i)%nat)) ->
  attempts fn maxAttempts delayMs rounds (Z.of_nat called + 1) called lastError slept
  = mkOutcome
      (inl (match rounds with
            | O => lastError
            | S r => Some (errors (called + r)%nat)
            end))
      (called + rounds)
      (slept ++ List.map (fun i => delayMs * 2 ^ Z.of_nat i)
                  (seq called (rounds - 1))).
Proof.
  induction rounds as [|rounds IH]; intros called lastError slept Hmax Hfail;
    cbn [attempts].
  - rewrite Nat.add_0_r, List.app_nil_r. reflexivity.
  - rewrite <- (Nat.add_0_r called) at 1. rewrite (Hfail 0%nat) by lia.
    replace (Z.of_nat called + 1 + 1) with (Z.of_nat (S called) + 1) by lia.
    rewrite (IH (S called)).
    + replace (S called + rounds)%nat with (called + S rounds)%nat by lia.
      destruct rounds as [|rounds].
      * destruct (Z.ltb_spec (Z.of_nat called + 1) maxAttempts) as [Hlt|_]; [lia|].
        rewrite Nat.add_0_r. reflexivity.
      * destruct (Z.ltb_spec (Z.of_nat called + 1) maxAttempts) as [_|Hle]; [|lia].
        replace (S (S rounds) - 1)%nat with (S (S rounds - 1)) by lia.
        rewrite delays_from, <- List.app_assoc. cbn [app].
        replace (Z.of_nat called + 1 - 1) with (Z.of_nat called) by lia.
        replace (S called + rounds)%nat with (called + S rounds)%nat by lia.
        reflexivity.
    + lia.
    + intros i Hi. replace (S called + i)%nat with (called + S i)%nat by lia.
      apply Hfail. lia.
Qed.

Lemma total_backoff n : total (backoff delayMs n) = delayMs * (2 ^ Z.of_nat n - 1).
Proof.
  unfold backoff, total.
  assert (Hfrom : forall m k,
            List.fold_right Z.add 0
              (List.map (fun i => delayMs * 2 ^ Z.of_nat i) (seq k m))
            = delayMs * 2 ^ Z.of_nat k * (2 ^ Z.of_nat m - 1)).
  { induction m as [|m IH]; intros k; [cbn; lia|].
    rewrite delays_from. cbn [List.fold_right]. rewrite IH.
    rewrite !Nat2Z.inj_succ, !Z.pow_succ_r by lia. ring. }
  rewrite Hfrom. change (Z.of_nat 0) with 0. rewrite Z.pow_0_r. ring.
Qed.

(** X18.  When the calls before call [k] reject and call [k] resolves
    within the allowed attempts, the value of call [k] is returned after
    [k + 1] calls and [k] sleeps, of [delayMs], twice that, and so on,
    which add up to [delayMs * (2^k - 1)]. *)
Theorem retry_returns_first_success k (v : T) :
  Z.of_nat k < maxAttempts ->
  (forall i, (i < k)%nat -> exists e, fn i = inl e) ->
  fn k = inr v ->
  retry fn maxAttempts delayMs = mkOutcome (inr v) (S k) (backoff delayMs k)
  /\ total (backoff delayMs k) = delayMs * (2 ^ Z.of_nat k - 1).
Proof.
  intros Hk Hfail Hok. split; [|apply total_backoff].
  unfold retry. apply (attempts_succeed v k (Z.to_nat maxAttempts) 0 None []).
  - lia.
  - cbn [Nat.add]. lia.
  - exact Hfail.
  - exact Hok.
Qed.

(** X19.  When every allowed call rejects, the error of the last call is
    thrown after [maxAttempts] calls, with a sleep between two calls and
    none after the last; with no attempt allowed, [undefined] is thrown
    and [fn] is never called. *)
Theorem retry_gives_up (errors : nat -> E) :
  (forall i, Z.of_nat i < maxAttempts -> fn i = inl (errors i)) ->
  retry fn maxAttempts delayMs
  = mkOutcome
      (inl (if maxAttempts <=? 0 then None
            else Some (errors (Z.to_nat maxAttempts - 1)%nat)))
      (Z.to_nat maxAttempts)
      (backoff delayMs (Z.to_nat maxAttempts - 1)).
Proof.
  intros Hfail. unfold retry.
  destruct (Z.leb_spec maxAttempts 0) as [Hnone|Hsome].
  - replace (Z.to_nat maxAttempts) with 0%nat by lia. reflexivity.
  - assert (Hmax : Z.of_nat (0 + Z.to_nat maxAttempts) = maxAttempts)
      by (cbn [Nat.add]; lia).
    pose proof (attempts_exhaust errors (Z.to_nat maxAttempts) 0 None [] Hmax)
      as Hrun.
    change (Z.of_nat 0 + 1) with 1 in Hrun.
    rewrite Hrun by (intros i Hi; apply Hfail; lia).
    cbn [app Nat.add].
    destruct (Z.to_nat maxAttempts) as [|r] eqn:Hr; [lia|].
    replace (S r - 1)%nat with r by lia. reflexivity.
Qed.

End WithTypes.

(** Two rejections, then a value, with the defaults of [retry]. *)
Lemma retry_returns_first_success_witness :
  retry (fun k => if (k <? 2)%nat then inl "busy" else inr 7) 3 1000
  = mkOutcome (inr 7) 3 [1000; 2000]
  /\ total [1000; 2000] = 3000.
Proof.
  apply (retry_returns_first_success
           (fun k => if (k <? 2)%nat then inl "busy" else inr 7) 3 1000 2 7).
  - lia.
  - intros [|[|i]] Hi; [eexists; reflexivity | eexists; reflexivity | lia].
  - reflexivity.
Defined.

(** Three rejections with the defaults: two sleeps, the last error. *)
Lemma retry_gives_up_witness :
  retry (T := Z) (fun k => inl (Z.of_nat k)) 3 1000
  = mkOutcome (inl (Some 2)) 3 [1000; 2000].
Proof.
  apply (retry_gives_up (T := Z) (fun k => inl (Z.of_nat k)) 3 1000 Z.of_nat).
  intros i _. reflexivity.
Defined.

End RetryFacts.

(** ** Texts and arrays *)

Module TextFacts.

Import Text.
Local Open Scope Z_scope.

(** X21.  [truncate] returns a text that fits as it is.  One that does
    not fit is cut to [maxLength - 3] code units and three dots when
    [maxLength] is at least 3, which makes [maxLength] in all; below 3 the
    negative index cuts from the end instead, and the result is longer
    than [maxLength]. *)
Theorem truncate_length text maxLength :
  let len := Z.of_nat (length text) in
  (len <= maxLength -> truncate text maxLength = text)
  /\ (maxLength < len -> 3 <= maxLength ->
      truncate text maxLength
      = firstn (Z.to_nat (maxLength - 3)) text ++ [dot; dot; dot]
      /\ Z.of_nat (length (truncate text maxLength)) = maxLength)
  /\ (maxLength < len -> maxLength < 3 ->
      truncate text maxLength
      = firstn (Z.to_nat (len + maxLength - 3)) text ++ [dot; dot; dot]
      /\ maxLength < Z.of_nat (length (truncate text maxLength))).
Proof.
  intros len. unfold truncate, slice. fold len.
  destruct (Z.leb_spec len maxLength) as [Hfits|Hlong].
  - split; [reflexivity|]. split; intros; lia.
  - split; [intros; lia|].
    change (0 <? 0) with false. cbv iota.
    replace (Z.min 0 len) with 0 by lia.
    change (Z.to_nat 0) with 0%nat. rewrite !drop_0.
    rewrite Z.sub_0_r.
    split; intros _ Hmax.
    + destruct (Z.ltb_spec (maxLength - 3) 0) as [Hneg|_]; [lia|].
      replace (Z.min (maxLength - 3) len) with (maxLength - 3) by lia.
      split; [reflexivity|].
      rewrite List.length_app, List.length_firstn. cbn [length]. unfold len in *. lia.
    + destruct (Z.ltb_spec (maxLength - 3) 0) as [_|Hpos]; [|lia].
      replace (Z.to_nat (Z.max (len + (maxLength - 3)) 0))
        with (Z.to_nat (len + maxLength - 3)) by lia.
      split; [reflexivity|].
      rewrite List.length_app, List.length_firstn. cbn [length]. unfold len in *. lia.
Qed.

(** Six letters and room for two. *)
Lemma truncate_length_witness :
  truncate [97; 98; 99; 100; 101; 102]%N 2
  = [97; 98; 99; 100; 101; 46; 46; 46]%N
  /\ 2 < Z.of_nat (length (truncate [97; 98; 99; 100; 101; 102]%N 2)).
Proof.
  apply (truncate_length [97; 98; 99; 100; 101; 102]%N 2); reflexivity.
Defined.

(** *** [unique] *)

Section Unique.
Context {A : Type} `{EqDecision A}.
Implicit Types (l seen : list A).

Lemma unique_from l : forall seen,
  List.NoDup seen ->
  let result :=
    List.fold_left
      (fun seen x => if bool_decide (x ∈ seen) then seen else seen ++ [x]) l seen in
  List.NoDup result
  /\ (forall x, In x result <-> In x seen \/ In x l)
  /\ sublist result (seen ++ l)
  /\ (List.NoDup (seen ++ l) -> result = seen ++ l).
Proof.
  induction l as [|x l IH]; intros seen Hseen; cbn [List.fold_left].
  - rewrite List.app_nil_r. repeat split; try tauto; auto.
    intros [?|[]]; assumption.
  - destruct (bool_decide_reflect (x ∈ seen)) as [Hin|Hout].
    + destruct (IH seen Hseen) as (Hnodup & Hmem & Hsub & Hsame).
      refine (conj Hnodup (conj _ (conj _ _))).
      * intros y. rewrite Hmem. cbn [In]. apply list_elem_of_In in Hin.
        split; [tauto|]. intros [Hy|[<-|Hy]]; tauto.
      * etransitivity; [exact Hsub|].
        apply sublist_app; [reflexivity | apply sublist_cons; reflexivity].
      * intros Hall. exfalso. apply NoDup_ListNoDup, NoDup_app in Hall as (_ & Hsep & _).
        apply (Hsep x Hin). left.
    + assert (Hseen' : List.NoDup (seen ++ [x])).
      { apply NoDup_ListNoDup, NoDup_app. split; [apply NoDup_ListNoDup, Hseen|].
        split; [|apply NoDup_singleton].
        intros y Hy Hx. apply list_elem_of_singleton in Hx as ->. contradiction. }
      destruct (IH (seen ++ [x]) Hseen') as (Hnodup & Hmem & Hsub & Hsame).
      rewrite <- List.app_assoc in Hsub, Hsame. cbn [app] in Hsub, Hsame.
      refine (conj Hnodup (conj _ (conj Hsub Hsame))).
      intros y. rewrite Hmem, List.in_app_iff. cbn [In]. tauto.
Qed.

Lemma filter_twice (f g h : A -> bool) l :
  (forall y, h y = g y && f y) ->
  List.filter f (List.filter g l) = List.filter h l.
Proof.
  intros Hh. induction l as [|y l IH]; [reflexivity|].
  cbn [List.filter]. rewrite (Hh y).
  destruct (g y); cbn [List.filter andb]; [destruct (f y)|]; rewrite IH; reflexivity.
Qed.

(** Starting from the elements [seen], the loop appends what [unique]
    keeps of the array, less the elements of [seen]. *)
Lemma unique_after l : forall seen,
  List.fold_left
    (fun seen x => if bool_decide (x ∈ seen) then seen else seen ++ [x]) l seen
  = seen ++ List.filter (fun y => negb (bool_decide (y ∈ seen))) (unique l).
Proof.
  induction l as [|x l IH]; intros seen.
  - cbn. rewrite List.app_nil_r. reflexivity.
  - unfold unique. cbn [List.fold_left].
    rewrite (bool_decide_eq_false_2 (x ∈ [])) by apply not_elem_of_nil.
    cbn [app]. rewrite (IH [x]), (IH (if bool_decide (x ∈ seen) then seen else seen ++ [x])).
    cbn [app List.filter].
    destruct (bool_decide_reflect (x ∈ seen)) as [Hin|Hout]; cbn [negb].
    + f_equal. rewrite filter_twice with (h := fun y => negb (bool_decide (y ∈ seen)));
        [reflexivity|].
      intros y. destruct (bool_decide_reflect (y ∈ [x])) as [Hy|Hy]; cbn [negb andb];
        [|reflexivity].
      apply list_elem_of_singleton in Hy as ->.
      rewrite (bool_decide_eq_true_2 _ Hin). reflexivity.
    + rewrite <- List.app_assoc. cbn [app]. do 2 f_equal.
      rewrite filter_twice with (h := fun y => negb (bool_decide (y ∈ seen ++ [x])));
        [reflexivity|].
      intros y.
      destruct (bool_decide_reflect (y ∈ [x])) as [Hy|Hy],
               (bool_decide_reflect (y ∈ seen)) as [Hs|Hs]; cbn [negb andb].
      * apply negb_false_iff, bool_decide_eq_true_2. rewrite elem_of_app. tauto.
      * apply negb_false_iff, bool_decide_eq_true_2. rewrite elem_of_app. tauto.
      * apply negb_false_iff, bool_decide_eq_true_2. rewrite elem_of_app. tauto.
      * apply negb_true_iff, bool_decide_eq_false_2. rewrite elem_of_app. tauto.
Qed.

(** X22.  [unique] keeps every element of the array once, at the place of
    its first occurrence.  The head of an array is kept where it is and
    deleted from what [unique] keeps of the rest; more generally what is
    kept of [l ++ l'] is what is kept of [l], followed by what is kept of
    [l'] less the elements of [l].  So the result has no duplicates and
    the same elements, in the order of the array; an array without
    duplicates comes back as it is, and so does a result. *)
Theorem unique_keeps_first_occurrences l :
  List.NoDup (unique l)
  /\ (forall x, In x (unique l) <-> In x l)
  /\ sublist (unique l) l
  /\ (List.NoDup l -> unique l = l)
  /\ unique (unique l) = unique l
  /\ (forall x,
        unique (x :: l)
        = x :: List.filter (fun y => negb (bool_decide (y = x))) (unique l))
  /\ (forall l',
        unique (l ++ l')
        = unique l ++ List.filter (fun y => negb (bool_decide (y ∈ l))) (unique l')).
Proof.
  destruct (unique_from l [] ltac:(constructor)) as (Hnodup & Hmem & Hsub & Hsame).
  cbn [app] in *. fold (unique l) in *.
  assert (Hsame_elements : forall x, In x (unique l) <-> In x l).
  { intros x. rewrite Hmem. cbn [In]. tauto. }
  refine (conj Hnodup (conj Hsame_elements (conj Hsub (conj Hsame (conj _ (conj _ _)))))).
  - destruct (unique_from (unique l) [] ltac:(constructor)) as (_ & _ & _ & Hagain).
    apply Hagain, Hnodup.
  - intros x. unfold unique at 1. cbn [List.fold_left].
    rewrite (bool_decide_eq_false_2 (x ∈ [])) by apply not_elem_of_nil.
    cbn [app]. rewrite unique_after. cbn [app]. f_equal.
    apply List.filter_ext. intros y. f_equal.
    apply bool_decide_ext. apply list_elem_of_singleton.
  - intros l'. unfold unique at 1. rewrite List.fold_left_app.
    fold (unique l). rewrite unique_after. f_equal.
    apply List.filter_ext. intros y. f_equal.
    apply bool_decide_ext. rewrite !list_elem_of_In. apply Hsame_elements.
Qed.

End Unique.

(** The array 1, 2, 1, 3, 2: the second 1 and the second 2 go. *)
Lemma unique_keeps_first_occurrences_witness :
  unique [1; 2; 1; 3; 2]%nat = [1; 2; 3]%nat.
Proof.
  destruct (unique_keeps_first_occurrences [2; 1; 3; 2]%nat)
    as (_ & _ & _ & _ & _ & Hhead & _).
  exact (Hhead 1%nat).
Defined.

(** *** [sanitizeFilename] *)

Lemma upper_range c : isUpper c = true -> (65 <= c <= 90)%N.
Proof.
  unfold isUpper, between. intros H. apply andb_prop in H as [Hlo Hhi].
  apply N.leb_le in Hlo, Hhi. lia.
Qed.

Lemma upper_is_not_safe c : isUpper c = true -> safe c = false.
Proof.
  intros H. apply upper_range in H.
  unfold safe, isLower, isDigit, between, dot, hyphen, underscore.
  rewrite (proj2 (N.leb_gt 97 c)) by lia.
  rewrite (proj2 (N.leb_gt c 57)) by lia.
  rewrite (proj2 (N.eqb_neq c 46)) by lia.
  rewrite (proj2 (N.eqb_neq c 45)) by lia.
  rewrite (proj2 (N.eqb_neq c 95)) by lia.
  rewrite andb_false_r. reflexivity.
Qed.

Lemma lower_safe c : kept c || N.eqb c underscore = true -> safe (lower c) = true.
Proof.
  unfold lower. destruct (isUpper c) eqn:Hupper.
  - intros _. apply upper_range in Hupper.
    unfold safe, isLower, between.
    rewrite (proj2 (N.leb_le 97 (c + 32))) by lia.
    rewrite (proj2 (N.leb_le (c + 32) 122)) by lia. reflexivity.
  - unfold kept, safe. rewrite Hupper.
    destruct (isLower c), (isDigit c), (N.eqb c dot), (N.eqb c hyphen),
      (N.eqb c underscore); cbn; congruence.
Qed.

Lemma lower_underscore c : N.eqb (lower c) underscore = N.eqb c underscore.
Proof.
  unfold lower. destruct (isUpper c) eqn:Hupper; [|reflexivity].
  apply upper_range in Hupper. unfold underscore.
  rewrite (proj2 (N.eqb_neq (c + 32) 95)) by lia.
  rewrite (proj2 (N.eqb_neq c 95)) by lia. reflexivity.
Qed.

Lemma safe_fixed c :
  safe c = true -> (if kept c then c else underscore) = c /\ lower c = c.
Proof.
  intros Hsafe. split.
  - destruct (kept c) eqn:Hkept; [reflexivity|].
    unfold kept in Hkept. unfold safe in Hsafe.
    destruct (isLower c), (isUpper c), (isDigit c), (N.eqb c dot), (N.eqb c hyphen);
      cbn in Hkept, Hsafe; try discriminate.
    symmetry. apply N.eqb_eq, Hsafe.
  - unfold lower. destruct (isUpper c) eqn:Hupper; [|reflexivity].
    rewrite (upper_is_not_safe c Hupper) in Hsafe. discriminate.
Qed.

Lemma squeeze_units (P : CodeUnit -> Prop) s : forall after,
  Forall P s -> Forall P (squeeze after s).
Proof.
  induction s as [|c s IH]; intros after Hs; cbn [squeeze]; [constructor|].
  apply Forall_cons in Hs as [Hc Hs].
  destruct (N.eqb_spec c underscore) as [->|_].
  - destruct after; [apply IH, Hs|]. constructor; [exact Hc | apply IH, Hs].
  - constructor; [exact Hc | apply IH, Hs].
Qed.

Lemma squeeze_length s : forall after,
  (length (squeeze after s) <= length s)%nat.
Proof.
  induction s as [|c s IH]; intros after; cbn [squeeze length]; [lia|].
  destruct (N.eqb c underscore); [destruct after|]; cbn [length];
    match goal with |- context [squeeze ?b s] => specialize (IH b) end; lia.
Qed.

Lemma squeeze_noRun s : forall after,
  noRun (squeeze after s) = true
  /\ (after = true ->
      match squeeze after s with c :: _ => N.eqb c underscore = false | [] => True end).
Proof.
  induction s as [|c s IH]; intros after; cbn [squeeze]; [split; [reflexivity | auto]|].
  destruct (N.eqb_spec c underscore) as [->|Hc].
  - destruct (IH true) as [Hrun Hhead]. specialize (Hhead eq_refl).
    destruct after; [split; [exact Hrun | intros _; exact Hhead]|].
    split; [|discriminate]. cbn [noRun].
    destruct (squeeze true s) as [|c' t]; [reflexivity|].
    rewrite Hhead, andb_false_r. exact Hrun.
  - destruct (IH false) as [Hrun _]. split.
    + cbn [noRun]. destruct (squeeze false s) as [|c' t]; [reflexivity|].
      apply N.eqb_neq in Hc. rewrite Hc. exact Hrun.
    + intros _. apply N.eqb_neq, Hc.
Qed.

Lemma lower_noRun t : noRun (List.map lower t) = noRun t.
Proof.
  induction t as [|c t IH]; [reflexivity|].
  destruct t as [|c' t]; [reflexivity|].
  cbn [List.map noRun] in *. rewrite IH, !lower_underscore. reflexivity.
Qed.

Lemma squeeze_fixed t : forall after,
  noRun t = true ->
  (after = true -> match t with c :: _ => N.eqb c underscore = false | [] => True end) ->
  squeeze after t = t.
Proof.
  induction t as [|c t IH]; intros after Hrun Hhead; [reflexivity|].
  cbn [squeeze].
  assert (Hrest : noRun t = true).
  { destruct t as [|c' t]; [reflexivity|]. cbn [noRun] in Hrun.
    apply andb_prop in Hrun as [_ Hrun]. exact Hrun. }
  destruct (N.eqb c underscore) eqn:Hc.
  - destruct after; [specialize (Hhead eq_refl); congruence|].
    apply N.eqb_eq in Hc as ->. f_equal. apply IH; [exact Hrest|].
    intros _. destruct t as [|c' t]; [exact I|]. cbn [noRun] in Hrun.
    apply andb_prop in Hrun as [Hpair _]. rewrite N.eqb_refl in Hpair.
    destruct (N.eqb c' underscore); [discriminate | reflexivity].
  - f_equal. apply IH; [exact Hrest | discriminate].
Qed.

(** X23.  A sanitized file name is made of lower-case letters, digits,
    dots, hyphens and underscores only, so it holds no path separator; it
    has no two underscores in a row; it is not longer than the name given;
    and sanitizing it again changes nothing. *)
Theorem sanitized_names filename :
  forallb safe (sanitizeFilename filename) = true
  /\ noRun (sanitizeFilename filename) = true
  /\ (length (sanitizeFilename filename) <= length filename)%nat
  /\ sanitizeFilename (sanitizeFilename filename) = sanitizeFilename filename.
Proof.
  assert (Hsafe : Forall (fun c => safe c = true) (sanitizeFilename filename)).
  { unfold sanitizeFilename, toLowerCase.
    apply List.Forall_map.
    apply (List.Forall_impl _ lower_safe).
    apply squeeze_units. unfold replaceOthers. apply List.Forall_map.
    apply List.Forall_forall. intros c _. destruct (kept c) eqn:Hc.
    - rewrite Hc. reflexivity.
    - reflexivity. }
  assert (Hrun : noRun (sanitizeFilename filename) = true).
  { unfold sanitizeFilename, toLowerCase.
    rewrite lower_noRun. apply squeeze_noRun. }
  assert (Hlength : (length (sanitizeFilename filename) <= length filename)%nat).
  { unfold sanitizeFilename, toLowerCase, replaceOthers.
    rewrite List.length_map.
    etransitivity; [apply squeeze_length|]. rewrite List.length_map. lia. }
  refine (conj _ (conj Hrun (conj Hlength _))).
  - apply List.forallb_forall. rewrite List.Forall_forall in Hsafe. exact Hsafe.
  - set (t := sanitizeFilename filename) in *. unfold sanitizeFilename.
    assert (Hreplace : replaceOthers t = t).
    { unfold replaceOthers. rewrite <- (List.map_id t) at 2.
      apply List.map_ext_in. intros c Hc. rewrite List.Forall_forall in Hsafe.
      apply (safe_fixed c (Hsafe c Hc)). }
    rewrite Hreplace, (squeeze_fixed t false Hrun) by discriminate.
    unfold toLowerCase. rewrite <- (List.map_id t) at 2.
    apply List.map_ext_in. intros c Hc. rewrite List.Forall_forall in Hsafe.
    apply (safe_fixed c (Hsafe c Hc)).
Qed.

End TextFacts.

(** ** [roundTo] at any number of decimals *)

Module RoundingFacts.

Import Money MoneyFacts RoundingLemmas.
Local Open Scope Q_scope.

Lemma roundTo_of_multiple k d :
  roundTo (inject_Z k / pow10 d) d == inject_Z k / pow10 d.
Proof.
  rewrite roundTo_eq.
  assert (Hscaled : inject_Z k / pow10 d * pow10 d == inject_Z k)
    by (field; apply pow10_nonzero).
  rewrite (Math_round_ext _ _ Hscaled), Math_round_Z. reflexivity.
Qed.



End RoundingFacts.
